(** * Game Session Engine of the Rock-Paper-Scissors backend

    A shallow embedding of the in-memory match state machine
    (game/gameLogic.js), of the registry (game/gameManager.js) and of the
    socket handlers that drive them (socket handlers: round timer, timeout
    auto-moves, completion, disconnect), followed by the properties the
    specification states about them.

    Conventions of the embedding.
    - A JavaScript value that is either [null]/[undefined] or a string is
      an [option string]; its truthiness is [truthy] (the empty string is
      falsy).
    - An object mutated in place is passed and returned; a function that
      may throw returns the object as it is at the throw together with
      the outcome.
    - [Map] objects whose iteration order is observed ([games]) are
      insertion-ordered association lists; maps only read by key
      ([playerGames], the socket maps) are [gmap]s.
    - Clock readings, fresh identifiers, random draws and answers of the
      profile store are arguments. *)

From Stdlib Require Import ZArith QArith.QArith_base Permutation Ascii String.
From stdpp Require Import gmap strings list.

Local Open Scope string_scope.
Local Open Scope nat_scope.
Local Open Scope list_scope.

(** ** JavaScript values used by the engine *)

(** Truthiness of a nullable string. *)
Definition truthy (v : option string) : bool :=
  match v with
  | Some s => negb (bool_decide (s = ""))
  | None => false
  end.

(** [a || b] on nullable strings. *)
Definition jsOr (a b : option string) : option string :=
  if truthy a then a else b.

(** Errors thrown or returned by the engine, one constructor per message. *)
Inductive Error :=
  | InvalidMoveProvided              (* 'Invalid move provided' *)
  | InvalidMove (move : string)      (* `Invalid move: ${move}` *)
  | GameNotInPlayingState            (* 'Game is not in playing state' *)
  | PlayerNotInThisGame              (* 'Player not in this game' *)
  | GameIsFull                       (* 'Game is full' *)
  | PlayerNotInAnyGame               (* 'Player not in any game' *)
  | GameNotFound                     (* 'Game not found' *)
  | PlayerIsNotInThisGame            (* 'Player is not in this game' *)
  | GameAlreadyFinished              (* 'Game already finished' *)
  | GameAlreadyInProgress            (* 'Game already in progress' *)
  | InsufficientPointsToJoin         (* 'Insufficient points. You need 100 points to join this game.' *)
  | InsufficientPoints               (* 'Insufficient points. You need 100 points to play.' *)
  | PointsGamesCost100               (* 'Points games must cost exactly 100 points' *)
  | SolStakeMustBePositive           (* 'SOL games must have a positive stake amount' *)
  | InvalidCurrency                  (* 'Invalid currency. Must be "points" or "sol"' *)
  | BothPlayersMustHaveMoves         (* 'Both players must have moves to process round' *)
  | FailedToEnterQueue.              (* 'Failed to enter matchmaking queue' *)

Inductive Outcome (A : Type) :=
  | Ok (a : A)
  | Throw (e : Error).
Arguments Ok {A} a.
Arguments Throw {A} e.

(** ** utils/constants.js *)

Definition VALID_MOVES : list string := ["rock"; "paper"; "scissors"].
Definition WINNING_SCORE : nat := 3.

(** [VALID_MOVES.includes(v)]: no string equals [null]. *)
Definition includes (l : list string) (v : option string) : bool :=
  match v with
  | Some s => bool_decide (s ∈ l)
  | None => false
  end.

(** ** game/gameLogic.js *)

Inductive RoundWinner := player1Wins | player2Wins | draw.

(** The object literal [winConditions], read by key. *)
Definition winConditions (k : string) : option string :=
  if bool_decide (k = "rock") then Some "scissors"
  else if bool_decide (k = "scissors") then Some "paper"
  else if bool_decide (k = "paper") then Some "rock"
  else None.

Definition determineWinner (move1 move2 : option string) : Outcome RoundWinner :=
  if negb (includes VALID_MOVES move1) || negb (includes VALID_MOVES move2) then
    Throw InvalidMoveProvided
  else if bool_decide (move1 = move2) then Ok draw
  else
    match move1 with
    | Some m1 =>
        if bool_decide (winConditions m1 = move2) then Ok player1Wins
        else Ok player2Wins
    | None => Ok player2Wins
    end.

Inductive GameStatus := waiting_for_player | playing | finished.

Global Instance GameStatus_eq_dec : EqDecision GameStatus.
Proof. solve_decision. Defined.

Global Instance RoundWinner_eq_dec : EqDecision RoundWinner.
Proof. solve_decision. Defined.

Record Player := mkPlayer {
  id : option string;
  socketId : option string;
  wallet : option string;
  wins : nat;
  currentMove : option string;
  ready : bool;
  stakeDeposited : bool
}.

Record RoundHistory := mkRoundHistory {
  round : nat;
  player1Move : option string;
  player2Move : option string;
  roundWinnerOf : RoundWinner;
  timestamp : Z
}.

(** The match object. The payout figures ([totalPot], [platformFee],
    [winnerPayout]) are floating-point amounts that no transition reads;
    they are left out. [processed], [completionProcessed] and
    [readyForCompletion] are the properties added to the object by the
    completion path; an absent property reads as [false]. *)
Record GameState := mkGameState {
  gameId : string;
  gameType : string;
  currency : string;
  stakeAmount : Q;
  player1 : Player;
  player2 : Player;
  currentRound : nat;
  gameStatus : GameStatus;
  winner : option string;
  moveHistory : list RoundHistory;
  createdAt : Z;
  processed : bool;
  completionProcessed : bool;
  readyForCompletion : bool
}.

Definition setPlayer1 (g : GameState) (p : Player) : GameState :=
  mkGameState (gameId g) (gameType g) (currency g) (stakeAmount g) p (player2 g)
    (currentRound g) (gameStatus g) (winner g) (moveHistory g) (createdAt g)
    (processed g) (completionProcessed g) (readyForCompletion g).

Definition setPlayer2 (g : GameState) (p : Player) : GameState :=
  mkGameState (gameId g) (gameType g) (currency g) (stakeAmount g) (player1 g) p
    (currentRound g) (gameStatus g) (winner g) (moveHistory g) (createdAt g)
    (processed g) (completionProcessed g) (readyForCompletion g).

Definition setCurrentRound (g : GameState) (r : nat) : GameState :=
  mkGameState (gameId g) (gameType g) (currency g) (stakeAmount g) (player1 g) (player2 g)
    r (gameStatus g) (winner g) (moveHistory g) (createdAt g)
    (processed g) (completionProcessed g) (readyForCompletion g).

Definition setGameStatus (g : GameState) (s : GameStatus) : GameState :=
  mkGameState (gameId g) (gameType g) (currency g) (stakeAmount g) (player1 g) (player2 g)
    (currentRound g) s (winner g) (moveHistory g) (createdAt g)
    (processed g) (completionProcessed g) (readyForCompletion g).

Definition setWinner (g : GameState) (w : option string) : GameState :=
  mkGameState (gameId g) (gameType g) (currency g) (stakeAmount g) (player1 g) (player2 g)
    (currentRound g) (gameStatus g) w (moveHistory g) (createdAt g)
    (processed g) (completionProcessed g) (readyForCompletion g).

Definition pushHistory (g : GameState) (h : RoundHistory) : GameState :=
  mkGameState (gameId g) (gameType g) (currency g) (stakeAmount g) (player1 g) (player2 g)
    (currentRound g) (gameStatus g) (winner g) (moveHistory g ++ [h]) (createdAt g)
    (processed g) (completionProcessed g) (readyForCompletion g).

Definition setProcessed (g : GameState) (b : bool) : GameState :=
  mkGameState (gameId g) (gameType g) (currency g) (stakeAmount g) (player1 g) (player2 g)
    (currentRound g) (gameStatus g) (winner g) (moveHistory g) (createdAt g)
    b (completionProcessed g) (readyForCompletion g).

Definition setCompletionProcessed (g : GameState) (b : bool) : GameState :=
  mkGameState (gameId g) (gameType g) (currency g) (stakeAmount g) (player1 g) (player2 g)
    (currentRound g) (gameStatus g) (winner g) (moveHistory g) (createdAt g)
    (processed g) b (readyForCompletion g).

Definition setReadyForCompletion (g : GameState) (b : bool) : GameState :=
  mkGameState (gameId g) (gameType g) (currency g) (stakeAmount g) (player1 g) (player2 g)
    (currentRound g) (gameStatus g) (winner g) (moveHistory g) (createdAt g)
    (processed g) (completionProcessed g) b.

Definition setId (p : Player) (v : option string) : Player :=
  mkPlayer v (socketId p) (wallet p) (wins p) (currentMove p) (ready p) (stakeDeposited p).
Definition setSocketId (p : Player) (v : option string) : Player :=
  mkPlayer (id p) v (wallet p) (wins p) (currentMove p) (ready p) (stakeDeposited p).
Definition setWallet (p : Player) (v : option string) : Player :=
  mkPlayer (id p) (socketId p) v (wins p) (currentMove p) (ready p) (stakeDeposited p).
Definition setWins (p : Player) (n : nat) : Player :=
  mkPlayer (id p) (socketId p) (wallet p) n (currentMove p) (ready p) (stakeDeposited p).
Definition setCurrentMove (p : Player) (v : option string) : Player :=
  mkPlayer (id p) (socketId p) (wallet p) (wins p) v (ready p) (stakeDeposited p).
Definition setReady (p : Player) (b : bool) : Player :=
  mkPlayer (id p) (socketId p) (wallet p) (wins p) (currentMove p) b (stakeDeposited p).
Definition setStakeDeposited (p : Player) (b : bool) : Player :=
  mkPlayer (id p) (socketId p) (wallet p) (wins p) (currentMove p) (ready p) b.

(** The empty slot of [createGameState]. *)
Definition emptyPlayer : Player := mkPlayer None None None 0 None false false.

(** [createGameState(gameId, gameType, stakeAmount, currency)], with the
    clock reading [now] for [createdAt]. *)
Definition createGameState (gid gtype : string) (stake : Q) (cur : string) (now : Z)
  : GameState :=
  mkGameState gid gtype cur stake emptyPlayer emptyPlayer 1 waiting_for_player
    None [] now false false false.

(** Which slot won the match, as reported in a round result. *)
Inductive Slot := slot1 | slot2.

Record RoundResult := mkRoundResult {
  rrRound : nat;
  rrMove1 : option string;
  rrMove2 : option string;
  roundWinner : RoundWinner;
  gameWinner : option Slot;
  score1 : nat;
  score2 : nat;
  gameFinished : bool
}.

(** What [processMove] and [processRound] return next to the match. *)
Record MoveReturn := mkMoveReturn {
  roundComplete : bool;
  roundResult : option RoundResult
}.

Definition processRound (gameState : GameState) (now : Z)
  : GameState * Outcome MoveReturn :=
  let move1 := currentMove (player1 gameState) in
  let move2 := currentMove (player2 gameState) in
  match determineWinner move1 move2 with
  | Throw e => (gameState, Throw e)
  | Ok rw =>
      let roundHistory := mkRoundHistory (currentRound gameState) move1 move2 rw now in
      let g1 := pushHistory gameState roundHistory in
      let g2 :=
        match rw with
        | player1Wins => setPlayer1 g1 (setWins (player1 g1) (S (wins (player1 g1))))
        | player2Wins => setPlayer2 g1 (setWins (player2 g1) (S (wins (player2 g1))))
        | draw => g1
        end in
      let '(g3, gw) :=
        if WINNING_SCORE <=? wins (player1 g2) then
          (setWinner (setGameStatus g2 finished) (id (player1 g2)), Some slot1)
        else if WINNING_SCORE <=? wins (player2 g2) then
          (setWinner (setGameStatus g2 finished) (id (player2 g2)), Some slot2)
        else (g2, None) in
      (g3, Ok (mkMoveReturn true
                 (Some (mkRoundResult (round roundHistory) move1 move2 rw gw
                          (wins (player1 g3)) (wins (player2 g3))
                          (bool_decide (gameStatus g3 = finished))))))
  end.

Definition processMove (gameState : GameState) (playerId move : string) (now : Z)
  : GameState * Outcome MoveReturn :=
  if negb (includes VALID_MOVES (Some move)) then (gameState, Throw (InvalidMove move))
  else if negb (bool_decide (gameStatus gameState = playing)) then
    (gameState, Throw GameNotInPlayingState)
  else
    let isPlayer1 := bool_decide (id (player1 gameState) = Some playerId) in
    let isPlayer2 := bool_decide (id (player2 gameState) = Some playerId) in
    if negb isPlayer1 && negb isPlayer2 then (gameState, Throw PlayerNotInThisGame)
    else
      let g1 :=
        if isPlayer1 then
          setPlayer1 gameState (setCurrentMove (player1 gameState) (Some move))
        else
          setPlayer2 gameState (setCurrentMove (player2 gameState) (Some move)) in
      if truthy (currentMove (player1 g1)) && truthy (currentMove (player2 g1)) then
        processRound g1 now
      else (g1, Ok (mkMoveReturn false None)).

Definition addPlayer (gameState : GameState) (playerId : string)
    (sock walletAddress : option string) : GameState * Outcome Slot :=
  if bool_decide (id (player1 gameState) = Some playerId) then
    let p := setSocketId (player1 gameState) sock in
    let p := if truthy walletAddress then setWallet p walletAddress else p in
    let p := setReady (setCurrentMove p None) false in
    (setPlayer1 gameState p, Ok slot1)
  else if bool_decide (id (player2 gameState) = Some playerId) then
    let p := setSocketId (player2 gameState) sock in
    let p := if truthy walletAddress then setWallet p walletAddress else p in
    let p := setReady (setCurrentMove p None) false in
    let g1 := setPlayer2 gameState p in
    let g2 :=
      if truthy (id (player1 g1)) && truthy (id (player2 g1))
         && bool_decide (gameStatus g1 = waiting_for_player)
      then setCurrentRound (setGameStatus g1 playing) 1
      else g1 in
    (g2, Ok slot2)
  else if bool_decide (id (player1 gameState) = None) then
    let p := setWallet (setSocketId (setId (player1 gameState) (Some playerId)) sock)
               walletAddress in
    (setPlayer1 gameState p, Ok slot1)
  else if bool_decide (id (player2 gameState) = None) then
    let p := setWallet (setSocketId (setId (player2 gameState) (Some playerId)) sock)
               walletAddress in
    (setCurrentRound (setGameStatus (setPlayer2 gameState p) playing) 1, Ok slot2)
  else (gameState, Throw GameIsFull).

(** ** A [Map] with string keys, in insertion order *)

Section OrderedMap.
Context {V : Type}.

Fixpoint mapGet (k : string) (m : list (string * V)) : option V :=
  match m with
  | [] => None
  | (k', v) :: m' => if bool_decide (k' = k) then Some v else mapGet k m'
  end.

(** [set] keeps the position of a key that is already present. *)
Fixpoint mapSet (k : string) (v : V) (m : list (string * V)) : list (string * V) :=
  match m with
  | [] => [(k, v)]
  | (k', v') :: m' =>
      if bool_decide (k' = k) then (k, v) :: m' else (k', v') :: mapSet k v m'
  end.

Definition mapDelete (k : string) (m : list (string * V)) : list (string * V) :=
  filter (fun kv => fst kv <> k) m.
End OrderedMap.

(** ** game/gameManager.js *)

Record Ticket := mkTicket {
  ticketPlayerId : string;
  ticketSocketId : option string;
  ticketStakeAmount : Q;
  ticketCurrency : string;
  ticketWalletAddress : option string;
  queuedAt : Z
}.

Record GameManager := mkGameManager {
  games : list (string * GameState);      (* gameId -> gameState *)
  playerGames : gmap string string;       (* playerId -> gameId *)
  publicQueue : list Ticket
}.

Definition newGameManager : GameManager := mkGameManager [] ∅ [].

Definition withGames (gm : GameManager) (gs : list (string * GameState)) : GameManager :=
  mkGameManager gs (playerGames gm) (publicQueue gm).
Definition withPlayerGames (gm : GameManager) (pg : gmap string string) : GameManager :=
  mkGameManager (games gm) pg (publicQueue gm).
Definition withPublicQueue (gm : GameManager) (q : list Ticket) : GameManager :=
  mkGameManager (games gm) (playerGames gm) q.

(** [this.games.set(gameId, gameState)]; also the write-back of an object
    that was mutated in place. *)
Definition setGame (gm : GameManager) (gid : string) (g : GameState) : GameManager :=
  withGames gm (mapSet gid g (games gm)).

(** What the registry operations return on success. [resGameStarted] is
    absent from the result of [createGame]. *)
Record GameResult := mkGameResult {
  resGameId : string;
  resGameState : GameState;
  resPlayerPosition : option Slot;
  resGameStarted : option bool;
  resInQueue : bool
}.

Record SubmitResult := mkSubmitResult {
  subGameId : string;
  subGameState : GameState;
  subRoundComplete : bool;
  subRoundResult : option RoundResult
}.

Fixpoint removeDashes (s : string) : string :=
  match s with
  | EmptyString => EmptyString
  | String c s' =>
      if bool_decide (c = "-"%char) then removeDashes s' else String c (removeDashes s')
  end.

Definition getGame (gm : GameManager) (gid : string) : option GameState :=
  mapGet gid (games gm).

Definition getPlayerGame (gm : GameManager) (playerId : string) : option GameState :=
  let gid := playerGames gm !! playerId in
  match gid with
  | Some k => if truthy gid then getGame gm k else None
  | None => None
  end.

(** [createGame]. [uuid] is the identifier [uuidv4()] would return;
    [hasEnoughPoints] answers for the profile store. *)
Definition createGame (hasEnoughPoints : string -> Q -> bool) (gm : GameManager)
    (gtype : string) (stake : Q) (cur : string)
    (creatorId sock walletAddress providedGameId : option string)
    (uuid : string) (now : Z) : GameManager * Outcome GameResult :=
  let check :=
    if bool_decide (cur = "points") then
      if negb (Qeq_bool stake (Qmake 100 1)) then Some PointsGamesCost100
      else match walletAddress with
           | Some w =>
               if truthy walletAddress && negb (hasEnoughPoints w (Qmake 100 1))
               then Some InsufficientPoints else None
           | None => None
           end
    else if bool_decide (cur = "sol") then
      if Qle_bool stake (Qmake 0 1) then Some SolStakeMustBePositive else None
    else Some InvalidCurrency in
  match check with
  | Some e => (gm, Throw e)
  | None =>
      let gid0 := match providedGameId with
                  | Some s => if truthy providedGameId then s else uuid
                  | None => uuid
                  end in
      let gid := if bool_decide (cur = "sol") && (32 <? String.length gid0)
                 then substring 0 32 (removeDashes gid0) else gid0 in
      let gameState := createGameState gid gtype stake cur now in
      match creatorId with
      | Some creator =>
          if truthy creatorId && truthy sock then
            let gm1 := withPlayerGames gm (delete creator (playerGames gm)) in
            match addPlayer gameState creator sock walletAddress with
            | (updatedState, Ok playerPosition) =>
                let updatedState :=
                  if bool_decide (cur = "sol") then
                    setPlayer1 updatedState (setStakeDeposited (player1 updatedState) true)
                  else updatedState in
                let gm2 := setGame gm1 gid updatedState in
                let gm3 := withPlayerGames gm2 (<[creator := gid]> (playerGames gm2)) in
                (gm3, Ok (mkGameResult gid updatedState (Some playerPosition) None false))
            | (_, Throw e) => (gm1, Throw e)
            end
          else (setGame gm gid gameState, Ok (mkGameResult gid gameState None None false))
      | None => (setGame gm gid gameState, Ok (mkGameResult gid gameState None None false))
      end
  end.

Definition joinGame (hasEnoughPoints : string -> Q -> bool) (gm : GameManager)
    (gid playerId : string) (sock walletAddress : option string)
  : GameManager * Outcome GameResult :=
  match getGame gm gid with
  | None => (gm, Throw GameNotFound)
  | Some gameState =>
      if bool_decide (gameStatus gameState = finished) then (gm, Throw GameAlreadyFinished)
      else if bool_decide (gameStatus gameState = playing) then
        (gm, Throw GameAlreadyInProgress)
      else
        let short :=
          match walletAddress with
          | Some w => bool_decide (currency gameState = "points") && truthy walletAddress
                      && negb (hasEnoughPoints w (Qmake 100 1))
          | None => false
          end in
        if short then (gm, Throw InsufficientPointsToJoin)
        else
          let gm1 :=
            match playerGames gm !! playerId with
            | Some oldGameId =>
                if bool_decide (oldGameId <> gid)
                then withPlayerGames gm (delete playerId (playerGames gm))
                else gm
            | None => gm
            end in
          match addPlayer gameState playerId sock walletAddress with
          | (_, Throw e) => (gm1, Throw e)
          | (updatedState, Ok playerPosition) =>
              let updatedState :=
                if bool_decide (currency gameState = "sol") then
                  setPlayer2 updatedState (setStakeDeposited (player2 updatedState) true)
                else updatedState in
              let gm2 := setGame gm1 gid updatedState in
              let gm3 := withPlayerGames gm2 (<[playerId := gid]> (playerGames gm2)) in
              let gm4 :=
                match id (player1 updatedState) with
                | Some p1 =>
                    if truthy (id (player1 updatedState))
                    then withPlayerGames gm3 (<[p1 := gid]> (playerGames gm3))
                    else gm3
                | None => gm3
                end in
              (gm4, Ok (mkGameResult gid updatedState (Some playerPosition)
                          (Some (bool_decide (gameStatus updatedState = playing))) false))
          end
  end.

(** The part of [removePlayer] that acts on the match object: the slot of
    the leaving player is replaced by an empty one, then the status is
    settled. (The stake refund requested from the profile store when a
    waiting match is left changes no state of the engine.) *)
Definition removePlayerFromGame (gameState : GameState) (playerId : string) : GameState :=
  let g1 :=
    if bool_decide (id (player1 gameState) = Some playerId) then
      setPlayer1 gameState emptyPlayer
    else if bool_decide (id (player2 gameState) = Some playerId) then
      setPlayer2 gameState emptyPlayer
    else gameState in
  if negb (truthy (id (player1 g1))) && negb (truthy (id (player2 g1))) then
    setGameStatus g1 finished
  else if bool_decide (gameStatus g1 = playing) then
    let remainingPlayer := jsOr (id (player1 g1)) (id (player2 g1)) in
    setWinner (setGameStatus g1 finished) remainingPlayer
  else g1.

(** [splice(findIndex(p => p.playerId === playerId), 1)]: the first ticket
    of the player is removed. *)
Fixpoint removeFirstTicket (playerId : string) (q : list Ticket) : list Ticket :=
  match q with
  | [] => []
  | t :: q' =>
      if bool_decide (ticketPlayerId t = playerId) then q'
      else t :: removeFirstTicket playerId q'
  end.

Definition removePlayer (gm : GameManager) (playerId : string)
  : GameManager * Outcome (string * GameState) :=
  let gm1 := withPublicQueue gm (removeFirstTicket playerId (publicQueue gm)) in
  let gameId := playerGames gm1 !! playerId in
  match gameId with
  | Some gid =>
      if negb (truthy gameId) then (gm1, Throw PlayerNotInAnyGame)
      else
        match getGame gm1 gid with
        | None => (gm1, Throw GameNotFound)
        | Some gameState =>
            let g' := removePlayerFromGame gameState playerId in
            let gm2 := withPlayerGames (setGame gm1 gid g') (delete playerId (playerGames gm1)) in
            (gm2, Ok (gid, g'))
        end
  | None => (gm1, Throw PlayerNotInAnyGame)
  end.

(** The test of the waiting-match search of [findRandomMatch]. *)
Definition waitingMatchFor (playerId : string) (stake : Q) (cur : string)
    (gameState : GameState) : bool :=
  bool_decide (gameType gameState = "public")
  && bool_decide (gameStatus gameState = waiting_for_player)
  && Qeq_bool (stakeAmount gameState) stake
  && bool_decide (currency gameState = cur)
  && negb (bool_decide (id (player1 gameState) = Some playerId)).

(** The test of the queue search of [findRandomMatch]. *)
Definition queuedMatchFor (playerId : string) (stake : Q) (cur : string) (p : Ticket)
  : bool :=
  negb (bool_decide (ticketPlayerId p = playerId))
  && Qeq_bool (ticketStakeAmount p) stake
  && bool_decide (ticketCurrency p = cur).

(** The last part of [findRandomMatch], reached when no match was made:
    any ticket of the player is dropped from the queue, a new ticket is
    pushed, and a placeholder match is created for the player. *)
Definition enterQueue (hasEnoughPoints : string -> Q -> bool) (gm : GameManager)
    (playerId : string) (sock : option string) (stake : Q) (cur : string)
    (walletAddress : option string) (uuid : string) (now : Z)
  : GameManager * Outcome GameResult :=
  let q := filter (fun p => ticketPlayerId p <> playerId) (publicQueue gm) in
  let gm1 := withPublicQueue gm (q ++ [mkTicket playerId sock stake cur walletAddress now]) in
  match createGame hasEnoughPoints gm1 "public" stake cur (Some playerId) sock
          walletAddress None uuid now with
  | (gm2, Ok r) =>
      (gm2, Ok (mkGameResult (resGameId r) (resGameState r) (resPlayerPosition r)
                  (Some false) true))
  | (gm2, Throw _) => (gm2, Throw FailedToEnterQueue)
  end.

(** [findRandomMatch]. [uuid1] and [uuid2] are the identifiers drawn for
    the match made with a queued player and for the placeholder match. *)
Definition findRandomMatch (hasEnoughPoints : string -> Q -> bool) (gm : GameManager)
    (playerId : string) (sock : option string) (stake : Q) (cur : string)
    (walletAddress : option string) (uuid1 uuid2 : string) (now : Z)
  : GameManager * Outcome GameResult :=
  let gm0 :=
    match playerGames gm !! playerId with
    | Some existingGameId =>
        match getGame gm existingGameId with
        | Some existingGame =>
            if negb (bool_decide (gameStatus existingGame = finished))
            then fst (removePlayer gm playerId) else gm
        | None => gm
        end
    | None => gm
    end in
  let '(stake, cur) :=
    if bool_decide (cur = "points") then
      match walletAddress with
      | Some w =>
          if truthy walletAddress && negb (hasEnoughPoints w (Qmake 100 1))
          then (Qmake 1 100, "sol") else (Qmake 100 1, cur)
      | None => (Qmake 100 1, cur)
      end
    else (stake, cur) in
  match List.find (fun kv => waitingMatchFor playerId stake cur (snd kv)) (games gm0) with
  | Some (gid, _) => joinGame hasEnoughPoints gm0 gid playerId sock walletAddress
  | None =>
      match List.find (queuedMatchFor playerId stake cur) (publicQueue gm0) with
      | Some queuedPlayer =>
          let gm1 := withPublicQueue gm0
                       (filter (fun p => ticketPlayerId p <> ticketPlayerId queuedPlayer)
                          (publicQueue gm0)) in
          match createGame hasEnoughPoints gm1 "public" stake cur
                  (Some (ticketPlayerId queuedPlayer)) (ticketSocketId queuedPlayer)
                  (ticketWalletAddress queuedPlayer) None uuid1 now with
          | (gm2, Ok gameResult) =>
              match joinGame hasEnoughPoints gm2 (resGameId gameResult) playerId sock
                      walletAddress with
              | (gm3, Ok joinResult) =>
                  (gm3, Ok (mkGameResult (resGameId joinResult) (resGameState joinResult)
                              (resPlayerPosition joinResult) (Some true) false))
              | (gm3, Throw _) =>
                  enterQueue hasEnoughPoints gm3 playerId sock stake cur walletAddress
                    uuid2 now
              end
          | (gm2, Throw _) =>
              enterQueue hasEnoughPoints gm2 playerId sock stake cur walletAddress
                uuid2 now
          end
      | None =>
          enterQueue hasEnoughPoints gm0 playerId sock stake cur walletAddress uuid2 now
      end
  end.

(** Whether the player occupies a slot of the match. *)
Definition occupies (gameState : GameState) (playerId : string) : bool :=
  bool_decide (id (player1 gameState) = Some playerId)
  || bool_decide (id (player2 gameState) = Some playerId).

(** The lookup at the head of [submitMove]: the player-to-match map, then,
    when it has no entry, the scan of the stored matches, newest first.
    Returns the registry with the repaired map and the match id found. *)
Definition submitMoveLookup (gm : GameManager) (playerId : string)
    (requestedGameId : option string) : GameManager * option string :=
  let restore (g : GameManager) (gid : string) :=
    withPlayerGames g (<[playerId := gid]> (playerGames g)) in
  let gameId := playerGames gm !! playerId in
  if truthy gameId then (gm, gameId)
  else
    (* Priority 1: the requested game *)
    let '(gm1, gameId) :=
      match requestedGameId with
      | Some r =>
          if truthy requestedGameId then
            match getGame gm r with
            | Some requestedGame =>
                if occupies requestedGame playerId
                   && bool_decide (gameStatus requestedGame = playing)
                then (restore gm r, Some r) else (gm, gameId)
            | None => (gm, gameId)
            end
          else (gm, gameId)
      | None => (gm, gameId)
      end in
    (* Priority 2: active games *)
    let '(gm2, gameId) :=
      if negb (truthy gameId) then
        match List.find (fun kv => occupies (snd kv) playerId
                                   && bool_decide (gameStatus (snd kv) = playing))
                (rev (games gm1)) with
        | Some (gId, _) => (restore gm1 gId, Some gId)
        | None => (gm1, gameId)
        end
      else (gm1, gameId) in
    (* Priority 3: any game *)
    if negb (truthy gameId) then
      match List.find (fun kv => occupies (snd kv) playerId) (rev (games gm2)) with
      | Some (gId, _) => (restore gm2 gId, Some gId)
      | None => (gm2, gameId)
      end
    else (gm2, gameId).

(** [submitMove]. When [processMove] throws, the match object keeps what
    was written to it before the throw. ([completionData], a copy of the
    round result that nothing reads, is not kept.) *)
Definition submitMove (gm : GameManager) (playerId move : string)
    (requestedGameId : option string) (now : Z) : GameManager * Outcome SubmitResult :=
  let '(gm1, gameId) := submitMoveLookup gm playerId requestedGameId in
  match gameId with
  | Some gid =>
      if negb (truthy gameId) then (gm1, Throw PlayerNotInAnyGame)
      else
        match getGame gm1 gid with
        | None => (gm1, Throw GameNotFound)
        | Some gameState =>
            if negb (occupies gameState playerId) then (gm1, Throw PlayerIsNotInThisGame)
            else
              match processMove gameState playerId move now with
              | (updatedState, Ok r) =>
                  let updatedState :=
                    match roundResult r with
                    | Some rr => if gameFinished rr
                                 then setReadyForCompletion updatedState true
                                 else updatedState
                    | None => updatedState
                    end in
                  (setGame gm1 gid updatedState,
                   Ok (mkSubmitResult gid updatedState (roundComplete r) (roundResult r)))
              | (updatedState, Throw e) => (setGame gm1 gid updatedState, Throw e)
              end
        end
  | None => (gm1, Throw PlayerNotInAnyGame)
  end.

(** [cleanupOldGames(maxAge)] at clock reading [now]; ages and [maxAge]
    are in milliseconds. Returns the registry and the number removed. *)
Definition isOldFinished (now maxAge : Z) (gameState : GameState) : bool :=
  bool_decide (gameStatus gameState = finished)
  && (maxAge <? now - createdAt gameState)%Z.

Definition forgetOccupants (gameState : GameState) (pg : gmap string string)
  : gmap string string :=
  let pg1 := match id (player1 gameState) with
             | Some p => if truthy (id (player1 gameState)) then delete p pg else pg
             | None => pg
             end in
  match id (player2 gameState) with
  | Some p => if truthy (id (player2 gameState)) then delete p pg1 else pg1
  | None => pg1
  end.

Definition cleanupOldGames (gm : GameManager) (maxAge now : Z) : GameManager * nat :=
  let '(gamesToRemove, pg) :=
    foldl (fun acc kv =>
             if isOldFinished now maxAge (snd kv)
             then ((fst acc ++ [fst kv])%list, forgetOccupants (snd kv) (snd acc))
             else acc)
          ([], playerGames gm) (games gm) in
  let gs := foldl (fun m gid => mapDelete gid m) (games gm) gamesToRemove in
  (mkGameManager gs pg (publicQueue gm), length gamesToRemove).

Definition processRoundDirectly (gm : GameManager) (gid : string) (now : Z)
  : GameManager * Outcome SubmitResult :=
  match getGame gm gid with
  | None => (gm, Throw GameNotFound)
  | Some gameState =>
      if negb (truthy (currentMove (player1 gameState)))
         || negb (truthy (currentMove (player2 gameState)))
      then (gm, Throw BothPlayersMustHaveMoves)
      else
        match processRound gameState now with
        | (updatedState, Ok r) =>
            (setGame gm gid updatedState,
             Ok (mkSubmitResult gid updatedState (roundComplete r) (roundResult r)))
        | (updatedState, Throw e) => (setGame gm gid updatedState, Throw e)
        end
  end.

(** ** Socket handlers *)

(** Work handed to [setTimeout]. *)
Inductive Deferred :=
  | ForfeitCheck (playerId : string) (game : GameState)
      (* the reconnection check of the disconnect handler *)
  | CleanupFinished
      (* [gameManager.cleanupOldGames(0)] *)
.

(** What a handler sends out: messages to the room, calls to the
    settlement collaborators, and deferred work. *)
Inductive Effect :=
  | EmitCountdown (gid : string) (countdown : Z)
  | EmitMoveSubmitted (gid : string) (playerId move : option string)
  | EmitRoundCompleted (gid : string) (r : option RoundResult)
  | EmitNextRound (gid : string) (r : nat)
  | EmitGameFinished (gid : string) (winnerId : option string)
  | EmitPlayerDisconnected (playerId : string)
  | EmitError (e : Error)
  | PointsSettlement (gid : string) (player1Wallet player2Wallet winnerWallet : option string)
      (* [databaseService.processPointsGame] *)
  | SolSettlement (gid : string) (winnerWallet loserWallet : option string) (stake : Q)
      (* [autoFinalizationService.autoFinalizeSolGame] *)
  | SetTimeout (d : Deferred) (delayMs : Z).

Definition isSettlement (e : Effect) : bool :=
  match e with
  | PointsSettlement _ _ _ _ | SolSettlement _ _ _ _ => true
  | _ => false
  end.

(** [processGameCompletion], up to the call of the settlement
    collaborator; the statistics and history writes that precede the call
    in the SOL branch are taken to succeed. *)
Definition processGameCompletion (gameState : GameState) (gameWinnerSlot : Slot)
  : GameState * list Effect :=
  if completionProcessed gameState then (gameState, [])
  else
    let g1 := setCompletionProcessed gameState true in
    let player1Wallet := wallet (player1 g1) in
    let player2Wallet := wallet (player2 g1) in
    let winnerWallet := match gameWinnerSlot with
                        | slot1 => player1Wallet
                        | slot2 => player2Wallet
                        end in
    if negb (truthy player1Wallet) || negb (truthy player2Wallet) then (g1, [])
    else if negb (truthy winnerWallet) then (g1, [])
    else if bool_decide (currency g1 = "points") then
      (g1, [PointsSettlement (gameId g1) player1Wallet player2Wallet winnerWallet])
    else if bool_decide (currency g1 = "sol") then
      let loserWallet := if bool_decide (winnerWallet = player1Wallet)
                         then player2Wallet else player1Wallet in
      (g1, [SolSettlement (gameId g1) winnerWallet loserWallet (stakeAmount g1)])
    else (g1, []).

(** The part of [handleGameFinished] that acts on the match object and on
    the settlement collaborators. *)
Definition handleGameFinishedOn (gameState : GameState) : GameState * list Effect :=
  if truthy (winner gameState) && negb (processed gameState) then
    let gw := if bool_decide (winner gameState = id (player1 gameState))
              then slot1 else slot2 in
    processGameCompletion (setProcessed gameState true) gw
  else (gameState, []).

(** The part of [startNextRound] that acts on the match object. *)
Definition startNextRoundOn (gameState : GameState) : GameState :=
  if negb (bool_decide (gameStatus gameState = playing)) then gameState
  else
    let g1 := setCurrentRound gameState (S (currentRound gameState)) in
    let g2 := setPlayer1 g1 (setCurrentMove (player1 g1) None) in
    let g3 := setPlayer2 g2 (setCurrentMove (player2 g2) None) in
    let g4 := setPlayer1 g3 (setReady (player1 g3) false) in
    setPlayer2 g4 (setReady (player2 g4) false).

(** The random draws of one expiry: the outcome of the shuffle of
    [moves], and the two indices [Math.floor(Math.random() * 3)]. *)
Record Draws := mkDraws {
  shuffledMoves : list string;
  pick1 : nat;
  pick2 : nat
}.

Definition moves : list string := ["rock"; "paper"; "scissors"].

Definition needsMove (p : Player) : bool :=
  negb (truthy (currentMove p)) && truthy (id p).

(** The assignments of [handleTimeUp]; returns the match and
    [autoAssignedMoves]. *)
Definition autoAssign (gameState : GameState) (d : Draws)
  : GameState * list (option string * option string) :=
  let needs1 := needsMove (player1 gameState) in
  let needs2 := needsMove (player2 gameState) in
  if needs1 && needs2 then
    let player1Move := shuffledMoves d !! 0 in
    let player2Move := shuffledMoves d !! 1 in
    let g1 := setPlayer1 gameState (setCurrentMove (player1 gameState) player1Move) in
    let g2 := setPlayer2 g1 (setCurrentMove (player2 g1) player2Move) in
    (g2, [(id (player1 g2), player1Move); (id (player2 g2), player2Move)])
  else
    let '(g1, a1) :=
      if needs1 then
        let randomMove := moves !! pick1 d in
        (setPlayer1 gameState (setCurrentMove (player1 gameState) randomMove),
         [(id (player1 gameState), randomMove)])
      else (gameState, []) in
    let '(g2, a2) :=
      if needs2 then
        let randomMove := moves !! pick2 d in
        (setPlayer2 g1 (setCurrentMove (player2 g1) randomMove),
         [(id (player2 g1), randomMove)])
      else (g1, []) in
    (g2, (a1 ++ a2)%list).

(** The marking done by the [leave_game] handler when a player quits an
    active match named in the message. *)
Definition leaveForfeitOn (gameState : GameState) (playerId : string) : GameState :=
  if bool_decide (gameStatus gameState = playing) then
    let opponent :=
      if bool_decide (id (player1 gameState) = Some playerId) then Some (player2 gameState)
      else if bool_decide (id (player2 gameState) = Some playerId)
           then Some (player1 gameState)
           else None in
    match opponent with
    | Some o =>
        if truthy (id o) then setGameStatus (setWinner gameState (id o)) finished
        else gameState
    | None => gameState
    end
  else gameState.

(** The module state of the socket handlers around the registry. A round
    timer is kept as the countdown it holds. *)
Record Server := mkServer {
  gameManager : GameManager;
  gameTimers : gmap string Z;          (* gameId -> countdown of the live timer *)
  playerSockets : gmap string string;  (* playerId -> socketId *)
  socketPlayers : gmap string string   (* socketId -> playerId *)
}.

Definition withManager (srv : Server) (gm : GameManager) : Server :=
  mkServer gm (gameTimers srv) (playerSockets srv) (socketPlayers srv).
Definition withTimers (srv : Server) (t : gmap string Z) : Server :=
  mkServer (gameManager srv) t (playerSockets srv) (socketPlayers srv).

(** [startRoundTimer]: any timer of the match is replaced. *)
Definition startRoundTimer (srv : Server) (gid : string) (duration : Z)
  : Server * list Effect :=
  (withTimers srv (<[gid := duration]> (gameTimers srv)), [EmitCountdown gid duration]).

Definition startNextRound (srv : Server) (gid : string) : Server * list Effect :=
  match getGame (gameManager srv) gid with
  | None => (srv, [])
  | Some gameState =>
      if negb (bool_decide (gameStatus gameState = playing)) then (srv, [])
      else
        let g' := startNextRoundOn gameState in
        let srv1 := withManager srv (setGame (gameManager srv) gid g') in
        let '(srv2, effs) := startRoundTimer srv1 gid 15 in
        (srv2, EmitNextRound gid (currentRound g') :: effs)
  end.

(** [handleGameFinished(gameId, gameState, io)], where [gameState] is the
    object stored under [gameId]. *)
Definition handleGameFinished (srv : Server) (gid : string) : Server * list Effect :=
  let srv1 := withTimers srv (delete gid (gameTimers srv)) in
  match getGame (gameManager srv1) gid with
  | None => (srv1, [])
  | Some gameState =>
      let '(g', effs) := handleGameFinishedOn gameState in
      let gm1 := setGame (gameManager srv1) gid g' in
      let gm2 := withPlayerGames gm1 (forgetOccupants g' (playerGames gm1)) in
      (withManager srv1 gm2,
       (effs ++ [EmitGameFinished gid (winner g'); SetTimeout CleanupFinished 30000])%list)
  end.

Definition handleTimeUp (srv : Server) (gid : string) (d : Draws) (now : Z)
  : Server * list Effect :=
  match getGame (gameManager srv) gid with
  | None => (srv, [])
  | Some gameState =>
      let '(g1, autoAssignedMoves) := autoAssign gameState d in
      let srv1 := withManager srv (setGame (gameManager srv) gid g1) in
      if (0 <? length autoAssignedMoves)
         && truthy (currentMove (player1 g1)) && truthy (currentMove (player2 g1))
      then
        let submitted := map (fun a => EmitMoveSubmitted gid (fst a) (snd a))
                           autoAssignedMoves in
        match processRoundDirectly (gameManager srv1) gid now with
        | (gm2, Ok result) =>
            let srv2 := withManager srv1 gm2 in
            if subRoundComplete result then
              if match subRoundResult result with
                 | Some rr => gameFinished rr
                 | None => false
                 end
              then
                let '(srv3, effs) := handleGameFinished srv2 gid in
                (srv3, (submitted ++ effs)%list)
              else
                let '(srv3, effs) := startNextRound srv2 gid in
                (srv3, (submitted ++ EmitRoundCompleted gid (subRoundResult result) :: effs)%list)
            else (srv2, submitted)
        | (gm2, Throw _) => (withManager srv1 gm2, submitted)
        end
      else (srv1, [])
  end.

(** One firing of the interval callback installed by [startRoundTimer]. *)
Definition roundTimerTick (srv : Server) (gid : string) (d : Draws) (now : Z)
  : Server * list Effect :=
  match gameTimers srv !! gid with
  | None => (srv, [])
  | Some c =>
      let countdown := (c - 1)%Z in
      let stopped := withTimers srv (delete gid (gameTimers srv)) in
      match getGame (gameManager srv) gid with
      | None => (stopped, [])
      | Some currentGameState =>
          if bool_decide (gameStatus currentGameState = finished) then (stopped, [])
          else if (countdown <=? 0)%Z then
            let '(srv1, effs) := handleTimeUp stopped gid d now in
            (srv1, EmitCountdown gid countdown :: effs)
          else
            (withTimers srv (<[gid := countdown]> (gameTimers srv)),
             [EmitCountdown gid countdown])
      end
  end.

(** The [submit_move] handler of a socket; [currentPlayerId] is the
    identity remembered for the connection. *)
Definition onSubmitMove (srv : Server) (socketIdOfSocket : string)
    (currentPlayerId : option string) (move : string)
    (dataPlayerId dataGameId : option string) (now : Z) : Server * list Effect :=
  let currentPlayerIdForMove :=
    match jsOr dataPlayerId (jsOr currentPlayerId (Some socketIdOfSocket)) with
    | Some p => p
    | None => socketIdOfSocket
    end in
  match submitMove (gameManager srv) currentPlayerIdForMove move dataGameId now with
  | (gm1, Throw e) => (withManager srv gm1, [EmitError e])
  | (gm1, Ok result) =>
      let srv1 := withManager srv gm1 in
      let gid := subGameId result in
      let submitted := EmitMoveSubmitted gid (Some currentPlayerIdForMove) (Some move) in
      if subRoundComplete result then
        let srv2 := withTimers srv1 (delete gid (gameTimers srv1)) in
        if match subRoundResult result with
           | Some rr => gameFinished rr
           | None => false
           end
        then
          let '(srv3, effs) := handleGameFinished srv2 gid in
          (srv3, submitted :: effs)
        else
          let '(srv3, effs) := startNextRound srv2 gid in
          (srv3, submitted :: EmitRoundCompleted gid (subRoundResult result) :: effs)
      else (srv1, [submitted])
  end.

(** The argument of a [Map] lookup: a string, or an object. *)
Inductive MapKey :=
  | KeyString (s : string)
  | KeyObject (g : GameState).

(** [gameManager.getGame(key)]. The keys of [games] are identifiers, and
    a [Map] compares keys by identity: an object given as key finds
    nothing. *)
Definition getGameByKey (gm : GameManager) (key : MapKey) : option GameState :=
  match key with
  | KeyString s => getGame gm s
  | KeyObject _ => None
  end.

(** The [disconnect] handler of the socket [socketIdOfSocket]. The value
    it names [gameId] is what [getPlayerGame] returns, the match object. *)
Definition onDisconnect (srv : Server) (socketIdOfSocket : string)
  : Server * list Effect :=
  match socketPlayers srv !! socketIdOfSocket with
  | Some playerId =>
      if truthy (Some playerId) then
        let gameId := getPlayerGame (gameManager srv) playerId in
        let effs :=
          match gameId with
          | Some obj =>
              match getGameByKey (gameManager srv) (KeyObject obj) with
              | Some game =>
                  EmitPlayerDisconnected playerId ::
                  (if bool_decide (gameStatus game = playing)
                   then [SetTimeout (ForfeitCheck playerId game) 5000] else [])
              | None => []
              end
          | None => []
          end in
        (mkServer (gameManager srv) (gameTimers srv)
           (delete playerId (playerSockets srv))
           (delete socketIdOfSocket (socketPlayers srv)), effs)
      else (srv, [])
  | None => (srv, [])
  end.

(** The deferred check of the disconnect handler, were it ever scheduled:
    it announces the opponent and then calls [gameManager.removeGame],
    which the registry does not define. *)
Inductive ForfeitOutcome := ForfeitSkipped | RemoveGameIsNotAFunction.

Definition forfeitCheck (srv : Server) (playerId : string) (game : GameState)
  : Server * list Effect * ForfeitOutcome :=
  if negb (bool_decide (is_Some (playerSockets srv !! playerId))) then
    let winnerId := if bool_decide (id (player1 game) = Some playerId)
                    then id (player2 game) else id (player1 game) in
    (srv, [EmitGameFinished (gameId game) winnerId], RemoveGameIsNotAFunction)
  else (srv, [], ForfeitSkipped).

(** ** The life of one match object

    Every way in which the engine writes to a match object, as a labelled
    step; the label is what the step sends to the settlement
    collaborators. *)
Inductive matchStep (g : GameState) : list Effect -> GameState -> Prop :=
  | stepAddPlayer playerId sock w :
      matchStep g [] (fst (addPlayer g playerId sock w))
  | stepStakeDeposited1 :
      matchStep g [] (setPlayer1 g (setStakeDeposited (player1 g) true))
  | stepStakeDeposited2 :
      matchStep g [] (setPlayer2 g (setStakeDeposited (player2 g) true))
  | stepProcessMove playerId move now :
      matchStep g [] (fst (processMove g playerId move now))
  | stepReadyForCompletion :
      matchStep g [] (setReadyForCompletion g true)
  | stepProcessRound now :
      matchStep g [] (fst (processRound g now))
  | stepStartNextRound :
      matchStep g [] (startNextRoundOn g)
  | stepAutoAssign d :
      matchStep g [] (fst (autoAssign g d))
  | stepRemovePlayer playerId :
      matchStep g [] (removePlayerFromGame g playerId)
  | stepLeaveForfeit playerId :
      matchStep g [] (leaveForfeitOn g playerId)
  | stepGameFinished :
      matchStep g (snd (handleGameFinishedOn g)) (fst (handleGameFinishedOn g)).

(** A run of steps, with everything sent along the way. *)
Inductive matchRun : GameState -> list Effect -> GameState -> Prop :=
  | runNil g : matchRun g [] g
  | runStep g1 e1 g2 e2 g3 :
      matchStep g1 e1 g2 -> matchRun g2 e2 g3 -> matchRun g1 (e1 ++ e2) g3.

(** ** Well-formed matches *)

Definition validMove (v : option string) : Prop :=
  v = Some "rock" \/ v = Some "paper" \/ v = Some "scissors".





(** The three winning pairs for the first argument. *)
Definition beats (m1 m2 : option string) : Prop :=
  (m1 = Some "rock" /\ m2 = Some "scissors") \/
  (m1 = Some "scissors" /\ m2 = Some "paper") \/
  (m1 = Some "paper" /\ m2 = Some "rock").

(** What one call of [processRound] does to a match whose two moves are
    valid. *)
Definition roundEffect (g : GameState) (now : Z) (rw : RoundWinner) (g' : GameState)
  : Prop :=
  moveHistory g' =
    moveHistory g ++ [mkRoundHistory (currentRound g) (currentMove (player1 g))
                        (currentMove (player2 g)) rw now] /\
  currentRound g' = currentRound g /\
  wins (player1 g') = wins (player1 g) + (if bool_decide (rw = player1Wins) then 1 else 0) /\
  wins (player2 g') = wins (player2 g) + (if bool_decide (rw = player2Wins) then 1 else 0) /\
  currentMove (player1 g') = currentMove (player1 g) /\
  currentMove (player2 g') = currentMove (player2 g) /\
  id (player1 g') = id (player1 g) /\ id (player2 g') = id (player2 g) /\
  processed g' = processed g /\ completionProcessed g' = completionProcessed g /\
  (WINNING_SCORE <= wins (player1 g') ->
     gameStatus g' = finished /\ winner g' = id (player1 g)) /\
  (wins (player1 g') < WINNING_SCORE -> WINNING_SCORE <= wins (player2 g') ->
     gameStatus g' = finished /\ winner g' = id (player2 g)) /\
  (wins (player1 g') < WINNING_SCORE -> wins (player2 g') < WINNING_SCORE ->
     gameStatus g' = gameStatus g /\ winner g' = winner g).

(** The match after [processMove] has written the move into the slot of
    the player (slot 1 when the player holds both). *)
Definition recordMove (g : GameState) (playerId move : string) : GameState :=
  if bool_decide (id (player1 g) = Some playerId)
  then setPlayer1 g (setCurrentMove (player1 g) (Some move))
  else setPlayer2 g (setCurrentMove (player2 g) (Some move)).



(** ** Sample matches and registries *)

Definition noAnswer : string -> Q -> bool := fun _ _ => true.

(** A points match created by alice and joined by bob. *)
Definition aliceBob : GameState :=
  fst (addPlayer
         (fst (addPlayer (createGameState "m1" "public" (Qmake 100 1) "points" 0)
                 "alice" (Some "s1") (Some "walletA")))
         "bob" (Some "s2") (Some "walletB")).

(** The same match after [n] rounds of rock against scissors. *)
Fixpoint rockRounds (n : nat) (g : GameState) : GameState :=
  match n with
  | 0 => g
  | S n' =>
      let g1 := fst (processMove (rockRounds n' g) "alice" "rock" 0) in
      startNextRoundOn (fst (processMove g1 "bob" "scissors" 0))
  end.

(** The registry after alice has created the points match [m1] and bob
    has joined it. *)
Definition startedManager : GameManager :=
  fst (joinGame noAnswer
         (fst (createGame noAnswer newGameManager "public" (Qmake 100 1) "points"
                 (Some "alice") (Some "s1") (Some "walletA") None "m1" 0))
         "m1" "bob" (Some "s2") (Some "walletB")).

Definition startedServer : Server := mkServer startedManager ∅ ∅ ∅.

(** One round through the [submit_move] handler: alice plays rock, bob
    plays scissors. *)
Definition playRound (srv : Server) : Server :=
  fst (onSubmitMove
         (fst (onSubmitMove srv "s1" None "rock" (Some "alice") None 0))
         "s2" None "scissors" (Some "bob") None 0).

Definition finishedServer : Server := playRound (playRound (playRound startedServer)).



(** The two completion marks of a match are as before. *)
Definition marksKept (g g' : GameState) : Prop :=
  processed g' = processed g /\ completionProcessed g' = completionProcessed g.

(** A handler acts on the stored matches by runs of steps: the match
    stored under [target] by a run that sends [e], every other match by a
    run that sends nothing. *)
Definition runsOn (target : string) (gm gm' : GameManager) (e : list Effect) : Prop :=
  forall k g, getGame gm k = Some g ->
    exists g', getGame gm' k = Some g' /\
               matchRun g (if bool_decide (k = target) then e else []) g'.

(** The calls to the settlement collaborators among what a handler sent. *)
Definition settlements (l : list Effect) : list Effect := List.filter isSettlement l.

(** The server once alice and bob, connected on sockets [s1] and [s2],
    play the match [m1]. *)
Definition connectedServer : Server :=
  mkServer startedManager ∅
    (<["bob" := "s2"]> (<["alice" := "s1"]> ∅))
    (<["s2" := "bob"]> (<["s1" := "alice"]> ∅)).

(** The player occupies a slot of the match under a truthy identity. *)
Definition holdsSlot (g : GameState) (p : string) : Prop :=
  p <> "" /\ (id (player1 g) = Some p \/ id (player2 g) = Some p).

(** The registry holds one match per identifier, none under the empty
    identifier, and maps no player to the empty identifier. *)
Definition registryWf (gm : GameManager) : Prop :=
  NoDup (fst <$> games gm) /\
  (forall g, ("", g) ∉ games gm) /\
  (forall p k, playerGames gm !! p = Some k -> k <> "").





(** The player-to-match map after the sweep has met the matches [l]. *)
Definition forgetAll (now maxAge : Z) (l : list (string * GameState))
    (pg : gmap string string) : gmap string string :=
  foldl (fun acc kv => if isOldFinished now maxAge (snd kv)
                       then forgetOccupants (snd kv) acc else acc) pg l.

(** Some match of [l] the sweep removes has the player in a slot. *)
Definition sweptWith (now maxAge : Z) (l : list (string * GameState)) (p : string)
  : Prop :=
  exists k g, (k, g) ∈ l /\ isOldFinished now maxAge g = true /\ holdsSlot g p.

(** The registry thirty seconds after alice has won [m1]: she has since
    created the match [m2], and the sweep scheduled at the end of [m1] is
    about to run. *)
Definition sweepManager : GameManager :=
  fst (createGame noAnswer (gameManager finishedServer) "public" (Qmake 100 1) "points"
         (Some "alice") (Some "s1") (Some "walletA") None "m2" 20000).


(** A match whose two slots hold the same player. *)
Definition selfPaired (g : GameState) : Prop :=
  exists x, id (player1 g) = Some x /\ id (player2 g) = Some x.

(** No stored match pairs a player with itself. *)
Definition noSelfPairing (gm : GameManager) : Prop :=
  forall k g, getGame gm k = Some g -> ~ selfPaired g.

(** At most one ticket per player in the queue. *)
Definition oneTicketEach (gm : GameManager) : Prop :=
  NoDup (ticketPlayerId <$> publicQueue gm).

(** A registry where carol waits in the queue with her placeholder match
    [w1]. *)
Definition queuedManager : GameManager :=
  fst (findRandomMatch noAnswer newGameManager "carol" (Some "s3") (Qmake 100 1)
         "points" (Some "walletC") "q1" "w1" 0).

(** What every way out of [findRandomMatch] keeps, from the registry [gm]
    it started in: no match pairs a player with itself, the match handed
    back does not either, the queue has one ticket per player at most,
    and when the player was put in the queue, their new ticket is the
    last one and the only one of theirs. *)
Definition matchmakingKeeps (playerId : string) (sock : option string) (now : Z)
    (gm : GameManager) (out : GameManager * Outcome GameResult) : Prop :=
  (noSelfPairing gm ->
   noSelfPairing (fst out) /\
   forall r, snd out = Ok r -> ~ selfPaired (resGameState r)) /\
  (oneTicketEach gm -> oneTicketEach (fst out)) /\
  (forall r, snd out = Ok r -> resInQueue r = true ->
     exists q t,
       publicQueue (fst out) = q ++ [t] /\
       ticketPlayerId t = playerId /\ ticketSocketId t = sock /\ queuedAt t = now /\
       forall t', t' ∈ q -> ticketPlayerId t' <> playerId).

(** ** More of the registry, the routes and the handlers *)

(** [getStats()] *)
Record Stats := mkStats {
  totalGames : nat;
  activeGames : nat;
  waitingGames : nat;
  finishedGames : nat;
  totalPlayers : nat
}.

Definition getStats (gm : GameManager) : Stats :=
  let values := map snd (games gm) in
  mkStats (length (games gm))
    (length (List.filter (fun g => bool_decide (gameStatus g = playing)) values))
    (length (List.filter (fun g => bool_decide (gameStatus g = waiting_for_player)) values))
    (length (List.filter (fun g => bool_decide (gameStatus g = finished)) values))
    (size (playerGames gm)).

(** services/autoFinalizationService.js, [findGamePDA]: the seed derived
    from a match identifier, [gameId.replace(/-/g, '').substring(0, 32)]. *)
Definition truncatedGameId (gid : string) : string :=
  substring 0 32 (removeDashes gid).

(** The identifier [createGame] starts from: the one provided when it is
    truthy, a fresh one otherwise. *)
Definition requestedId (providedGameId : option string) (uuid : string) : string :=
  match providedGameId with
  | Some s => if truthy providedGameId then s else uuid
  | None => uuid
  end.

(** What [createGame] accepts, as its checks read. *)
Definition validRequest (hasEnoughPoints : string -> Q -> bool) (stake : Q) (cur : string)
    (walletAddress : option string) : Prop :=
  (cur = "points" /\ Qeq_bool stake (Qmake 100 1) = true /\
   forall w, walletAddress = Some w -> w <> "" -> hasEnoughPoints w (Qmake 100 1) = true) \/
  (cur = "sol" /\ Qle_bool stake (Qmake 0 1) = false).

(** *** routes/gameRoutes.js *)

(** The [playerId] field of a request body, compared with [!==] against a
    slot identity (a string or [null]): absent, [null], or a string. *)
Inductive BodyId :=
  | IdAbsent
  | IdNull
  | IdString (s : string).

Definition strictEq (slotId : option string) (b : BodyId) : bool :=
  match slotId, b with
  | None, IdNull => true
  | Some x, IdString y => bool_decide (x = y)
  | _, _ => false
  end.

Inductive DeleteReply :=
  | DeleteNotFound            (* 404 Game not found *)
  | DeleteOnlyCreator         (* 403 Only game creator can delete the game *)
  | DeleteInProgress          (* 400 Cannot delete game in progress *)
  | Deleted.                  (* Game deleted successfully *)

(** [DELETE /api/games/:gameId] *)
Definition deleteGame (gm : GameManager) (gid : string) (playerId : BodyId)
  : GameManager * DeleteReply :=
  match getGame gm gid with
  | None => (gm, DeleteNotFound)
  | Some gameState =>
      if negb (strictEq (id (player1 gameState)) playerId) then (gm, DeleteOnlyCreator)
      else if bool_decide (gameStatus gameState = playing) then (gm, DeleteInProgress)
      else
        (mkGameManager (mapDelete gid (games gm))
           (forgetOccupants gameState (playerGames gm)) (publicQueue gm),
         Deleted)
  end.

Inductive InviteReply :=
  | InviteRequired            (* 400 Invite code is required *)
  | InviteInvalid             (* 404 Invalid invite code *)
  | InviteFinished            (* 400 Game already finished *)
  | InviteInProgress          (* 400 Game already in progress *)
  | InviteValid (gid gtype : string) (stake : Q) (status : GameStatus) (created : Z).

(** [POST /api/games/validate-invite] *)
Definition validateInvite (gm : GameManager) (inviteCode : option string) : InviteReply :=
  match inviteCode with
  | Some code =>
      if negb (truthy inviteCode) then InviteRequired
      else
        match getGame gm code with
        | None => InviteInvalid
        | Some gameState =>
            if bool_decide (gameStatus gameState = finished) then InviteFinished
            else if bool_decide (gameStatus gameState = playing) then InviteInProgress
            else InviteValid (gameId gameState) (gameType gameState)
                   (stakeAmount gameState) (gameStatus gameState) (createdAt gameState)
        end
  | None => InviteRequired
  end.

(** *** The [leave_game] handler *)

Inductive LeaveEffect :=
  | AbandonmentCompletion (gid : string) (winnerSlot quittingSlot : Slot)
      (* [gameManager.processGameAbandonmentCompletion] *)
  | LeaveGameFinished (gid : string) (winnerId : option string)
  | LeaveStateUpdated (gid : string)
  | GameLeft (gid : string)
  | PlayerLeft (gid : string) (leftPlayerId : string)
  | LeaveError (e : Error).

(** The first part of the handler, taken when the message names a match:
    a quit during active play is a forfeit. *)
Definition leaveForfeit (srv : Server) (gid : string) (playerId : string)
  : Server * list LeaveEffect :=
  match getGame (gameManager srv) gid with
  | None => (srv, [])
  | Some gameState =>
      if bool_decide (gameStatus gameState = playing) then
        let opponent :=
          if bool_decide (id (player1 gameState) = Some playerId) then Some slot2
          else if bool_decide (id (player2 gameState) = Some playerId) then Some slot1
          else None in
        match opponent with
        | Some o =>
            let opp := match o with slot1 => player1 gameState | slot2 => player2 gameState end in
            if truthy (id opp) then
              let g' := setGameStatus (setWinner gameState (id opp)) finished in
              let quitting := if bool_decide (id (player1 g') = Some playerId)
                              then slot1 else slot2 in
              (mkServer (setGame (gameManager srv) gid g') (delete gid (gameTimers srv))
                 (playerSockets srv) (socketPlayers srv),
               [AbandonmentCompletion gid o quitting; LeaveGameFinished gid (id opp);
                LeaveStateUpdated gid])
            else (srv, [])
        | None => (srv, [])
        end
      else (srv, [])
  end.

Definition onLeaveGame (srv : Server) (socketIdOfSocket : string)
    (currentPlayerId dataGameId dataPlayerId : option string)
  : Server * list LeaveEffect :=
  let currentPlayerIdForLeave :=
    match jsOr dataPlayerId (jsOr currentPlayerId (Some socketIdOfSocket)) with
    | Some p => p
    | None => socketIdOfSocket
    end in
  let '(srv1, effs1) :=
    match dataGameId with
    | Some gid =>
        if truthy dataGameId then leaveForfeit srv gid currentPlayerIdForLeave
        else (srv, [])
    | None => (srv, [])
    end in
  match removePlayer (gameManager srv1) currentPlayerIdForLeave with
  | (gm2, Ok (gid, gameState)) =>
      (mkServer gm2 (delete gid (gameTimers srv1)) (playerSockets srv1) (socketPlayers srv1),
       (effs1 ++ GameLeft gid ::
          (if bool_decide (gameStatus gameState <> finished)
           then [PlayerLeft gid currentPlayerIdForLeave] else []))%list)
  | (gm2, Throw e) => (withManager srv1 gm2, (effs1 ++ [LeaveError e])%list)
  end.

(** *** The on-chain confirmations

    [onchainStatus] maps a match id to the two marks [player1] and
    [player2]. *)

Inductive OnchainEffect :=
  | TriggerPlayer2 (eventName : string) (toSocket : option string) (gid : string)
  | GameStarted (gid : string)
  | StartRoundTimerLater (gid : string) (duration delayMs : Z).

Definition checkAndStartGame (st : gmap string (bool * bool)) (gm : GameManager) (gid : string)
  : gmap string (bool * bool) * list OnchainEffect :=
  match st !! gid with
  | Some (true, true) =>
      match getGame gm gid with
      | None => (delete gid st, [])
      | Some game =>
          let actualGameId :=
            match jsOr (Some (gameId game)) (Some gid) with
            | Some k => k
            | None => gid
            end in
          (delete gid st,
           [GameStarted actualGameId; StartRoundTimerLater actualGameId 15 2000])
      end
  | _ => (st, [])
  end.

Definition handleOnchainGameCreated (st : gmap string (bool * bool)) (gm : GameManager)
    (dataGameId : option string) : gmap string (bool * bool) * list OnchainEffect :=
  match dataGameId with
  | Some gid =>
      if truthy dataGameId then
        match st !! gid with
        | Some (p1, p2) =>
            if negb p1 then
              let st1 := <[gid := (true, p2)]> st in
              let trigger :=
                match getGame gm gid with
                | Some gameState =>
                    if truthy (socketId (player2 gameState)) then
                      [TriggerPlayer2
                         (if bool_decide (gameType gameState = "private")
                          then "game_started_pre_tx" else "join_onchain_game")
                         (socketId (player2 gameState)) gid]
                    else []
                | None => []
                end in
              let '(st2, effs) := checkAndStartGame st1 gm gid in
              (st2, (trigger ++ effs)%list)
            else (st, [])
        | None => (st, [])
        end
      else (st, [])
  | None => (st, [])
  end.

Definition handleOnchainGameJoined (st : gmap string (bool * bool)) (gm : GameManager)
    (dataGameId : option string) : gmap string (bool * bool) * list OnchainEffect :=
  match dataGameId with
  | Some gid =>
      if truthy dataGameId then
        match st !! gid with
        | Some (p1, p2) =>
            if negb p2 then checkAndStartGame (<[gid := (p1, true)]> st) gm gid
            else (st, [])
        | None => (st, [])
        end
      else (st, [])
  | None => (st, [])
  end.

(** *** [simpleHash]

    A string is the list of its UTF-16 code units. *)

(** A number as a signed 32-bit integer, as the bitwise operators take
    their operands. *)
Definition toInt32 (z : Z) : Z := ((z + 2 ^ 31) mod 2 ^ 32 - 2 ^ 31)%Z.

(** One turn of the loop: [hash = ((hash << 5) - hash) + char], then
    [hash = hash & hash]. *)
Definition hashChar (hash char : Z) : Z :=
  let hash := (toInt32 (Z.shiftl (toInt32 hash) 5) - hash + char)%Z in
  toInt32 (Z.land (toInt32 hash) (toInt32 hash)).

Definition hashLoop (str : list Z) : Z := fold_left hashChar str 0%Z.

(** The character code of a hexadecimal digit, lower case. *)
Definition hexDigit (d : Z) : Z := if (d <? 10)%Z then (48 + d)%Z else (87 + d)%Z.

Fixpoint hexDigits (fuel : nat) (n : Z) (acc : list Z) : list Z :=
  match fuel with
  | 0 => acc
  | S fuel' =>
      if (n =? 0)%Z then acc
      else hexDigits fuel' (n / 16)%Z (hexDigit (n mod 16) :: acc)
  end.

(** [n.toString(16)] for an integer [n >= 0]; a number of [k] bits has at
    most [k] digits. *)
Definition toString16 (n : Z) : list Z :=
  if (n =? 0)%Z then [48%Z] else hexDigits (S (Z.to_nat (Z.log2 n))) n [].

Definition padStart (n : nat) (c : Z) (s : list Z) : list Z :=
  (replicate (n - length s) c ++ s)%list.

Definition padEnd (n : nat) (c : Z) (s : list Z) : list Z :=
  (s ++ replicate (n - length s) c)%list.

(** The sixteen bytes of the result; a position past the end of
    [combined] would read [NaN], stored as 0. *)
Definition simpleHash (str : list Z) : list Z :=
  let hash := hashLoop str in
  let hashStr := padStart 8 48%Z (toString16 (Z.abs hash)) in
  let idStr := padEnd 8 48%Z (take 8 str) in
  let combined := take 16 (hashStr ++ idStr)%list in
  map (fun i => match combined !! i with
                | Some c => (c mod 256)%Z
                | None => 0%Z
                end) (seq 0 16).

(** ** Further notions used in the statements *)

(** The polynomial the loop of [simpleHash] computes, without
    wrap-around. *)
Definition poly31 (str : list Z) : Z :=
  fold_left (fun h c => (31 * h + c)%Z) str 0%Z.

(** The value of a character code read as a hexadecimal digit, and of a
    string of such digits. *)
Definition hexDigitValue (c : Z) : Z := if (c <? 58)%Z then (c - 48)%Z else (c - 87)%Z.

Definition hexValue (s : list Z) : Z :=
  fold_left (fun acc c => (16 * acc + hexDigitValue c)%Z) s 0%Z.

(** [n] firings of the interval callback of a round timer. *)
Fixpoint ticks (n : nat) (srv : Server) (gid : string) (d : Draws) (now : Z) : Server :=
  match n with
  | 0 => srv
  | S n' => fst (roundTimerTick (ticks n' srv gid d now) gid d now)
  end.

(** The win counts agree with the rounds recorded in the history. *)
Definition roundsWonBy (w : RoundWinner) (g : GameState) : nat :=
  length (List.filter (fun h => bool_decide (roundWinnerOf h = w)) (moveHistory g)).

Definition scoresMatchHistory (g : GameState) : Prop :=
  wins (player1 g) = roundsWonBy player1Wins g /\
  wins (player2 g) = roundsWonBy player2Wins g.

(** The stake and currency [findRandomMatch] goes on with: a points
    request always stakes 100, and becomes a SOL request for 0.01 when
    the wallet cannot pay. *)
Definition effectiveRequest (hasEnoughPoints : string -> Q -> bool) (stake : Q)
    (cur : string) (walletAddress : option string) : Q * string :=
  if bool_decide (cur = "points") then
    match walletAddress with
    | Some w =>
        if truthy walletAddress && negb (hasEnoughPoints w (Qmake 100 1))
        then (Qmake 1 100, "sol") else (Qmake 100 1, cur)
    | None => (Qmake 100 1, cur)
    end
  else (stake, cur).

(** No character of the string is a dash. *)
Fixpoint noDash (s : string) : Prop :=
  match s with
  | EmptyString => True
  | String c s' => c <> "-"%char /\ noDash s'
  end.

(** A [move_submitted] message. *)
Definition isMoveSubmitted (e : Effect) : bool :=
  match e with
  | EmitMoveSubmitted _ _ _ => true
  | _ => false
  end.

(** ** Further sample registries *)

(** The registry after alice has created the private SOL match [g1],
    which nobody has joined. *)
Definition soloManager : GameManager :=
  fst (createGame noAnswer newGameManager "private" (Qmake 1 10) "sol"
         (Some "alice") (Some "s1") (Some "walletA") (Some "g1") "u1" 0).


(** ** The ordered map *)

Section OrderedMapFacts.
Context {V : Type}.
Implicit Types (m : list (string * V)) (k : string) (v : V).

Lemma mapGet_mapSet_eq k v m : mapGet k (mapSet k v m) = Some v.
Proof.
  induction m as [|[k' v'] m IH]; simpl.
  - by rewrite bool_decide_eq_true_2.
  - case_bool_decide; simpl.
    + by rewrite bool_decide_eq_true_2.
    + by rewrite bool_decide_eq_false_2.
Qed.

Lemma mapGet_mapSet_ne k k' v m : k <> k' -> mapGet k' (mapSet k v m) = mapGet k' m.
Proof.
  intros Hne. induction m as [|[k0 v0] m IH]; simpl.
  - by rewrite bool_decide_eq_false_2.
  - case_bool_decide; simpl.
    + subst k0. by rewrite !bool_decide_eq_false_2.
    + by rewrite IH.
Qed.

Lemma mapGet_Some_elem k v m : mapGet k m = Some v -> (k, v) ∈ m.
Proof.
  induction m as [|[k0 v0] m IH]; simpl; [done|].
  case_bool_decide.
  - intros [= ->]. subst. left.
  - intros H'. right. by apply IH.
Qed.

Lemma mapGet_None k m : mapGet k m = None <-> forall v, (k, v) ∉ m.
Proof.
  induction m as [|[k0 v0] m IH]; simpl.
  - split; [intros _ v Hin; inversion Hin|done].
  - case_bool_decide.
    + subst. split; [done|]. intros H'. exfalso. apply (H' v0). left.
    + rewrite IH. split.
      * intros H' v Hin. apply elem_of_cons in Hin as [[= ? ?]|Hin]; [done|].
        by apply (H' v).
      * intros H' v Hin. apply (H' v). by right.
Qed.

Lemma mapGet_elem_NoDup k v m :
  NoDup (fst <$> m) -> (k, v) ∈ m -> mapGet k m = Some v.
Proof.
  induction m as [|[k0 v0] m IH]; simpl; intros Hnd Hin; [inversion Hin|].
  apply NoDup_cons in Hnd as [Hk0 Hnd].
  apply elem_of_cons in Hin as [[= -> ->]|Hin].
  - by rewrite bool_decide_eq_true_2.
  - rewrite bool_decide_eq_false_2; [by apply IH|].
    intros ->. apply Hk0. apply list_elem_of_fmap. by exists (k, v).
Qed.
End OrderedMapFacts.

Lemma getGame_setGame_eq gm gid g : getGame (setGame gm gid g) gid = Some g.
Proof. apply mapGet_mapSet_eq. Qed.

Lemma getGame_setGame_ne gm gid k g : gid <> k -> getGame (setGame gm gid g) k = getGame gm k.
Proof. apply mapGet_mapSet_ne. Qed.

Lemma getGame_withPlayerGames gm pg k : getGame (withPlayerGames gm pg) k = getGame gm k.
Proof. done. Qed.

Lemma getGame_withPublicQueue gm q k : getGame (withPublicQueue gm q) k = getGame gm k.
Proof. done. Qed.

(** ** Truthiness and validity *)

Lemma truthy_Some s : truthy (Some s) = true <-> s <> "".
Proof.
  simpl. rewrite negb_true_iff, bool_decide_eq_false. done.
Qed.


Lemma validMove_truthy v : validMove v -> truthy v = true.
Proof. intros [-> | [-> | ->]]; reflexivity. Qed.



Lemma getGame_Some_elem gm k g : getGame gm k = Some g -> (k, g) ∈ games gm.
Proof. apply mapGet_Some_elem. Qed.
(** ** Properties of the move resolver *)

Lemma includes_valid v : includes VALID_MOVES v = true <-> validMove v.
Proof.
  unfold validMove. destruct v as [s|]; simpl.
  - rewrite bool_decide_eq_true. unfold VALID_MOVES.
    rewrite !elem_of_cons, elem_of_nil. split.
    + intros [-> | [-> | [-> | []]]]; auto.
    + intros [H|[H|H]]; inversion H; auto.
  - split; [discriminate|]. intros [H|[H|H]]; discriminate.
Qed.


(** C2. On two valid moves [determineWinner] returns a draw exactly when
    the moves are equal, player 1 exactly on (rock, scissors),
    (scissors, paper) and (paper, rock), and player 2 in every other case;
    it is antisymmetric (one slot wins exactly when the swapped call gives
    the other slot) and the winning relation is the cycle rock > scissors >
    paper > rock. When either argument is not one of the three valid moves
    ([null] included) the call throws the invalid-move error. *)
Theorem determineWinner_spec (move1 move2 : option string) :
  (validMove move1 -> validMove move2 ->
     (determineWinner move1 move2 = Ok draw <-> move1 = move2) /\
     (determineWinner move1 move2 = Ok player1Wins <-> beats move1 move2) /\
     (determineWinner move1 move2 = Ok player2Wins <->
        move1 <> move2 /\ ~ beats move1 move2) /\
     (determineWinner move1 move2 = Ok player1Wins <->
        determineWinner move2 move1 = Ok player2Wins) /\
     (determineWinner move1 move2 = Ok player2Wins <-> beats move2 move1)) /\
  (~ (validMove move1 /\ validMove move2) ->
     determineWinner move1 move2 = Throw InvalidMoveProvided).
Proof.
  split.
  - unfold validMove, beats.
    intros [-> | [-> | ->]] [-> | [-> | ->]]; vm_compute;
      repeat split; intros; try done; try tauto;
      repeat match goal with
             | H : _ \/ _ |- _ => destruct H
             | H : _ /\ _ |- _ => destruct H
             end; try done; try tauto; auto 10.
  - intros Hn. unfold determineWinner.
    destruct (includes VALID_MOVES move1) eqn:E1; simpl; [|done].
    destruct (includes VALID_MOVES move2) eqn:E2; simpl; [|done].
    exfalso. apply Hn. split; by apply includes_valid.
Qed.

Lemma determineWinner_spec_witness :
  ((determineWinner (Some "rock") (Some "scissors") = Ok draw <->
      Some "rock" = Some "scissors") /\
   (determineWinner (Some "rock") (Some "scissors") = Ok player1Wins <->
      beats (Some "rock") (Some "scissors")) /\
   (determineWinner (Some "rock") (Some "scissors") = Ok player2Wins <->
      Some "rock" <> Some "scissors" /\ ~ beats (Some "rock") (Some "scissors")) /\
   (determineWinner (Some "rock") (Some "scissors") = Ok player1Wins <->
      determineWinner (Some "scissors") (Some "rock") = Ok player2Wins) /\
   (determineWinner (Some "rock") (Some "scissors") = Ok player2Wins <->
      beats (Some "scissors") (Some "rock"))) /\
  determineWinner (Some "lizard") None = Throw InvalidMoveProvided.
Proof.
  split.
  - apply (proj1 (determineWinner_spec (Some "rock") (Some "scissors"))).
    + left; reflexivity.
    + right; right; reflexivity.
  - apply (proj2 (determineWinner_spec (Some "lizard") None)).
    intros [_ [H|[H|H]]]; discriminate H.
Defined.

(** ** Round resolution *)

Lemma determineWinner_valid m1 m2 :
  validMove m1 -> validMove m2 -> exists rw, determineWinner m1 m2 = Ok rw.
Proof.
  intros [-> | [-> | ->]] [-> | [-> | ->]]; vm_compute; eauto.
Qed.

(** [processRound] either throws before writing anything, or resolves
    the round. *)
Lemma processRound_run g now :
  match determineWinner (currentMove (player1 g)) (currentMove (player2 g)) with
  | Throw e => processRound g now = (g, Throw e)
  | Ok rw =>
      exists r,
        snd (processRound g now) = Ok r /\
        roundComplete r = true /\
        (exists rr, roundResult r = Some rr /\
                    gameFinished rr =
                      bool_decide (gameStatus (fst (processRound g now)) = finished)) /\
        roundEffect g now rw (fst (processRound g now))
  end.
Proof.
  unfold processRound.
  destruct (determineWinner _ _) as [rw|e]; [|done].
  unfold WINNING_SCORE.
  destruct g as [gid gt cu st p1 p2 cr gs wn mh ca pr cp rc].
  destruct p1 as [i1 s1 w1 n1 m1 r1 d1], p2 as [i2 s2 w2 n2 m2 r2 d2].
  destruct rw; cbn -[Nat.leb];
    repeat match goal with
           | |- context [?a <=? ?b] => destruct (Nat.leb_spec a b); cbn -[Nat.leb]
           end;
    eexists; (split; [reflexivity|]);
    (split; [reflexivity|]); (split; [eexists; split; reflexivity|]);
    unfold roundEffect, WINNING_SCORE; simpl;
    repeat split; intros; try done; try lia.
Qed.

Lemma processRound_effect g now :
  validMove (currentMove (player1 g)) ->
  validMove (currentMove (player2 g)) ->
  exists rw r,
    determineWinner (currentMove (player1 g)) (currentMove (player2 g)) = Ok rw /\
    snd (processRound g now) = Ok r /\
    roundComplete r = true /\
    (exists rr, roundResult r = Some rr /\
                gameFinished rr = bool_decide (gameStatus (fst (processRound g now)) = finished)) /\
    roundEffect g now rw (fst (processRound g now)).
Proof.
  intros H1 H2.
  destruct (determineWinner_valid _ _ H1 H2) as [rw Hrw].
  pose proof (processRound_run g now) as Hrun. rewrite Hrw in Hrun.
  destruct Hrun as (r & Hr). exists rw, r. by split.
Qed.

Lemma processRound_throw_unchanged g now e :
  snd (processRound g now) = Throw e -> fst (processRound g now) = g.
Proof.
  unfold processRound.
  destruct (determineWinner _ _) as [rw|e']; [|done].
  destruct rw; simpl; repeat case_match; simpl; discriminate.
Qed.


(** The four ways [processMove] can go. *)
Lemma processMove_cases g playerId move now :
  (includes VALID_MOVES (Some move) = false /\
   processMove g playerId move now = (g, Throw (InvalidMove move))) \/
  (gameStatus g <> playing /\
   processMove g playerId move now = (g, Throw GameNotInPlayingState)) \/
  (occupies g playerId = false /\
   processMove g playerId move now = (g, Throw PlayerNotInThisGame)) \/
  (validMove (Some move) /\ gameStatus g = playing /\ occupies g playerId = true /\
   let g1 := recordMove g playerId move in
   ((truthy (currentMove (player1 g1)) && truthy (currentMove (player2 g1)) = true /\
     processMove g playerId move now = processRound g1 now) \/
    (truthy (currentMove (player1 g1)) && truthy (currentMove (player2 g1)) = false /\
     processMove g playerId move now = (g1, Ok (mkMoveReturn false None))))).
Proof.
  unfold processMove, occupies, recordMove.
  destruct (includes VALID_MOVES (Some move)) eqn:Hv; simpl; [|by left].
  right. case_bool_decide as Hs; simpl; [|by left].
  right.
  destruct (bool_decide (id (player1 g) = Some playerId)) eqn:E1; simpl.
  - right. apply includes_valid in Hv. repeat split; try done.
    match goal with
    | |- context [if ?b then processRound _ _ else _] => destruct b eqn:Eb
    end; auto.
  - destruct (bool_decide (id (player2 g) = Some playerId)) eqn:E2; simpl; [|by left].
    right. apply includes_valid in Hv. repeat split; try done.
    match goal with
    | |- context [if ?b then processRound _ _ else _] => destruct b eqn:Eb
    end; auto.
Qed.

(** [processRound] writes neither the round number nor a current move,
    whatever the match holds. *)
Lemma processRound_keeps g now :
  currentRound (fst (processRound g now)) = currentRound g /\
  currentMove (player1 (fst (processRound g now))) = currentMove (player1 g) /\
  currentMove (player2 (fst (processRound g now))) = currentMove (player2 g) /\
  id (player1 (fst (processRound g now))) = id (player1 g) /\
  id (player2 (fst (processRound g now))) = id (player2 g) /\
  processed (fst (processRound g now)) = processed g /\
  completionProcessed (fst (processRound g now)) = completionProcessed g.
Proof.
  unfold processRound.
  destruct (determineWinner _ _) as [rw|e]; [|done].
  destruct rw; cbn -[Nat.leb]; repeat case_match; simplify_eq; simpl; done.
Qed.

Lemma startNextRoundOn_playing g :
  gameStatus g = playing ->
  currentRound (startNextRoundOn g) = S (currentRound g) /\
  currentMove (player1 (startNextRoundOn g)) = None /\
  currentMove (player2 (startNextRoundOn g)) = None /\
  ready (player1 (startNextRoundOn g)) = false /\
  ready (player2 (startNextRoundOn g)) = false.
Proof.
  intros Hs. unfold startNextRoundOn. rewrite Hs. simpl. done.
Qed.

Lemma startNextRoundOn_not_playing g :
  gameStatus g <> playing -> startNextRoundOn g = g.
Proof.
  intros Hs. unfold startNextRoundOn. by rewrite bool_decide_eq_false_2.
Qed.

(** C6. On a match whose two current moves are set, [processRound]
    appends exactly one history entry, tagged with the round number the
    match had on entry; it adds one win to the round winner and to nobody
    on a draw; when a win count has reached [WINNING_SCORE] the match is
    finished with that slot's identity as winner, otherwise status and
    winner stay; both current moves and the round number are left as they
    were. The round number is incremented and the moves are cleared by
    the round-advance step [startNextRound], which acts on a playing match
    only; [processMove] does not change the round number either. *)
Theorem processRound_spec (g : GameState) (now : Z) :
  validMove (currentMove (player1 g)) ->
  validMove (currentMove (player2 g)) ->
  exists rw r,
    determineWinner (currentMove (player1 g)) (currentMove (player2 g)) = Ok rw /\
    snd (processRound g now) = Ok r /\ roundComplete r = true /\
    let g' := fst (processRound g now) in
    moveHistory g' =
      moveHistory g ++ [mkRoundHistory (currentRound g) (currentMove (player1 g))
                          (currentMove (player2 g)) rw now] /\
    wins (player1 g') = wins (player1 g) + (if bool_decide (rw = player1Wins) then 1 else 0) /\
    wins (player2 g') = wins (player2 g) + (if bool_decide (rw = player2Wins) then 1 else 0) /\
    (WINNING_SCORE <= wins (player1 g') ->
       gameStatus g' = finished /\ winner g' = id (player1 g)) /\
    (wins (player1 g') < WINNING_SCORE -> WINNING_SCORE <= wins (player2 g') ->
       gameStatus g' = finished /\ winner g' = id (player2 g)) /\
    (wins (player1 g') < WINNING_SCORE -> wins (player2 g') < WINNING_SCORE ->
       gameStatus g' = gameStatus g /\ winner g' = winner g) /\
    currentMove (player1 g') = currentMove (player1 g) /\
    currentMove (player2 g') = currentMove (player2 g) /\
    currentRound g' = currentRound g /\
    (forall playerId move,
       currentRound (fst (processMove g playerId move now)) = currentRound g) /\
    (gameStatus g' = playing ->
       currentRound (startNextRoundOn g') = S (currentRound g) /\
       currentMove (player1 (startNextRoundOn g')) = None /\
       currentMove (player2 (startNextRoundOn g')) = None) /\
    (gameStatus g' <> playing -> startNextRoundOn g' = g').
Proof.
  intros H1 H2.
  destruct (processRound_effect g now H1 H2) as (rw & r & Hrw & Hr & Hc & _ & He).
  exists rw, r. split; [done|]. split; [done|]. split; [done|].
  destruct He as (Hh & Hcr & Hw1 & Hw2 & Hm1 & Hm2 & _ & _ & _ & _ & Hf1 & Hf2 & Hf3).
  simpl.
  do 9 (split; [done|]).
  split.
  { intros playerId move.
    destruct (processMove_cases g playerId move now)
      as [[_ ->] | [[_ ->] | [[_ ->] | (_ & _ & _ & [[_ ->] | [_ ->]])]]]; simpl; try done.
    - rewrite (proj1 (processRound_keeps _ now)). unfold recordMove.
      by destruct (bool_decide (id (player1 g) = Some playerId)).
    - unfold recordMove. by destruct (bool_decide (id (player1 g) = Some playerId)). }
  split.
  { intros Hp. destruct (startNextRoundOn_playing _ Hp) as (Ha & Hb & Hc' & _).
    by rewrite Ha, Hcr. }
  apply startNextRoundOn_not_playing.
Qed.

Lemma processRound_spec_witness :
  validMove (currentMove (player1 (rockRounds 3 aliceBob))) /\
  validMove (currentMove (player2 (rockRounds 3 aliceBob))) /\
  exists rw r,
    determineWinner (currentMove (player1 (rockRounds 3 aliceBob)))
      (currentMove (player2 (rockRounds 3 aliceBob))) = Ok rw /\
    snd (processRound (rockRounds 3 aliceBob) 0) = Ok r /\ roundComplete r = true.
Proof.
  assert (H1 : validMove (currentMove (player1 (rockRounds 3 aliceBob))))
    by (left; reflexivity).
  assert (H2 : validMove (currentMove (player2 (rockRounds 3 aliceBob))))
    by (right; right; reflexivity).
  split; [exact H1|]. split; [exact H2|].
  destruct (processRound_spec (rockRounds 3 aliceBob) 0 H1 H2)
    as (rw & r & Ha & Hb & Hc & _).
  exists rw, r. auto.
Defined.




Lemma recordMove_moves g playerId move :
  (if bool_decide (id (player1 g) = Some playerId)
   then currentMove (player1 (recordMove g playerId move)) = Some move /\
        currentMove (player2 (recordMove g playerId move)) = currentMove (player2 g)
   else currentMove (player2 (recordMove g playerId move)) = Some move /\
        currentMove (player1 (recordMove g playerId move)) = currentMove (player1 g)) /\
  moveHistory (recordMove g playerId move) = moveHistory g /\
  wins (player1 (recordMove g playerId move)) = wins (player1 g) /\
  wins (player2 (recordMove g playerId move)) = wins (player2 g) /\
  id (player1 (recordMove g playerId move)) = id (player1 g) /\
  id (player2 (recordMove g playerId move)) = id (player2 g) /\
  gameStatus (recordMove g playerId move) = gameStatus g /\
  winner (recordMove g playerId move) = winner g /\
  currentRound (recordMove g playerId move) = currentRound g /\
  processed (recordMove g playerId move) = processed g /\
  completionProcessed (recordMove g playerId move) = completionProcessed g.
Proof.
  unfold recordMove. destruct (bool_decide (id (player1 g) = Some playerId)); done.
Qed.




(** ** Status and win counts *)



Lemma processRound_status g now :
  gameStatus (fst (processRound g now)) = finished \/
  gameStatus (fst (processRound g now)) = gameStatus g.
Proof.
  unfold processRound.
  destruct (determineWinner _ _) as [rw|e]; [|by right].
  destruct rw; cbn -[Nat.leb]; repeat case_match; simplify_eq; simpl; auto.
Qed.




















(** ** Completion runs at most once *)

Lemma processMove_marksKept g playerId move now :
  marksKept g (fst (processMove g playerId move now)).
Proof.
  unfold marksKept.
  destruct (processMove_cases g playerId move now)
    as [[_ ->] | [[_ ->] | [[_ ->] | (_ & _ & _ & [[_ ->] | [_ ->]])]]]; simpl;
    try done.
  - destruct (processRound_keeps (recordMove g playerId move) now)
      as (_ & _ & _ & _ & _ & -> & ->).
    by destruct (recordMove_moves g playerId move)
      as (_ & _ & _ & _ & _ & _ & _ & _ & _ & -> & ->).
  - by destruct (recordMove_moves g playerId move)
      as (_ & _ & _ & _ & _ & _ & _ & _ & _ & -> & ->).
Qed.

Lemma addPlayer_marksKept g playerId sock w :
  marksKept g (fst (addPlayer g playerId sock w)).
Proof. unfold marksKept, addPlayer. repeat case_match; done. Qed.

Lemma autoAssign_marksKept g d : marksKept g (fst (autoAssign g d)).
Proof. unfold marksKept, autoAssign. repeat case_match; simplify_eq; done. Qed.

Lemma removePlayerFromGame_marksKept g playerId :
  marksKept g (removePlayerFromGame g playerId).
Proof. unfold marksKept, removePlayerFromGame. repeat case_match; done. Qed.

Lemma leaveForfeitOn_marksKept g playerId : marksKept g (leaveForfeitOn g playerId).
Proof. unfold marksKept, leaveForfeitOn. repeat case_match; done. Qed.

Lemma startNextRoundOn_marksKept g : marksKept g (startNextRoundOn g).
Proof. unfold marksKept, startNextRoundOn. repeat case_match; done. Qed.

(** What [handleGameFinished] does to the marks and sends to settlement. *)
Lemma handleGameFinishedOn_marks g :
  let g' := fst (handleGameFinishedOn g) in
  let e := snd (handleGameFinishedOn g) in
  (processed g = true -> g' = g /\ e = []) /\
  (processed g = true -> processed g' = true) /\
  (completionProcessed g = true -> completionProcessed g' = true /\ e = []) /\
  (e <> [] -> processed g = false /\ completionProcessed g = false /\
              processed g' = true /\ completionProcessed g' = true) /\
  (truthy (winner g) = true ->
     processed g' = true /\ (processed g = false -> completionProcessed g' = true)) /\
  length e <= 1 /\ Forall (fun x => isSettlement x = true) e.
Proof.
  unfold handleGameFinishedOn, processGameCompletion.
  destruct (truthy (winner g)), (processed g) eqn:Hp, (completionProcessed g) eqn:Hc;
    simpl; rewrite ?Hc; simpl;
    repeat case_match; simpl;
    repeat split; intros; try done; try lia; try (repeat constructor; done).
Qed.

Lemma matchStep_marks g e g' :
  matchStep g e g' ->
  (processed g = true -> processed g' = true /\ e = []) /\
  (completionProcessed g = true -> completionProcessed g' = true /\ e = []) /\
  (e <> [] -> processed g = false /\ processed g' = true) /\
  length e <= 1 /\ Forall (fun x => isSettlement x = true) e.
Proof.
  assert (Hkept : forall g1, marksKept g g1 ->
            (processed g = true -> processed g1 = true /\ @nil Effect = []) /\
            (completionProcessed g = true ->
               completionProcessed g1 = true /\ @nil Effect = []) /\
            (@nil Effect <> [] -> processed g = false /\ processed g1 = true) /\
            length (@nil Effect) <= 1 /\
            Forall (fun x => isSettlement x = true) (@nil Effect)).
  { intros g1 [-> ->]. repeat split; try done. simpl; lia. }
  destruct 1.
  - apply Hkept, addPlayer_marksKept.
  - by apply Hkept.
  - by apply Hkept.
  - apply Hkept, processMove_marksKept.
  - by apply Hkept.
  - apply Hkept. by destruct (processRound_keeps g now) as (_ & _ & _ & _ & _ & ? & ?).
  - apply Hkept, startNextRoundOn_marksKept.
  - apply Hkept, autoAssign_marksKept.
  - apply Hkept, removePlayerFromGame_marksKept.
  - apply Hkept, leaveForfeitOn_marksKept.
  - destruct (handleGameFinishedOn_marks g) as (H1 & H2 & H3 & H4 & _ & H5 & H6).
    repeat split; try done.
    + by apply H2.
    + by apply H1.
    + by apply H3.
    + by apply H3.
    + by apply H4.
    + by apply H4.
Qed.

Lemma matchRun_marks g e g' :
  matchRun g e g' ->
  (processed g = true -> processed g' = true /\ e = []) /\
  (completionProcessed g = true -> completionProcessed g' = true) /\
  length e <= 1 /\ Forall (fun x => isSettlement x = true) e.
Proof.
  induction 1 as [g|g1 e1 g2 e2 g3 Hstep Hrun IH].
  - repeat split; try done. simpl; lia.
  - destruct (matchStep_marks _ _ _ Hstep) as (S1 & S2 & S3 & S4 & S5).
    destruct IH as (R1 & R2 & R3 & R4).
    split; [|split; [|split]].
    + intros Hp. destruct (S1 Hp) as [Hp2 ->]. destruct (R1 Hp2) as [Hp3 ->]. done.
    + intros Hc. apply R2. by apply S2.
    + destruct e1 as [|x e1]; [done|].
      destruct S3 as [_ Hp2]; [done|]. destruct (R1 Hp2) as [_ ->].
      by rewrite app_nil_r.
    + by apply Forall_app.
Qed.

Lemma matchRun_one g e g' : matchStep g e g' -> matchRun g e g'.
Proof.
  intros Hs. rewrite <- (app_nil_r e). eapply runStep; [done|constructor].
Qed.

Lemma matchRun_trans g1 e1 g2 e2 g3 :
  matchRun g1 e1 g2 -> matchRun g2 e2 g3 -> matchRun g1 (e1 ++ e2) g3.
Proof.
  induction 1 as [g|ga ea gb eb gc Hstep Hrun IH]; intros H2; [done|].
  rewrite <- app_assoc. eapply runStep; [done|]. by apply IH.
Qed.

Lemma settlements_app l1 l2 : settlements (l1 ++ l2) = settlements l1 ++ settlements l2.
Proof. apply List.filter_app. Qed.

Lemma settlements_all l :
  Forall (fun x => isSettlement x = true) l -> settlements l = l.
Proof.
  induction 1 as [|x l Hx Hl IH]; [done|].
  unfold settlements in *. simpl. by rewrite Hx, IH.
Qed.

Lemma runsOn_same_games t gm gm' : games gm' = games gm -> runsOn t gm gm' [].
Proof.
  intros Heq k g Hk. exists g. unfold getGame in *. rewrite Heq. split; [done|].
  destruct (bool_decide (k = t)); constructor.
Qed.

Lemma runsOn_refl t gm : runsOn t gm gm [].
Proof. by apply runsOn_same_games. Qed.

Lemma runsOn_trans t gm1 gm2 gm3 e1 e2 :
  runsOn t gm1 gm2 e1 -> runsOn t gm2 gm3 e2 -> runsOn t gm1 gm3 (e1 ++ e2).
Proof.
  intros H12 H23 k g Hk.
  destruct (H12 k g Hk) as (g2 & Hk2 & Hr2).
  destruct (H23 k g2 Hk2) as (g3 & Hk3 & Hr3).
  exists g3. split; [done|].
  destruct (bool_decide (k = t)).
  - by eapply matchRun_trans.
  - change (@nil Effect) with (@nil Effect ++ []). by eapply matchRun_trans.
Qed.

Lemma runsOn_setGame t gm g0 g1 e :
  getGame gm t = Some g0 -> matchRun g0 e g1 -> runsOn t gm (setGame gm t g1) e.
Proof.
  intros Hg Hrun k g Hk.
  destruct (decide (t = k)) as [->|Hne].
  - exists g1. rewrite getGame_setGame_eq, bool_decide_eq_true_2 by done.
    split; [done|]. by simplify_eq.
  - exists g. rewrite getGame_setGame_ne by done.
    rewrite bool_decide_eq_false_2 by done. split; [done|constructor].
Qed.

Lemma submitMoveLookup_games gm playerId hint :
  games (fst (submitMoveLookup gm playerId hint)) = games gm.
Proof.
  unfold submitMoveLookup. repeat case_match; simplify_eq; simpl; done.
Qed.

Lemma runsOn_then t gm1 gm2 gm3 e :
  runsOn t gm1 gm2 [] -> runsOn t gm2 gm3 e -> runsOn t gm1 gm3 e.
Proof. intros H12 H23. change e with ([] ++ e). by eapply runsOn_trans. Qed.

Lemma submitMove_runs gm playerId move hint now :
  exists t,
    runsOn t gm (fst (submitMove gm playerId move hint now)) [] /\
    forall r, snd (submitMove gm playerId move hint now) = Ok r ->
      t = subGameId r /\
      getGame (fst (submitMove gm playerId move hint now)) t = Some (subGameState r).
Proof.
  unfold submitMove.
  pose proof (submitMoveLookup_games gm playerId hint) as Hgames.
  destruct (submitMoveLookup gm playerId hint) as [gm1 gameId]. simpl in Hgames.
  assert (H01 : forall t, runsOn t gm gm1 []) by (intros; by apply runsOn_same_games).
  destruct gameId as [gid|]; [|exists ""; split; [apply H01|done]].
  case_match; [exists ""; split; [apply H01|done]|].
  destruct (getGame gm1 gid) as [g0|] eqn:Hg; [|exists ""; split; [apply H01|done]].
  case_match; [exists ""; split; [apply H01|done]|].
  exists gid.
  assert (Hstep : matchRun g0 [] (fst (processMove g0 playerId move now)))
    by (apply matchRun_one; constructor).
  destruct (processMove g0 playerId move now) as [g1 [r|e]]; simpl in *.
  - split.
    + change (@nil Effect) with (@nil Effect ++ []).
      eapply runsOn_trans; [apply H01|].
      eapply runsOn_setGame; [done|].
      change (@nil Effect) with (@nil Effect ++ []).
      eapply matchRun_trans; [done|].
      destruct (roundResult r) as [rr|]; [|constructor].
      destruct (gameFinished rr); [|constructor].
      apply matchRun_one; constructor.
    + intros r' [= <-]. simpl. by rewrite getGame_setGame_eq.
  - split; [|done].
    change (@nil Effect) with (@nil Effect ++ []).
    eapply runsOn_trans; [apply H01|]. by eapply runsOn_setGame.
Qed.

Lemma processRoundDirectly_runs gm gid now :
  runsOn gid gm (fst (processRoundDirectly gm gid now)) [].
Proof.
  unfold processRoundDirectly.
  destruct (getGame gm gid) as [g0|] eqn:Hg; [|apply runsOn_refl].
  case_match; [apply runsOn_refl|].
  assert (Hstep : matchRun g0 [] (fst (processRound g0 now)))
    by (apply matchRun_one; constructor).
  destruct (processRound g0 now) as [g1 [r|e]]; simpl in *;
    by eapply runsOn_setGame.
Qed.

Lemma startNextRound_runs srv gid :
  runsOn gid (gameManager srv) (gameManager (fst (startNextRound srv gid))) [] /\
  settlements (snd (startNextRound srv gid)) = [].
Proof.
  unfold startNextRound.
  destruct (getGame (gameManager srv) gid) as [g0|] eqn:Hg;
    [|split; [apply runsOn_refl|done]].
  case_match; [split; [apply runsOn_refl|done]|].
  simpl. split; [|done].
  eapply runsOn_setGame; [done|]. apply matchRun_one; constructor.
Qed.

Lemma handleGameFinished_runs srv gid :
  runsOn gid (gameManager srv) (gameManager (fst (handleGameFinished srv gid)))
    (settlements (snd (handleGameFinished srv gid))).
Proof.
  unfold handleGameFinished. simpl.
  destruct (getGame (gameManager srv) gid) as [g0|] eqn:Hg; [|apply runsOn_refl].
  destruct (handleGameFinishedOn_marks g0) as (_ & _ & _ & _ & _ & _ & Hall).
  assert (Hstep : matchRun g0 (snd (handleGameFinishedOn g0))
                    (fst (handleGameFinishedOn g0)))
    by (apply matchRun_one; constructor).
  destruct (handleGameFinishedOn g0) as [g1 e]; simpl in *.
  rewrite settlements_app, (settlements_all e Hall). simpl. rewrite app_nil_r.
  rewrite <- (app_nil_r e).
  eapply runsOn_trans; [by eapply runsOn_setGame|].
  by apply runsOn_same_games.
Qed.

Lemma onSubmitMove_runs srv sock cur move dataPlayerId dataGameId now :
  exists t,
    runsOn t (gameManager srv)
      (gameManager (fst (onSubmitMove srv sock cur move dataPlayerId dataGameId now)))
      (settlements (snd (onSubmitMove srv sock cur move dataPlayerId dataGameId now))).
Proof.
  unfold onSubmitMove.
  set (p := match jsOr dataPlayerId (jsOr cur (Some sock)) with
            | Some p => p
            | None => sock
            end).
  destruct (submitMove_runs (gameManager srv) p move dataGameId now) as (t & Hruns & Hok).
  destruct (submitMove (gameManager srv) p move dataGameId now) as [gm1 [result|e]];
    simpl in *; [|by exists t].
  destruct (Hok result eq_refl) as [-> Hg]. exists (subGameId result).
  destruct (subRoundComplete result); [|done].
  destruct (match subRoundResult result with
            | Some rr => gameFinished rr
            | None => false
            end).
  - match goal with
    | |- context [handleGameFinished ?s ?k] =>
        pose proof (handleGameFinished_runs s k) as Hfin;
        destruct (handleGameFinished s k) as [srv3 effs]
    end.
    simpl in *. by eapply runsOn_then.
  - match goal with
    | |- context [startNextRound ?s ?k] =>
        destruct (startNextRound_runs s k) as [Hnext Hnone];
        destruct (startNextRound s k) as [srv3 effs]
    end.
    simpl in *. unfold settlements in *. simpl. rewrite Hnone.
    by eapply runsOn_then.
Qed.

Lemma settlements_submitted gid (l : list (option string * option string)) :
  settlements (map (fun a => EmitMoveSubmitted gid (fst a) (snd a)) l) = [].
Proof. induction l as [|a l IH]; [done|]. exact IH. Qed.

Lemma handleTimeUp_runs srv gid d now :
  runsOn gid (gameManager srv) (gameManager (fst (handleTimeUp srv gid d now)))
    (settlements (snd (handleTimeUp srv gid d now))).
Proof.
  unfold handleTimeUp.
  destruct (getGame (gameManager srv) gid) as [g0|] eqn:Hg; [|apply runsOn_refl].
  assert (Hauto : matchRun g0 [] (fst (autoAssign g0 d)))
    by (apply matchRun_one; constructor).
  destruct (autoAssign g0 d) as [g1 auto]. simpl in Hauto.
  assert (H01 : runsOn gid (gameManager srv) (setGame (gameManager srv) gid g1) [])
    by (by eapply runsOn_setGame).
  set (gm1 := setGame (gameManager srv) gid g1) in *.
  case_match; [|done].
  simpl.
  pose proof (processRoundDirectly_runs gm1 gid now) as Hdir.
  destruct (processRoundDirectly gm1 gid now) as [gm2 [result|e]]; simpl in *.
  - assert (H02 : runsOn gid (gameManager srv) gm2 []) by (by eapply runsOn_then).
    destruct (subRoundComplete result).
    + destruct (match subRoundResult result with
                | Some rr => gameFinished rr
                | None => false
                end).
      * match goal with
        | |- context [handleGameFinished ?s ?k] =>
            pose proof (handleGameFinished_runs s k) as Hfin;
            destruct (handleGameFinished s k) as [srv3 effs]
        end.
        simpl in *.
        rewrite settlements_app, settlements_submitted. simpl.
        by eapply runsOn_then.
      * match goal with
        | |- context [startNextRound ?s ?k] =>
            destruct (startNextRound_runs s k) as [Hnext Hnone];
            destruct (startNextRound s k) as [srv3 effs]
        end.
        simpl in *.
        rewrite settlements_app, settlements_submitted. simpl.
        unfold settlements in Hnone |- *. simpl. rewrite Hnone.
        by eapply runsOn_then.
    + simpl. by rewrite settlements_submitted.
  - simpl. rewrite settlements_submitted. by eapply runsOn_then.
Qed.

Lemma roundTimerTick_runs srv gid d now :
  runsOn gid (gameManager srv) (gameManager (fst (roundTimerTick srv gid d now)))
    (settlements (snd (roundTimerTick srv gid d now))).
Proof.
  unfold roundTimerTick.
  destruct (gameTimers srv !! gid) as [c|]; [|apply runsOn_refl].
  destruct (getGame (gameManager srv) gid) as [g0|] eqn:Hg; [|apply runsOn_refl].
  case_bool_decide; [apply runsOn_refl|].
  case_match; [|apply runsOn_refl].
  pose proof (handleTimeUp_runs (withTimers srv (delete gid (gameTimers srv))) gid d now)
    as Hup.
  destruct (handleTimeUp (withTimers srv (delete gid (gameTimers srv))) gid d now)
    as [srv1 effs]. simpl in *. exact Hup.
Qed.

(** C3. Along any run of steps on one match object, in whatever order
    moves, timer expiries, joins, departures and completions arrive, the
    marks [processed] and [completionProcessed] are never reset once set,
    the settlement collaborator is called at most once, and it is called
    only in a run that takes [processed] from false to true; no call is
    made on a match that is already marked. Completion of a match with a
    winner sets the mark. Both ways a final round can complete are such
    runs: the [submit_move] handler and the timer (the interval callback
    and [handleTimeUp]) act on every stored match by a run of steps whose
    settlement calls are exactly those the handler made. *)
Theorem settlement_at_most_once (g g' : GameState) (e : list Effect) :
  matchRun g e g' ->
  (processed g = true -> processed g' = true) /\
  (completionProcessed g = true -> completionProcessed g' = true) /\
  length e <= 1 /\
  Forall (fun x => isSettlement x = true) e /\
  (processed g = true -> e = []) /\
  (e <> [] -> processed g = false /\ processed g' = true) /\
  (truthy (winner g') = true -> processed (fst (handleGameFinishedOn g')) = true) /\
  (forall srv sock cur move dataPlayerId dataGameId now,
     exists t,
       runsOn t (gameManager srv)
         (gameManager (fst (onSubmitMove srv sock cur move dataPlayerId dataGameId now)))
         (settlements (snd (onSubmitMove srv sock cur move dataPlayerId dataGameId now)))) /\
  (forall srv gid d now,
     runsOn gid (gameManager srv) (gameManager (fst (handleTimeUp srv gid d now)))
       (settlements (snd (handleTimeUp srv gid d now)))) /\
  (forall srv gid d now,
     runsOn gid (gameManager srv) (gameManager (fst (roundTimerTick srv gid d now)))
       (settlements (snd (roundTimerTick srv gid d now)))).
Proof.
  intros Hrun.
  destruct (matchRun_marks g e g' Hrun) as (H1 & H2 & H3 & H4).
  split; [intros Hp; by destruct (H1 Hp)|].
  split; [done|]. split; [done|]. split; [done|].
  split; [intros Hp; by destruct (H1 Hp)|].
  split.
  { intros Hne. destruct (processed g) eqn:Hp.
    - by destruct (H1 eq_refl).
    - split; [done|]. clear H1 H2 H3 H4.
      induction Hrun as [g|g1 e1 g2 e2 g3 Hstep Hrun IH]; [done|].
      destruct (matchStep_marks _ _ _ Hstep) as (_ & _ & S3 & _).
      destruct e1 as [|x e1].
      + destruct (processed g2) eqn:Hp2.
        * by destruct (matchRun_marks _ _ _ Hrun) as ((? & _) & _).
        * by apply IH.
      + destruct S3 as [_ Hp2]; [done|].
        by destruct (matchRun_marks _ _ _ Hrun) as ((? & _) & _). }
  split.
  { intros Hw. by destruct (handleGameFinishedOn_marks g') as (_ & _ & _ & _ & [? _] & _). }
  split; [intros; apply onSubmitMove_runs|].
  split; [intros; apply handleTimeUp_runs|].
  intros; apply roundTimerTick_runs.
Qed.

Lemma settlement_at_most_once_witness :
  exists e g',
    matchRun (rockRounds 3 aliceBob) e g' /\ length e <= 1 /\ processed g' = true.
Proof.
  set (g0 := rockRounds 3 aliceBob).
  set (g1 := fst (handleGameFinishedOn g0)).
  set (g2 := fst (handleGameFinishedOn g1)).
  assert (Hrun : matchRun g0 (snd (handleGameFinishedOn g0) ++
                              (snd (handleGameFinishedOn g1) ++ [])) g2).
  { eapply runStep; [apply stepGameFinished|].
    eapply runStep; [apply stepGameFinished|]. apply runNil. }
  eexists _, g2. split; [exact Hrun|].
  destruct (settlement_at_most_once _ _ _ Hrun) as (_ & _ & Hlen & _).
  split; [exact Hlen|]. reflexivity.
Defined.

(** ** Timeout auto-moves *)

Lemma elem_moves_valid m : m ∈ moves -> validMove (Some m).
Proof.
  unfold moves, validMove. rewrite !elem_of_cons, elem_of_nil.
  intros [-> | [-> | [-> | []]]]; auto.
Qed.

Lemma shuffle_shape l :
  Permutation moves l ->
  exists a b c, l = [a; b; c] /\ a <> b /\ validMove (Some a) /\ validMove (Some b).
Proof.
  intros Hp. pose proof (Permutation_length Hp) as Hlen.
  destruct l as [|a [|b [|c [|x l]]]]; try discriminate Hlen.
  exists a, b, c. split; [done|].
  assert (Hnd : NoDup [a; b; c]).
  { rewrite <- Hp. apply (bool_decide_unpack _). by vm_compute. }
  split.
  - apply NoDup_cons in Hnd as [Hnot _]. intros ->. apply Hnot. left.
  - split; apply elem_moves_valid; rewrite Hp; [left|right; left].
Qed.

Lemma determineWinner_distinct m1 m2 :
  validMove (Some m1) -> validMove (Some m2) -> m1 <> m2 ->
  exists rw, determineWinner (Some m1) (Some m2) = Ok rw /\ rw <> draw.
Proof.
  intros [[= ->] | [[= ->] | [= ->]]] [[= ->] | [[= ->] | [= ->]]] Hne;
    try done; vm_compute; eexists; (split; [reflexivity|discriminate]).
Qed.

Lemma pick_valid i : i < 3 -> exists m, moves !! i = Some m /\ validMove (Some m).
Proof.
  intros Hi. destruct i as [|[|[|i]]]; [| | |lia]; eexists; (split; [reflexivity|]);
    unfold validMove; auto.
Qed.

Lemma handleGameFinishedOn_history g :
  moveHistory (fst (handleGameFinishedOn g)) = moveHistory g.
Proof.
  unfold handleGameFinishedOn, processGameCompletion. repeat case_match; done.
Qed.

Lemma startNextRoundOn_history g : moveHistory (startNextRoundOn g) = moveHistory g.
Proof. unfold startNextRoundOn. by case_match. Qed.

(** When the expiry has assigned a move and both slots then hold valid
    moves, [handleTimeUp] resolves the round: the stored match has the
    history [processRound] gives. *)
Lemma handleTimeUp_resolves srv gid d now g :
  getGame (gameManager srv) gid = Some g ->
  0 < length (snd (autoAssign g d)) ->
  validMove (currentMove (player1 (fst (autoAssign g d)))) ->
  validMove (currentMove (player2 (fst (autoAssign g d)))) ->
  exists g',
    getGame (gameManager (fst (handleTimeUp srv gid d now))) gid = Some g' /\
    moveHistory g' = moveHistory (fst (processRound (fst (autoAssign g d)) now)).
Proof.
  intros Hg Hlen Hv1 Hv2. unfold handleTimeUp. rewrite Hg.
  destruct (autoAssign g d) as [g1 auto]. simpl in *.
  apply Nat.ltb_lt in Hlen. rewrite Hlen.
  rewrite (validMove_truthy _ Hv1), (validMove_truthy _ Hv2). simpl.
  unfold processRoundDirectly. rewrite getGame_setGame_eq.
  rewrite (validMove_truthy _ Hv1), (validMove_truthy _ Hv2). simpl.
  destruct (processRound_effect g1 now Hv1 Hv2)
    as (rw & r & _ & Hr & Hc & (rr & Hrr & Hfin) & _).
  destruct (processRound g1 now) as [g2 out]. simpl in *. subst out. simpl.
  rewrite Hc, Hrr, Hfin.
  case_bool_decide as Hs.
  - unfold handleGameFinished. simpl. rewrite getGame_setGame_eq.
    destruct (handleGameFinishedOn g2) as [g3 e] eqn:He. simpl.
    unfold getGame. simpl. fold (getGame (setGame (setGame (gameManager srv) gid g1) gid g2)).
    exists g3. split.
    + apply mapGet_mapSet_eq.
    + pose proof (handleGameFinishedOn_history g2) as Hh. by rewrite He in Hh.
  - unfold startNextRound. simpl. rewrite getGame_setGame_eq.
    case_bool_decide as Hp; simpl.
    + exists (startNextRoundOn g2). split.
      * apply mapGet_mapSet_eq.
      * apply startNextRoundOn_history.
    + exists g2. split; [apply getGame_setGame_eq|done].
Qed.
Lemma mapSet_same {V} k (v : V) m : mapGet k m = Some v -> mapSet k v m = m.
Proof.
  induction m as [|[k' v'] m IH]; [done|]. simpl.
  case_bool_decide as Hk; [intros [= ->]; by subst|].
  intros Hm. by rewrite IH.
Qed.

Lemma setGame_same gm gid g : getGame gm gid = Some g -> setGame gm gid g = gm.
Proof.
  intros Hg. unfold setGame, withGames. rewrite mapSet_same by done. by destruct gm.
Qed.

(** When the expiry has assigned a move and both slots then hold valid
    moves, [handleTimeUp] resolves the round and announces the assigned
    moves, and no other, as submitted. *)
Lemma handleTimeUp_round srv gid d now g :
  getGame (gameManager srv) gid = Some g ->
  0 < length (snd (autoAssign g d)) ->
  validMove (currentMove (player1 (fst (autoAssign g d)))) ->
  validMove (currentMove (player2 (fst (autoAssign g d)))) ->
  exists g' rest,
    getGame (gameManager (fst (handleTimeUp srv gid d now))) gid = Some g' /\
    moveHistory g' = moveHistory (fst (processRound (fst (autoAssign g d)) now)) /\
    snd (handleTimeUp srv gid d now)
    = map (fun a => EmitMoveSubmitted gid (fst a) (snd a)) (snd (autoAssign g d)) ++ rest /\
    Forall (fun e => isMoveSubmitted e = false) rest.
Proof.
  intros Hg Hlen Hv1 Hv2. unfold handleTimeUp. rewrite Hg.
  destruct (autoAssign g d) as [g1 auto]. simpl in *.
  apply Nat.ltb_lt in Hlen. rewrite Hlen.
  rewrite (validMove_truthy _ Hv1), (validMove_truthy _ Hv2). simpl.
  unfold processRoundDirectly. rewrite getGame_setGame_eq.
  rewrite (validMove_truthy _ Hv1), (validMove_truthy _ Hv2). simpl.
  destruct (processRound_effect g1 now Hv1 Hv2)
    as (rw & r & _ & Hr & Hc & (rr & Hrr & Hfin) & _).
  destruct (processRound g1 now) as [g2 out]. simpl in *. subst out. simpl.
  rewrite Hc, Hrr, Hfin.
  case_bool_decide as Hs.
  - unfold handleGameFinished. simpl. rewrite getGame_setGame_eq.
    destruct (handleGameFinishedOn_marks g2) as (_ & _ & _ & _ & _ & _ & Hall).
    pose proof (handleGameFinishedOn_history g2) as Hh.
    destruct (handleGameFinishedOn g2) as [g3 e] eqn:He. simpl in *.
    unfold getGame. simpl. fold (getGame (setGame (setGame (gameManager srv) gid g1) gid g2)).
    exists g3, (e ++ [EmitGameFinished gid (winner g3); SetTimeout CleanupFinished 30000]).
    split; [apply mapGet_mapSet_eq|]. split; [done|]. split; [done|].
    apply Forall_app. split.
    + eapply Forall_impl; [exact Hall|]. intros x Hx. by destruct x.
    + repeat constructor.
  - unfold startNextRound. simpl. rewrite getGame_setGame_eq.
    case_bool_decide as Hp; simpl.
    + exists (startNextRoundOn g2). eexists. split; [apply mapGet_mapSet_eq|].
      split; [apply startNextRoundOn_history|]. split; [reflexivity|].
      repeat constructor.
    + exists g2. eexists. split; [apply getGame_setGame_eq|]. split; [done|].
      split; [reflexivity|]. repeat constructor.
Qed.

(** When the expiry has assigned a move and a slot still holds none,
    [handleTimeUp] stores the assignment and does nothing else. *)
Lemma handleTimeUp_only_assigns srv gid d now g :
  getGame (gameManager srv) gid = Some g ->
  truthy (currentMove (player1 (fst (autoAssign g d))))
  && truthy (currentMove (player2 (fst (autoAssign g d)))) = false ->
  handleTimeUp srv gid d now
  = (withManager srv (setGame (gameManager srv) gid (fst (autoAssign g d))), []).
Proof.
  intros Hg Hb. unfold handleTimeUp. rewrite Hg.
  destruct (autoAssign g d) as [g1 auto]. cbn [fst snd] in *.
  rewrite <- andb_assoc, Hb. by rewrite andb_false_r.
Qed.

(** What [processRound] appends on two valid moves. *)
Lemma processRound_entry g now :
  validMove (currentMove (player1 g)) -> validMove (currentMove (player2 g)) ->
  exists rw,
    determineWinner (currentMove (player1 g)) (currentMove (player2 g)) = Ok rw /\
    moveHistory (fst (processRound g now))
    = moveHistory g ++ [mkRoundHistory (currentRound g) (currentMove (player1 g))
                          (currentMove (player2 g)) rw now].
Proof.
  intros H1 H2.
  destruct (processRound_effect g now H1 H2) as (rw & r & Hrw & _ & _ & _ & He).
  exists rw. split; [done|]. by destruct He as [-> _].
Qed.

(** C7. When the timer of a stored match expires and both slots are
    occupied and hold no move, the handler assigns the first element of
    the shuffled moves to slot 1 and the second to slot 2; the shuffle
    being a permutation of the three valid moves, the two are valid and
    distinct, and the handler resolves the round with them, so that the
    round is not a draw; it announces these two moves as submitted and no
    other. When exactly one slot is occupied and holds no move, one valid
    move, drawn by index from the three, is assigned to that slot and the
    other slot is left as it is: when the other slot holds a valid move
    the handler resolves the round with the two and announces the one
    assigned move; when the other slot holds none (it is not occupied)
    the handler stores the assignment and does nothing else. When no
    occupied slot lacks a move the handler changes nothing and sends
    nothing. *)
Theorem timeout_assigns_moves (g : GameState) (d : Draws) :
  (needsMove (player1 g) = true -> needsMove (player2 g) = true ->
   Permutation moves (shuffledMoves d) ->
   exists m1 m2 m3,
     shuffledMoves d = [m1; m2; m3] /\ m1 <> m2 /\
     validMove (Some m1) /\ validMove (Some m2) /\
     fst (autoAssign g d) =
       setPlayer2 (setPlayer1 g (setCurrentMove (player1 g) (Some m1)))
         (setCurrentMove (player2 g) (Some m2)) /\
     snd (autoAssign g d) = [(id (player1 g), Some m1); (id (player2 g), Some m2)] /\
     (exists rw, determineWinner (Some m1) (Some m2) = Ok rw /\ rw <> draw) /\
     (forall srv gid now,
        getGame (gameManager srv) gid = Some g ->
        exists g' rw rest,
          getGame (gameManager (fst (handleTimeUp srv gid d now))) gid = Some g' /\
          rw <> draw /\
          moveHistory g' =
            moveHistory g ++ [mkRoundHistory (currentRound g) (Some m1) (Some m2) rw now] /\
          snd (handleTimeUp srv gid d now)
          = EmitMoveSubmitted gid (id (player1 g)) (Some m1)
              :: EmitMoveSubmitted gid (id (player2 g)) (Some m2) :: rest /\
          Forall (fun e => isMoveSubmitted e = false) rest)) /\
  (needsMove (player1 g) = true -> needsMove (player2 g) = false -> pick1 d < 3 ->
   exists m,
     moves !! pick1 d = Some m /\ validMove (Some m) /\
     fst (autoAssign g d) = setPlayer1 g (setCurrentMove (player1 g) (Some m)) /\
     snd (autoAssign g d) = [(id (player1 g), Some m)] /\
     (forall srv gid now,
        getGame (gameManager srv) gid = Some g ->
        (validMove (currentMove (player2 g)) ->
         exists g' rw rest,
           getGame (gameManager (fst (handleTimeUp srv gid d now))) gid = Some g' /\
           determineWinner (Some m) (currentMove (player2 g)) = Ok rw /\
           moveHistory g' =
             moveHistory g ++ [mkRoundHistory (currentRound g) (Some m)
                                 (currentMove (player2 g)) rw now] /\
           snd (handleTimeUp srv gid d now)
           = EmitMoveSubmitted gid (id (player1 g)) (Some m) :: rest /\
           Forall (fun e => isMoveSubmitted e = false) rest) /\
        (currentMove (player2 g) = None ->
         handleTimeUp srv gid d now
         = (withManager srv
              (setGame (gameManager srv) gid
                 (setPlayer1 g (setCurrentMove (player1 g) (Some m)))), [])))) /\
  (needsMove (player1 g) = false -> needsMove (player2 g) = true -> pick2 d < 3 ->
   exists m,
     moves !! pick2 d = Some m /\ validMove (Some m) /\
     fst (autoAssign g d) = setPlayer2 g (setCurrentMove (player2 g) (Some m)) /\
     snd (autoAssign g d) = [(id (player2 g), Some m)] /\
     (forall srv gid now,
        getGame (gameManager srv) gid = Some g ->
        (validMove (currentMove (player1 g)) ->
         exists g' rw rest,
           getGame (gameManager (fst (handleTimeUp srv gid d now))) gid = Some g' /\
           determineWinner (currentMove (player1 g)) (Some m) = Ok rw /\
           moveHistory g' =
             moveHistory g ++ [mkRoundHistory (currentRound g) (currentMove (player1 g))
                                 (Some m) rw now] /\
           snd (handleTimeUp srv gid d now)
           = EmitMoveSubmitted gid (id (player2 g)) (Some m) :: rest /\
           Forall (fun e => isMoveSubmitted e = false) rest) /\
        (currentMove (player1 g) = None ->
         handleTimeUp srv gid d now
         = (withManager srv
              (setGame (gameManager srv) gid
                 (setPlayer2 g (setCurrentMove (player2 g) (Some m)))), [])))) /\
  (needsMove (player1 g) = false -> needsMove (player2 g) = false ->
   autoAssign g d = (g, []) /\
   forall srv gid now,
     getGame (gameManager srv) gid = Some g -> handleTimeUp srv gid d now = (srv, [])).
Proof.
  split; [|split; [|split]].
  - intros Hn1 Hn2 Hp.
    destruct (shuffle_shape _ Hp) as (m1 & m2 & m3 & Hs & Hne & Hv1 & Hv2).
    exists m1, m2, m3.
    assert (Hfst : fst (autoAssign g d) =
              setPlayer2 (setPlayer1 g (setCurrentMove (player1 g) (Some m1)))
                (setCurrentMove (player2 g) (Some m2))).
    { unfold autoAssign. rewrite Hn1, Hn2, Hs. reflexivity. }
    assert (Hsnd : snd (autoAssign g d) =
              [(id (player1 g), Some m1); (id (player2 g), Some m2)]).
    { unfold autoAssign. rewrite Hn1, Hn2, Hs. reflexivity. }
    destruct (determineWinner_distinct m1 m2 Hv1 Hv2 Hne) as (rw & Hrw & Hnd).
    do 6 (split; [done|]).
    split; [by exists rw|].
    intros srv gid now Hg.
    destruct (handleTimeUp_round srv gid d now g Hg) as (g' & rest & Hg' & Hh & He & Hrest).
    + rewrite Hsnd. simpl. lia.
    + by rewrite Hfst.
    + by rewrite Hfst.
    + exists g', rw, rest. split; [done|]. split; [done|].
      split; [|split; [by rewrite He, Hsnd|done]].
      rewrite Hh, Hfst.
      destruct (processRound_entry
        (setPlayer2 (setPlayer1 g (setCurrentMove (player1 g) (Some m1)))
           (setCurrentMove (player2 g) (Some m2))) now Hv1 Hv2) as (rw' & Hrw' & ->).
      cbn in Hrw'. rewrite Hrw in Hrw'. by injection Hrw' as <-.
  - intros Hn1 Hn2 Hi. destruct (pick_valid _ Hi) as (m & Hm & Hv).
    exists m.
    assert (Hfst : fst (autoAssign g d) = setPlayer1 g (setCurrentMove (player1 g) (Some m))).
    { unfold autoAssign. rewrite Hn1, Hn2, Hm. reflexivity. }
    assert (Hsnd : snd (autoAssign g d) = [(id (player1 g), Some m)]).
    { unfold autoAssign. rewrite Hn1, Hn2, Hm. reflexivity. }
    do 4 (split; [done|]).
    intros srv gid now Hg. split.
    + intros Hv2.
      destruct (handleTimeUp_round srv gid d now g Hg)
        as (g' & rest & Hg' & Hh & He & Hrest).
      * rewrite Hsnd. simpl. lia.
      * by rewrite Hfst.
      * by rewrite Hfst.
      * destruct (processRound_entry
          (setPlayer1 g (setCurrentMove (player1 g) (Some m))) now Hv Hv2)
          as (rw & Hrw & Hent).
        exists g', rw, rest. split; [done|]. split; [exact Hrw|].
        split; [by rewrite Hh, Hfst, Hent|]. split; [by rewrite He, Hsnd|done].
    + intros Hnone. rewrite <- Hfst.
      apply handleTimeUp_only_assigns; [done|].
      rewrite Hfst. cbn. rewrite Hnone. by rewrite andb_false_r.
  - intros Hn1 Hn2 Hi. destruct (pick_valid _ Hi) as (m & Hm & Hv).
    exists m.
    assert (Hfst : fst (autoAssign g d) = setPlayer2 g (setCurrentMove (player2 g) (Some m))).
    { unfold autoAssign. rewrite Hn1, Hn2, Hm. reflexivity. }
    assert (Hsnd : snd (autoAssign g d) = [(id (player2 g), Some m)]).
    { unfold autoAssign. rewrite Hn1, Hn2, Hm. reflexivity. }
    do 4 (split; [done|]).
    intros srv gid now Hg. split.
    + intros Hv1.
      destruct (handleTimeUp_round srv gid d now g Hg)
        as (g' & rest & Hg' & Hh & He & Hrest).
      * rewrite Hsnd. simpl. lia.
      * by rewrite Hfst.
      * by rewrite Hfst.
      * destruct (processRound_entry
          (setPlayer2 g (setCurrentMove (player2 g) (Some m))) now Hv1 Hv)
          as (rw & Hrw & Hent).
        exists g', rw, rest. split; [done|]. split; [exact Hrw|].
        split; [by rewrite Hh, Hfst, Hent|]. split; [by rewrite He, Hsnd|done].
    + intros Hnone. rewrite <- Hfst.
      apply handleTimeUp_only_assigns; [done|].
      rewrite Hfst. cbn. by rewrite Hnone.
  - intros Hn1 Hn2.
    assert (Hauto : autoAssign g d = (g, [])) by (unfold autoAssign; by rewrite Hn1, Hn2).
    split; [done|]. intros srv gid now Hg.
    unfold handleTimeUp. rewrite Hg, Hauto. cbn.
    rewrite setGame_same by done. by destruct srv.
Qed.

Lemma timeout_assigns_moves_witness :
  needsMove (player1 aliceBob) = true /\ needsMove (player2 aliceBob) = true /\
  Permutation moves ["paper"; "rock"; "scissors"] /\
  exists m1 m2 m3,
    ["paper"; "rock"; "scissors"] = [m1; m2; m3] /\ m1 <> m2.
Proof.
  assert (Hp : Permutation moves ["paper"; "rock"; "scissors"])
    by (unfold moves; apply perm_swap).
  split; [reflexivity|]. split; [reflexivity|]. split; [exact Hp|].
  destruct (proj1 (timeout_assigns_moves aliceBob
                     (mkDraws ["paper"; "rock"; "scissors"] 0 0))
              eq_refl eq_refl Hp) as (m1 & m2 & m3 & Hs & Hne & _).
  exists m1, m2, m3. split; [exact Hs|exact Hne].
Defined.

(** C7 as stated fails. A round timer can be armed for a
    match that still waits for its second player: the two on-chain
    confirmations start the timer whatever the status of the match. Both
    slots of that match hold no move, yet on expiry the handler assigns
    one move, to the occupied slot, and resolves no round. *)
Lemma timeout_claim_counterexample :
  exists g,
    getGame soloManager "g1" = Some g /\
    gameStatus g = waiting_for_player /\
    currentMove (player1 g) = None /\ currentMove (player2 g) = None /\
    snd (handleOnchainGameJoined
           (fst (handleOnchainGameCreated (<["g1" := (false, false)]> ∅) soloManager
                   (Some "g1")))
           soloManager (Some "g1"))
    = [GameStarted "g1"; StartRoundTimerLater "g1" 15 2000] /\
    Permutation moves ["paper"; "rock"; "scissors"] /\
    exists g',
      getGame (gameManager
                 (fst (handleTimeUp (mkServer soloManager ∅ ∅ ∅) "g1"
                         (mkDraws ["paper"; "rock"; "scissors"] 0 0) 5))) "g1" = Some g' /\
      currentMove (player1 g') = Some "rock" /\ currentMove (player2 g') = None /\
      moveHistory g' = [] /\
      snd (handleTimeUp (mkServer soloManager ∅ ∅ ∅) "g1"
             (mkDraws ["paper"; "rock"; "scissors"] 0 0) 5) = [].
Proof.
  eexists. split; [vm_compute; reflexivity|].
  split; [reflexivity|]. split; [reflexivity|]. split; [reflexivity|].
  split; [vm_compute; reflexivity|].
  split; [unfold moves; apply perm_swap|].
  eexists. split; [vm_compute; reflexivity|].
  split; [reflexivity|]. split; [reflexivity|]. split; [reflexivity|].
  vm_compute. reflexivity.
Qed.

(** ** Disconnection *)

(** C4, on the code. The disconnect handler names [gameId] the match
    object [getPlayerGame] returns and looks it up with [getGame]; the
    lookup finds nothing, so for every server state and socket the handler
    schedules no deferred check, sends nothing and leaves the registry and
    the timers as they are. In particular, when alice disconnects from
    her active match with bob and never reconnects, the match stays
    playing without a winner; and the deferred check itself, were it run,
    would change no match before failing on [removeGame]. *)
Theorem disconnect_never_forfeits (srv : Server) (sock : string) :
  snd (onDisconnect srv sock) = [] /\
  gameManager (fst (onDisconnect srv sock)) = gameManager srv /\
  gameTimers (fst (onDisconnect srv sock)) = gameTimers srv /\
  (exists g,
     getPlayerGame (gameManager connectedServer) "alice" = Some g /\
     gameStatus g = playing /\
     playerSockets (fst (onDisconnect connectedServer "s1")) !! "alice" = None /\
     getGame (gameManager (fst (onDisconnect connectedServer "s1"))) "m1" = Some g /\
     winner g = None /\
     forfeitCheck (fst (onDisconnect connectedServer "s1")) "alice" g =
       (fst (onDisconnect connectedServer "s1"),
        [EmitGameFinished "m1" (Some "bob")], RemoveGameIsNotAFunction)).
Proof.
  split; [|split; [|split]].
  - unfold onDisconnect. repeat case_match; simplify_eq; simpl in *; done.
  - unfold onDisconnect. repeat case_match; done.
  - unfold onDisconnect. repeat case_match; done.
  - eexists. split; [vm_compute; reflexivity|]. by vm_compute.
Qed.

(** ** The sweep of finished matches *)

Lemma forgetOccupants_holds g pg p :
  holdsSlot g p -> forgetOccupants g pg !! p = None.
Proof.
  intros [Hne [H1|H2]]; unfold forgetOccupants.
  - rewrite H1. rewrite (proj2 (truthy_Some p) Hne).
    destruct (id (player2 g)) as [q|]; [|apply lookup_delete_eq].
    case_match; [|apply lookup_delete_eq].
    destruct (decide (q = p)) as [->|Hqp]; [apply lookup_delete_eq|].
    rewrite lookup_delete_ne by done. apply lookup_delete_eq.
  - rewrite H2. rewrite (proj2 (truthy_Some p) Hne). apply lookup_delete_eq.
Qed.

Lemma forgetOccupants_other g pg p :
  ~ holdsSlot g p -> forgetOccupants g pg !! p = pg !! p.
Proof.
  intros Hn. unfold forgetOccupants.
  assert (H1 : forall q, id (player1 g) = Some q -> truthy (Some q) = true -> q <> p).
  { intros q Hq Ht ->. apply Hn. split; [by apply truthy_Some|by left]. }
  assert (H2 : forall q, id (player2 g) = Some q -> truthy (Some q) = true -> q <> p).
  { intros q Hq Ht ->. apply Hn. split; [by apply truthy_Some|by right]. }
  destruct (id (player1 g)) as [q1|], (id (player2 g)) as [q2|];
    repeat case_match; rewrite ?lookup_delete_ne; auto.
Qed.

Lemma forgetOccupants_None g pg p : pg !! p = None -> forgetOccupants g pg !! p = None.
Proof.
  intros Hp. unfold forgetOccupants.
  repeat case_match; rewrite ?lookup_delete_None; auto.
Qed.

Lemma forgetAll_None now maxAge l pg p : pg !! p = None -> forgetAll now maxAge l pg !! p = None.
Proof.
  revert pg. induction l as [|kv l IH]; intros pg Hp; [done|].
  unfold forgetAll in *. simpl. apply IH. case_match; [|done].
  by apply forgetOccupants_None.
Qed.

Lemma forgetAll_swept now maxAge l pg p :
  sweptWith now maxAge l p -> forgetAll now maxAge l pg !! p = None.
Proof.
  revert pg. induction l as [|kv l IH]; intros pg (k & g & Hin & Hold & Hs).
  - inversion Hin.
  - apply elem_of_cons in Hin as [<-|Hin].
    + unfold forgetAll. simpl. rewrite Hold. apply forgetAll_None.
      by apply forgetOccupants_holds.
    + unfold forgetAll in *. simpl. apply IH. by exists k, g.
Qed.

Lemma forgetAll_not_swept now maxAge l pg p :
  ~ sweptWith now maxAge l p -> forgetAll now maxAge l pg !! p = pg !! p.
Proof.
  revert pg. induction l as [|[k g] l IH]; intros pg Hn; [done|].
  unfold forgetAll in *. simpl. rewrite IH.
  - destruct (isOldFinished now maxAge g) eqn:Hold; [|done].
    apply forgetOccupants_other. intros Hs. apply Hn. exists k, g.
    split; [left|done].
  - intros (k' & g' & Hin & Hold & Hs). apply Hn. exists k', g'.
    split; [by right|done].
Qed.

(** The loop of [cleanupOldGames], as the ids it collects and the map it
    leaves. *)
Lemma cleanup_loop now maxAge l ids pg :
  foldl (fun acc kv =>
           if isOldFinished now maxAge (snd kv)
           then (fst acc ++ [fst kv], forgetOccupants (snd kv) (snd acc))
           else acc) (ids, pg) l =
  (ids ++ (fst <$> List.filter (fun kv => isOldFinished now maxAge (snd kv)) l),
   forgetAll now maxAge l pg).
Proof.
  revert ids pg. induction l as [|[k g] l IH]; intros ids pg; simpl.
  - by rewrite app_nil_r.
  - unfold forgetAll. simpl. destruct (isOldFinished now maxAge g); simpl.
    + rewrite IH. unfold forgetAll. by rewrite <- app_assoc.
    + by rewrite IH.
Qed.

Lemma mapDelete_all (l : list (string * GameState)) ids :
  foldl (fun m gid => mapDelete gid m) l ids = filter (fun kv => fst kv ∉ ids) l.
Proof.
  revert l. induction ids as [|k ids IH]; intros l; simpl.
  - induction l as [|kv l IHl]; [done|].
    rewrite filter_cons_True by (apply not_elem_of_nil). by rewrite <- IHl.
  - rewrite IH. unfold mapDelete. rewrite list_filter_filter.
    apply list_filter_iff. intros kv. rewrite not_elem_of_cons. tauto.
Qed.

Lemma filter_not_old now maxAge (l : list (string * GameState)) :
  NoDup (fst <$> l) ->
  filter (fun kv => fst kv ∉ (fst <$> List.filter (fun kv => isOldFinished now maxAge (snd kv)) l)) l
  = List.filter (fun kv => negb (isOldFinished now maxAge (snd kv))) l.
Proof.
  intros Hnd.
  assert (Hkey : forall kv, kv ∈ l ->
            (fst kv ∈ (fst <$> List.filter (fun kv => isOldFinished now maxAge (snd kv)) l)
             <-> isOldFinished now maxAge (snd kv) = true)).
  { intros [k g] Hin. simpl. rewrite list_elem_of_fmap. split.
    - intros ([k' g'] & Hk & Hin'). simpl in Hk. subst k'.
      apply list_elem_of_In, List.filter_In in Hin' as [Hin' Hold].
      apply list_elem_of_In in Hin'.
      assert (g' = g) as ->; [|done].
      pose proof (mapGet_elem_NoDup k g l Hnd Hin) as E1.
      pose proof (mapGet_elem_NoDup k g' l Hnd Hin') as E2. congruence.
    - intros Hold. exists (k, g). split; [done|].
      apply list_elem_of_In, List.filter_In. split; [by apply list_elem_of_In|done]. }
  clear Hnd.
  generalize dependent (fst <$> List.filter (fun kv => isOldFinished now maxAge (snd kv)) l).
  intros ids Hkey.
  induction l as [|kv l IH]; [done|].
  assert (Hrest : forall kv', kv' ∈ l ->
            (fst kv' ∈ ids <-> isOldFinished now maxAge (snd kv') = true))
    by (intros; apply Hkey; by right).
  simpl. destruct (isOldFinished now maxAge (snd kv)) eqn:Hold; simpl.
  - rewrite filter_cons_False; [by apply IH|].
    intros Hn. apply Hn. apply Hkey; [left|done].
  - rewrite filter_cons_True; [by rewrite IH|].
    intros Hin. apply Hkey in Hin; [congruence|left].
Qed.

Lemma mapGet_filter (f : string * GameState -> bool) k g l :
  mapGet k l = Some g -> f (k, g) = true -> mapGet k (List.filter f l) = Some g.
Proof.
  intros Hg Hf. induction l as [|[k' v] l IH]; [done|].
  simpl in Hg |- *. case_bool_decide as Hk.
  - simplify_eq. rewrite Hf. simpl. by rewrite bool_decide_eq_true_2.
  - destruct (f (k', v)); simpl; [|by apply IH].
    rewrite bool_decide_eq_false_2 by done. by apply IH.
Qed.

(** C10. [cleanupOldGames(maxAge)] removes exactly the stored matches that
    are finished and older than [maxAge], and reports their number. For
    each removed match it deletes the map entries keyed by the identities
    in its slots, whatever they point at: a player in a slot of a removed
    match has no entry afterwards, any other player keeps theirs. So a
    player of a removed match who was mapped to another match, which is
    kept, has lost that mapping after the sweep. *)
Theorem cleanupOldGames_spec (gm : GameManager) (maxAge now : Z) :
  NoDup (fst <$> games gm) ->
  let gm' := fst (cleanupOldGames gm maxAge now) in
  games gm' =
    List.filter (fun kv => negb (isOldFinished now maxAge (snd kv))) (games gm) /\
  snd (cleanupOldGames gm maxAge now) =
    length (List.filter (fun kv => isOldFinished now maxAge (snd kv)) (games gm)) /\
  publicQueue gm' = publicQueue gm /\
  (forall p, sweptWith now maxAge (games gm) p -> playerGames gm' !! p = None) /\
  (forall p, ~ sweptWith now maxAge (games gm) p ->
             playerGames gm' !! p = playerGames gm !! p) /\
  (forall p kOld gOld kLive gLive,
     getGame gm kOld = Some gOld -> isOldFinished now maxAge gOld = true ->
     holdsSlot gOld p ->
     playerGames gm !! p = Some kLive -> getGame gm kLive = Some gLive ->
     isOldFinished now maxAge gLive = false ->
     playerGames gm' !! p = None /\ getGame gm' kLive = Some gLive).
Proof.
  intros Hnd. unfold cleanupOldGames.
  rewrite (cleanup_loop now maxAge (games gm) [] (playerGames gm)). simpl.
  rewrite mapDelete_all, filter_not_old by done.
  split; [done|]. split; [by rewrite length_fmap|]. split; [done|].
  split; [intros; by apply forgetAll_swept|].
  split; [intros; by apply forgetAll_not_swept|].
  intros p kOld gOld kLive gLive HgOld Hold Hs Hp HgLive Hlive. split.
  - apply forgetAll_swept. exists kOld, gOld. split; [|done].
    by apply mapGet_Some_elem.
  - unfold getGame. simpl. apply mapGet_filter; [done|]. simpl. by rewrite Hlive.
Qed.

Lemma cleanupOldGames_spec_witness :
  NoDup (fst <$> games sweepManager) /\
  playerGames sweepManager !! "alice" = Some "m2" /\
  playerGames (fst (cleanupOldGames sweepManager 0 30000)) !! "alice" = None.
Proof.
  assert (Hnd : NoDup (fst <$> games sweepManager)).
  { apply (bool_decide_unpack _). vm_compute. exact I. }
  split; [exact Hnd|]. split; [vm_compute; reflexivity|].
  destruct (cleanupOldGames_spec sweepManager 0 30000 Hnd)
    as (_ & _ & _ & Hswept & _).
  apply Hswept.
  let o := eval vm_compute in (getGame sweepManager "m1") in
  match o with
  | Some ?g =>
      assert (Hg : getGame sweepManager "m1" = Some g) by (vm_compute; reflexivity);
      exists "m1", g
  end.
  split; [exact (getGame_Some_elem _ _ _ Hg)|].
  split; [vm_compute; reflexivity|].
  split; [discriminate|left; reflexivity].
Defined.

(** ** The lookup of [submitMove] *)

Lemma registryWf_key gm k g : registryWf gm -> getGame gm k = Some g -> k <> "".
Proof.
  intros (_ & Hk & _) Hg ->. apply (Hk g). by apply mapGet_Some_elem.
Qed.

Lemma registryWf_elem gm k g : registryWf gm -> (k, g) ∈ games gm -> getGame gm k = Some g.
Proof. intros (Hnd & _ & _) Hin. by apply mapGet_elem_NoDup. Qed.

Lemma find_rev_elem {A} (f : A -> bool) (l : list A) x :
  List.find f (rev l) = Some x -> x ∈ l /\ f x = true.
Proof.
  intros Hf. apply List.find_some in Hf as [Hin Hfx]. split; [|done].
  apply list_elem_of_In. by apply List.in_rev.
Qed.









Lemma find_rev_all_false {A} (f : A -> bool) (l : list A) :
  (forall x, x ∈ l -> f x = false) -> List.find f (rev l) = None.
Proof.
  intros Hall. destruct (List.find f (rev l)) as [x|] eqn:Hf; [|done].
  apply find_rev_elem in Hf as [Hin Hfx]. rewrite (Hall x Hin) in Hfx. done.
Qed.




(** ** Where the well-formedness of the registry comes from *)

Lemma mapSet_elem {V} k (v : V) m k' v' :
  (k', v') ∈ mapSet k v m -> (k' = k /\ v' = v) \/ (k', v') ∈ m.
Proof.
  induction m as [|[k0 v0] m IH]; simpl.
  - intros [= -> ->]%list_elem_of_singleton. by left.
  - case_bool_decide as Hk.
    + intros [[= -> ->]|Hin]%elem_of_cons; [by left|right; by right].
    + intros [[= -> ->]|Hin]%elem_of_cons; [right; by left|].
      destruct (IH Hin) as [?|?]; [by left|right; by right].
Qed.

Lemma mapSet_keys_NoDup {V} k (v : V) (m : list (string * V)) :
  NoDup (fst <$> m) -> NoDup (fst <$> mapSet k v m).
Proof.
  induction m as [|[k0 v0] m IH]; simpl; [intros _; apply NoDup_singleton|].
  rewrite NoDup_cons. intros [Hnotin Hnd].
  case_bool_decide as Hk; simpl.
  - subst k0. apply NoDup_cons. done.
  - apply NoDup_cons. split; [|by apply IH].
    rewrite list_elem_of_fmap. intros ([k1 v1] & Hk1 & Hin). simpl in Hk1. subst k1.
    apply mapSet_elem in Hin as [[? _]|Hin]; [done|].
    apply Hnotin. apply list_elem_of_fmap. by exists (k0, v1).
Qed.

Lemma registryWf_new : registryWf newGameManager.
Proof.
  split; [apply NoDup_nil_2|]. split; [by intros g ?%elem_of_nil|].
  intros p k Hp. unfold newGameManager in Hp. cbn [playerGames] in Hp.
  by rewrite lookup_empty in Hp.
Qed.

Lemma registryWf_setGame gm gid g :
  registryWf gm -> gid <> "" -> registryWf (setGame gm gid g).
Proof.
  intros (Hnd & Hkeys & Hvals) Hgid. split; [by apply mapSet_keys_NoDup|].
  split; [|done].
  intros g0 Hin. apply mapSet_elem in Hin as [[? _]|Hin]; [done|]. by apply (Hkeys g0).
Qed.

Lemma registryWf_entries gm pg :
  registryWf gm -> (forall p k, pg !! p = Some k -> k <> "") ->
  registryWf (withPlayerGames gm pg).
Proof. intros (Hnd & Hkeys & Hvals) Hpg. by split. Qed.

Lemma registryWf_delete gm p :
  registryWf gm -> registryWf (withPlayerGames gm (delete p (playerGames gm))).
Proof.
  intros Hwf. apply registryWf_entries; [done|].
  intros q k [_ Hq]%lookup_delete_Some. by apply (proj2 (proj2 Hwf) q).
Qed.

Lemma registryWf_insert gm p k :
  registryWf gm -> k <> "" -> registryWf (withPlayerGames gm (<[p:=k]> (playerGames gm))).
Proof.
  intros Hwf Hk. apply registryWf_entries; [done|].
  intros q k' [[_ <-]|[_ Hq]]%lookup_insert_Some; [done|]. by apply (proj2 (proj2 Hwf) q).
Qed.

Lemma registryWf_same gm gm' :
  games gm' = games gm -> playerGames gm' = playerGames gm ->
  registryWf gm -> registryWf gm'.
Proof. unfold registryWf. by intros -> ->. Qed.

(** [createGame] keeps the registry well formed unless it stores the
    match under the empty identifier. *)
Lemma createGame_registryWf db gm gtype stake cur creator sock w provided uuid now :
  registryWf gm ->
  (forall r, snd (createGame db gm gtype stake cur creator sock w provided uuid now) = Ok r ->
     resGameId r <> "") ->
  registryWf (fst (createGame db gm gtype stake cur creator sock w provided uuid now)).
Proof.
  intros Hwf. unfold createGame.
  match goal with
  | |- context [match ?c with Some e => (gm, Throw e) | None => _ end] =>
      destruct c as [e|]; [done|]
  end.
  match goal with
  | |- context [createGameState ?k gtype stake cur now] => generalize k; intros gid
  end.
  cbv zeta.
  assert (Hplain : (forall r, Ok (mkGameResult gid (createGameState gid gtype stake cur now)
                                     None None false) = Ok r -> resGameId r <> "") ->
                   registryWf (setGame gm gid (createGameState gid gtype stake cur now))).
  { intros Hid. apply registryWf_setGame; [done|]. by apply (Hid _ eq_refl). }
  destruct creator as [c|]; [|exact Hplain].
  destruct (truthy (Some c) && truthy sock); [|exact Hplain].
  destruct (addPlayer (createGameState gid gtype stake cur now) c sock w)
    as [g1 [pos|e]]; cbn [fst snd].
  - intros Hid. specialize (Hid _ eq_refl). cbn [resGameId] in Hid.
    apply registryWf_insert; [|done]. apply registryWf_setGame; [|done].
    by apply registryWf_delete.
  - intros _. by apply registryWf_delete.
Qed.

Lemma joinGame_registryWf db gm gid playerId sock w :
  registryWf gm -> registryWf (fst (joinGame db gm gid playerId sock w)).
Proof.
  intros Hwf. unfold joinGame.
  destruct (getGame gm gid) as [g|] eqn:Hg; [|done].
  assert (Hgid : gid <> "").
  { intros ->. apply getGame_Some_elem in Hg. by apply (proj1 (proj2 Hwf) g). }
  do 3 (case_match; [done|]).
  set (gm1 := match playerGames gm !! playerId with
              | Some oldGameId =>
                  if bool_decide (oldGameId <> gid)
                  then withPlayerGames gm (delete playerId (playerGames gm)) else gm
              | None => gm
              end).
  assert (Hwf1 : registryWf gm1).
  { subst gm1. repeat case_match; try done; by apply registryWf_delete. }
  destruct (addPlayer g playerId sock w) as [g1 [pos|e]]; cbn [fst]; [|done].
  set (gm3 := withPlayerGames (setGame gm1 gid _) _).
  assert (Hy : registryWf gm3)
    by (apply registryWf_insert; [by apply registryWf_setGame|done]).
  repeat case_match; try done; by apply registryWf_insert.
Qed.

Lemma removePlayer_registryWf gm playerId :
  registryWf gm -> registryWf (fst (removePlayer gm playerId)).
Proof.
  intros Hwf. unfold removePlayer. cbv zeta. cbn [playerGames withPublicQueue].
  assert (Hq : registryWf (withPublicQueue gm (removeFirstTicket playerId (publicQueue gm))))
    by (by apply (registryWf_same gm)).
  destruct (playerGames gm !! playerId) as [gid|] eqn:Hp; [|done].
  case_match; [done|].
  rewrite getGame_withPublicQueue.
  destruct (getGame gm gid) as [g|] eqn:Hg; [|done]. cbn [fst].
  apply registryWf_entries.
  - apply registryWf_setGame; [exact Hq|]. by apply (proj2 (proj2 Hwf) playerId).
  - intros q k [_ Hk]%lookup_delete_Some. by apply (proj2 (proj2 Hwf) q).
Qed.

Lemma submitMoveLookup_registryWf gm playerId hint :
  registryWf gm -> registryWf (fst (submitMoveLookup gm playerId hint)).
Proof.
  intros Hwf. unfold submitMoveLookup.
  destruct (truthy (playerGames gm !! playerId)); [done|].
  match goal with
  | |- registryWf (fst (let '(_, _) := ?X in _)) => destruct X as [gm1 gid1] eqn:E1
  end.
  assert (Hwf1 : registryWf gm1).
  { destruct hint as [r|]; [|by simplify_eq].
    destruct (truthy (Some r)); [|by simplify_eq].
    destruct (getGame gm r) as [rg|] eqn:Hr; [|by simplify_eq].
    destruct (occupies rg playerId && bool_decide (gameStatus rg = playing));
      simplify_eq; [|done].
    apply registryWf_insert; [done|]. by eapply registryWf_key. }
  match goal with
  | |- registryWf (fst (let '(_, _) := ?X in _)) => destruct X as [gm2 gid2] eqn:E2
  end.
  assert (Hwf2 : registryWf gm2).
  { destruct (negb (truthy gid1)); [|by simplify_eq].
    destruct (List.find _ (rev (games gm1))) as [[k g]|] eqn:Hf; simplify_eq; [|done].
    apply find_rev_elem in Hf as [Hin _].
    apply registryWf_insert; [done|].
    eapply registryWf_key; [done|by apply registryWf_elem]. }
  destruct (negb (truthy gid2)); [|done].
  destruct (List.find _ (rev (games gm2))) as [[k g]|] eqn:Hf; [|done].
  apply find_rev_elem in Hf as [Hin _]. cbn [fst].
  apply registryWf_insert; [done|].
  eapply registryWf_key; [done|by apply registryWf_elem].
Qed.

Lemma submitMove_registryWf gm playerId move hint now :
  registryWf gm -> registryWf (fst (submitMove gm playerId move hint now)).
Proof.
  intros Hwf.
  pose proof (submitMoveLookup_registryWf gm playerId hint Hwf) as Hwf1.
  unfold submitMove.
  destruct (submitMoveLookup gm playerId hint) as [gm1 gameId]. cbn [fst snd] in *.
  destruct gameId as [gid|]; [|done].
  case_match; [done|].
  destruct (getGame gm1 gid) as [g|] eqn:Hg; [|done].
  case_match; [done|].
  assert (Hgid : gid <> "").
  { intros ->. apply getGame_Some_elem in Hg. by apply (proj1 (proj2 Hwf1) g). }
  destruct (processMove g playerId move now) as [g1 [r|e]]; cbn [fst];
    by apply registryWf_setGame.
Qed.


(** ** Matchmaking *)

(** What [addPlayer] does to the identities in the slots. *)
Lemma addPlayer_ids g playerId sock w :
  let g' := fst (addPlayer g playerId sock w) in
  (id (player1 g') = id (player1 g) /\ id (player2 g') = id (player2 g)) \/
  (id (player2 g) <> Some playerId /\
   id (player1 g') = Some playerId /\ id (player2 g') = id (player2 g)) \/
  (id (player1 g) <> Some playerId /\
   id (player1 g') = id (player1 g) /\ id (player2 g') = Some playerId).
Proof.
  unfold addPlayer.
  case_bool_decide as E1; [left; simpl; by destruct (truthy w)|].
  case_bool_decide as E2.
  { left. simpl. destruct (truthy w); simpl; by case_match. }
  case_bool_decide as E3; [right; left; done|].
  case_bool_decide as E4; [right; right; done|].
  by left.
Qed.

Lemma addPlayer_not_selfPaired g playerId sock w :
  ~ selfPaired g -> ~ selfPaired (fst (addPlayer g playerId sock w)).
Proof.
  intros Hn (x & Hx1 & Hx2).
  destruct (addPlayer_ids g playerId sock w)
    as [[H1 H2] | [(Hne & H1 & H2) | (Hne & H1 & H2)]];
    rewrite H1 in Hx1; rewrite H2 in Hx2.
  - apply Hn. by exists x.
  - congruence.
  - congruence.
Qed.

Lemma removePlayerFromGame_not_selfPaired g playerId :
  ~ selfPaired g -> ~ selfPaired (removePlayerFromGame g playerId).
Proof.
  intros Hn (x & Hx1 & Hx2). apply Hn. revert Hx1 Hx2.
  unfold removePlayerFromGame.
  repeat case_match; simpl; try done; intros; by exists x.
Qed.

Lemma noSelfPairing_setGame gm gid g :
  noSelfPairing gm -> ~ selfPaired g -> noSelfPairing (setGame gm gid g).
Proof.
  intros Hall Hg k g' Hk.
  destruct (decide (gid = k)) as [->|Hne].
  - rewrite getGame_setGame_eq in Hk. by simplify_eq.
  - rewrite getGame_setGame_ne in Hk by done. by eapply Hall.
Qed.

Lemma noSelfPairing_same_games gm gm' :
  games gm' = games gm -> noSelfPairing gm -> noSelfPairing gm'.
Proof. intros Heq Hall k g Hk. apply (Hall k g). unfold getGame in *. by rewrite <- Heq. Qed.

Lemma removePlayer_effect gm playerId :
  publicQueue (fst (removePlayer gm playerId)) = removeFirstTicket playerId (publicQueue gm) /\
  (noSelfPairing gm -> noSelfPairing (fst (removePlayer gm playerId))).
Proof.
  unfold removePlayer. simpl.
  destruct (playerGames gm !! playerId) as [gid|]; simpl;
    [|split; [done|by apply noSelfPairing_same_games]].
  case_match; simpl; [split; [done|by apply noSelfPairing_same_games]|].
  rewrite getGame_withPublicQueue.
  destruct (getGame gm gid) as [g0|] eqn:Hg; simpl;
    [|split; [done|by apply noSelfPairing_same_games]].
  split; [done|]. intros Hall.
  eapply noSelfPairing_same_games
    with (gm := setGame gm gid (removePlayerFromGame g0 playerId)); [done|].
  apply noSelfPairing_setGame; [done|].
  apply removePlayerFromGame_not_selfPaired. by eapply Hall.
Qed.

Lemma joinGame_effect db gm gid playerId sock w :
  publicQueue (fst (joinGame db gm gid playerId sock w)) = publicQueue gm /\
  (noSelfPairing gm ->
   noSelfPairing (fst (joinGame db gm gid playerId sock w)) /\
   forall r, snd (joinGame db gm gid playerId sock w) = Ok r ->
             ~ selfPaired (resGameState r)).
Proof.
  unfold joinGame.
  destruct (getGame gm gid) as [g0|] eqn:Hg; [|by split].
  case_bool_decide as Hf; [by split|].
  case_bool_decide as Hp; [by split|].
  case_match; [by split|].
  pose proof (addPlayer_not_selfPaired g0 playerId sock w) as Hadd.
  destruct (addPlayer g0 playerId sock w) as [g1 [pos|e]]; simpl in *.
  - set (g2 := if bool_decide (currency g0 = "sol")
               then setPlayer2 g1 (setStakeDeposited (player2 g1) true) else g1).
    assert (Hg2 : ~ selfPaired g0 -> ~ selfPaired g2).
    { intros Hn. subst g2.
      destruct (bool_decide (currency g0 = "sol")); [|by apply Hadd].
      intros (x & Hx1 & Hx2). apply (Hadd Hn). by exists x. }
    split.
    + repeat case_match; done.
    + intros Hall. split.
      * eapply noSelfPairing_same_games with (gm := setGame _ gid g2).
        { repeat case_match; done. }
        apply noSelfPairing_setGame.
        { eapply noSelfPairing_same_games; [|exact Hall]. repeat case_match; done. }
        apply Hg2. by eapply Hall.
      * intros r [= <-]. simpl. apply Hg2. by eapply Hall.
  - split; [repeat case_match; done|].
    intros Hall. split; [|done].
    eapply noSelfPairing_same_games; [|exact Hall]. repeat case_match; done.
Qed.

Lemma createGame_effect db gm gtype stake cur creator sock w provided uuid now :
  publicQueue (fst (createGame db gm gtype stake cur creator sock w provided uuid now))
    = publicQueue gm /\
  (noSelfPairing gm ->
   noSelfPairing (fst (createGame db gm gtype stake cur creator sock w provided uuid now)) /\
   forall r, snd (createGame db gm gtype stake cur creator sock w provided uuid now) = Ok r ->
             ~ selfPaired (resGameState r)).
Proof.
  unfold createGame.
  match goal with
  | |- context [match ?c with Some e => (gm, Throw e) | None => _ end] =>
      destruct c as [e|]; [by split|]
  end.
  match goal with
  | |- context [createGameState ?k gtype stake cur now] =>
      generalize k; intros gid
  end.
  assert (Hfresh : ~ selfPaired (createGameState gid gtype stake cur now)).
  { intros (x & Hx & _). simpl in Hx. done. }
  assert (Hplain : publicQueue (setGame gm gid (createGameState gid gtype stake cur now))
                   = publicQueue gm /\
     (noSelfPairing gm ->
      noSelfPairing (setGame gm gid (createGameState gid gtype stake cur now)) /\
      forall r, Ok (mkGameResult gid (createGameState gid gtype stake cur now)
                      None None false) = Ok r ->
                ~ selfPaired (resGameState r))).
  { split; [done|]. intros Hall. split; [by apply noSelfPairing_setGame|].
    by intros r [= <-]. }
  destruct creator as [c|]; [|exact Hplain].
  destruct (truthy (Some c) && truthy sock); [|exact Hplain].
  pose proof (addPlayer_not_selfPaired _ c sock w Hfresh) as Hadd.
  destruct (addPlayer (createGameState gid gtype stake cur now) c sock w)
    as [g1 [pos|e]]; simpl in *.
  - set (g2 := if bool_decide (cur = "sol")
               then setPlayer1 g1 (setStakeDeposited (player1 g1) true) else g1).
    assert (Hg2 : ~ selfPaired g2).
    { subst g2. destruct (bool_decide (cur = "sol")); [|done].
      intros (x & Hx1 & Hx2). apply Hadd. by exists x. }
    split; [done|]. intros Hall. split.
    + eapply noSelfPairing_same_games with (gm := setGame _ gid g2); [done|].
      apply noSelfPairing_setGame; [|done].
      by eapply noSelfPairing_same_games; [|exact Hall].
    + by intros r [= <-].
  - split; [done|]. intros Hall. split; [|done].
    by eapply noSelfPairing_same_games; [|exact Hall].
Qed.

(** The queue, as the list of its players. *)
Lemma removeFirstTicket_NoDup (p : string) (q : list Ticket) :
  NoDup (ticketPlayerId <$> q) -> NoDup (ticketPlayerId <$> removeFirstTicket p q).
Proof.
  induction q as [|t q IH]; [done|]. simpl. intros [Ht Hq]%NoDup_cons.
  case_bool_decide; [done|]. simpl. apply NoDup_cons. split; [|by apply IH].
  intros Hin. apply Ht. clear -Hin.
  induction q as [|t' q IHq]; [done|]. simpl in *.
  case_bool_decide; [by right|].
  apply elem_of_cons in Hin as [->|Hin]; [left|right; by apply IHq].
Qed.

Lemma queue_filter_elem (P : Ticket -> Prop) `{!forall t, Decision (P t)}
    (q : list Ticket) (x : string) :
  x ∈ ticketPlayerId <$> filter P q -> x ∈ ticketPlayerId <$> q.
Proof.
  rewrite !list_elem_of_fmap. intros (t & -> & Hin%list_elem_of_filter).
  exists t. by destruct Hin.
Qed.

Lemma queue_filter_NoDup (P : Ticket -> Prop) `{!forall t, Decision (P t)}
    (q : list Ticket) :
  NoDup (ticketPlayerId <$> q) -> NoDup (ticketPlayerId <$> filter P q).
Proof.
  induction q as [|t q IH]; [done|]. simpl. intros [Ht Hq]%NoDup_cons.
  destruct (decide (P t)).
  - rewrite filter_cons_True by done. simpl. apply NoDup_cons. split; [|by apply IH].
    intros Hin. apply Ht. by eapply queue_filter_elem.
  - rewrite filter_cons_False by done. by apply IH.
Qed.

Lemma queue_filter_absent (p : string) (q : list Ticket) :
  p ∉ ticketPlayerId <$> filter (fun t => ticketPlayerId t <> p) q.
Proof.
  rewrite list_elem_of_fmap. intros (t & -> & Hin%list_elem_of_filter).
  by destruct Hin.
Qed.

Lemma queue_push_NoDup (p : string) (q : list Ticket) (t : Ticket) :
  ticketPlayerId t = p ->
  NoDup (ticketPlayerId <$> q) ->
  NoDup (ticketPlayerId <$> (filter (fun t => ticketPlayerId t <> p) q ++ [t])).
Proof.
  intros Ht Hq. rewrite fmap_app. apply NoDup_app. split; [by apply queue_filter_NoDup|].
  split; [|apply NoDup_singleton].
  intros x Hx Hin. simpl in Hin. apply list_elem_of_singleton in Hin. subst x.
  rewrite Ht in Hx. by apply (queue_filter_absent p q).
Qed.

Lemma matchmakingKeeps_from playerId sock now gm gm' out :
  (noSelfPairing gm -> noSelfPairing gm') ->
  (oneTicketEach gm -> oneTicketEach gm') ->
  matchmakingKeeps playerId sock now gm' out ->
  matchmakingKeeps playerId sock now gm out.
Proof.
  intros Hs Hq (K1 & K2 & K3). split; [|split]; auto.
Qed.

Lemma joinGame_keeps db gm gid playerId sock w now :
  matchmakingKeeps playerId sock now gm (joinGame db gm gid playerId sock w).
Proof.
  destruct (joinGame_effect db gm gid playerId sock w) as [Hq Hs].
  split; [done|]. split.
  - unfold oneTicketEach. by rewrite Hq.
  - intros r Hr Hin. exfalso. revert Hr Hin. unfold joinGame.
    repeat case_match; simpl; intros; simplify_eq; done.
Qed.

Lemma enterQueue_keeps db gm playerId sock stake cur w uuid now :
  matchmakingKeeps playerId sock now gm (enterQueue db gm playerId sock stake cur w uuid now).
Proof.
  unfold enterQueue.
  set (q := filter (fun p => ticketPlayerId p <> playerId) (publicQueue gm)).
  set (t := mkTicket playerId sock stake cur w now).
  set (gm1 := withPublicQueue gm (q ++ [t])).
  destruct (createGame_effect db gm1 "public" stake cur (Some playerId) sock w None uuid now)
    as [Hq Hs].
  destruct (createGame db gm1 "public" stake cur (Some playerId) sock w None uuid now)
    as [gm2 [r|e]]; unfold matchmakingKeeps; simpl in *.
  - split; [|split].
    + intros Hall. destruct Hs as [Hs1 Hs2]; [by eapply noSelfPairing_same_games|].
      split; [done|]. intros r' [= <-]. simpl. by apply Hs2.
    + unfold oneTicketEach. rewrite Hq. subst gm1 q t. simpl.
      intros Hnd. by apply queue_push_NoDup.
    + intros r' _ _. exists q, t. rewrite Hq. split; [done|]. do 3 (split; [done|]).
      intros t' Hin%list_elem_of_filter. by destruct Hin.
  - split; [|split].
    + intros Hall. destruct Hs as [Hs1 Hs2]; [by eapply noSelfPairing_same_games|].
      by split.
    + unfold oneTicketEach. rewrite Hq. subst gm1 q t. simpl.
      intros Hnd. by apply queue_push_NoDup.
    + done.
Qed.

(** C9. The waiting-match search and the queue search of
    [findRandomMatch] accept no entry whose player is the requester. In a
    registry where no match has the same player in both slots, none has
    after [findRandomMatch], and the match it hands back does not: the
    requester is never paired with itself. A queue with at most one ticket
    per player still has at most one per player afterwards; when the
    requester is put in the queue, any ticket they had is dropped and the
    new ticket, at the end of the queue, is their only one. *)
Theorem matchmaking_never_self_pairs (db : string -> Q -> bool) (gm : GameManager)
    (playerId : string) (sock : option string) (stake : Q) (cur : string)
    (w : option string) (uuid1 uuid2 : string) (now : Z) :
  (forall st c g,
     waitingMatchFor playerId st c g = true -> id (player1 g) <> Some playerId) /\
  (forall st c t,
     queuedMatchFor playerId st c t = true -> ticketPlayerId t <> playerId) /\
  (noSelfPairing gm ->
   noSelfPairing (fst (findRandomMatch db gm playerId sock stake cur w uuid1 uuid2 now)) /\
   forall r,
     snd (findRandomMatch db gm playerId sock stake cur w uuid1 uuid2 now) = Ok r ->
     ~ selfPaired (resGameState r)) /\
  (oneTicketEach gm ->
   oneTicketEach (fst (findRandomMatch db gm playerId sock stake cur w uuid1 uuid2 now))) /\
  (forall r,
     snd (findRandomMatch db gm playerId sock stake cur w uuid1 uuid2 now) = Ok r ->
     resInQueue r = true ->
     exists q t,
       publicQueue (fst (findRandomMatch db gm playerId sock stake cur w uuid1 uuid2 now))
         = q ++ [t] /\
       ticketPlayerId t = playerId /\ ticketSocketId t = sock /\ queuedAt t = now /\
       forall t', t' ∈ q -> ticketPlayerId t' <> playerId).
Proof.
  split.
  { intros st c g. unfold waitingMatchFor. rewrite !andb_true_iff.
    intros (_ & Hne%negb_true_iff%bool_decide_eq_false). done. }
  split.
  { intros st c t. unfold queuedMatchFor. rewrite !andb_true_iff.
    intros ((Hne%negb_true_iff%bool_decide_eq_false & _) & _). done. }
  change (matchmakingKeeps playerId sock now gm
            (findRandomMatch db gm playerId sock stake cur w uuid1 uuid2 now)).
  unfold findRandomMatch.
  set (gm0 := match playerGames gm !! playerId with
              | Some existingGameId =>
                  match getGame gm existingGameId with
                  | Some existingGame =>
                      if negb (bool_decide (gameStatus existingGame = finished))
                      then fst (removePlayer gm playerId) else gm
                  | None => gm
                  end
              | None => gm
              end).
  assert (Hs0 : noSelfPairing gm -> noSelfPairing gm0).
  { subst gm0. intros Hall. repeat case_match; try done.
    by apply removePlayer_effect. }
  assert (Hq0 : oneTicketEach gm -> oneTicketEach gm0).
  { subst gm0. unfold oneTicketEach. intros Hnd. repeat case_match; try done.
    rewrite (proj1 (removePlayer_effect gm playerId)). by apply removeFirstTicket_NoDup. }
  apply (matchmakingKeeps_from _ _ _ gm gm0); [done|done|].
  clearbody gm0. clear Hs0 Hq0.
  match goal with
  | |- context [let '(s, c) := ?e in _] => destruct e as [stake' cur']
  end.
  destruct (List.find _ (games gm0)) as [[gid g]|]; [apply joinGame_keeps|].
  destruct (List.find _ (publicQueue gm0)) as [queuedPlayer|];
    [|apply enterQueue_keeps].
  set (gm1 := withPublicQueue gm0
                (filter (fun p => ticketPlayerId p <> ticketPlayerId queuedPlayer)
                   (publicQueue gm0))).
  assert (Hs1 : noSelfPairing gm0 -> noSelfPairing gm1)
    by (by apply noSelfPairing_same_games).
  assert (Hq1 : oneTicketEach gm0 -> oneTicketEach gm1)
    by (unfold oneTicketEach; simpl; by apply queue_filter_NoDup).
  apply (matchmakingKeeps_from _ _ _ gm0 gm1); [done|done|].
  clearbody gm1. clear Hs1 Hq1.
  destruct (createGame_effect db gm1 "public" stake' cur'
              (Some (ticketPlayerId queuedPlayer)) (ticketSocketId queuedPlayer)
              (ticketWalletAddress queuedPlayer) None uuid1 now) as [Hq2 Hs2].
  destruct (createGame db gm1 "public" stake' cur'
              (Some (ticketPlayerId queuedPlayer)) (ticketSocketId queuedPlayer)
              (ticketWalletAddress queuedPlayer) None uuid1 now)
    as [gm2 [gameResult|e]]; simpl in *.
  - apply (matchmakingKeeps_from _ _ _ gm1 gm2);
      [intros; by apply Hs2|unfold oneTicketEach; by rewrite Hq2|].
    pose proof (joinGame_keeps db gm2 (resGameId gameResult) playerId sock w now)
      as (K1 & K2 & K3).
    destruct (joinGame db gm2 (resGameId gameResult) playerId sock w)
      as [gm3 [joinResult|e]] eqn:Hj; simpl in *.
    + split; [|split; [done|]].
      * intros Hall. destruct (K1 Hall) as [Ha Hb]. split; [done|].
        intros r [= <-]. simpl. by apply Hb.
      * intros r [= <-]. simpl. done.
    + apply (matchmakingKeeps_from _ _ _ gm2 gm3);
        [intros Hall; by destruct (K1 Hall)|done|].
      apply enterQueue_keeps.
  - apply (matchmakingKeeps_from _ _ _ gm1 gm2);
      [intros; by apply Hs2|unfold oneTicketEach; by rewrite Hq2|].
    apply enterQueue_keeps.
Qed.

Lemma matchmaking_never_self_pairs_witness :
  noSelfPairing newGameManager /\ oneTicketEach newGameManager /\
  noSelfPairing queuedManager /\ oneTicketEach queuedManager.
Proof.
  assert (Hs : noSelfPairing newGameManager) by (intros k g Hk; discriminate Hk).
  assert (Hq : oneTicketEach newGameManager) by apply NoDup_nil_2.
  split; [exact Hs|]. split; [exact Hq|].
  destruct (matchmaking_never_self_pairs noAnswer newGameManager "carol" (Some "s3")
              (Qmake 100 1) "points" (Some "walletC") "q1" "w1" 0)
    as (_ & _ & Hpair & Hqueue & _).
  split; [exact (proj1 (Hpair Hs))|exact (Hqueue Hq)].
Defined.

(** * Further properties of the registry *)

Lemma truthy_Some_true s : s <> "" -> truthy (Some s) = true.
Proof. apply truthy_Some. Qed.

(** X1. [getStats] partitions the stored matches: the total is the number
    of active, waiting and finished matches together. *)
Theorem getStats_partition (gm : GameManager) :
  totalGames (getStats gm)
  = activeGames (getStats gm) + waitingGames (getStats gm) + finishedGames (getStats gm).
Proof.
  unfold getStats. simpl. induction (games gm) as [|[k g] l IH]; [done|].
  cbn [map snd length List.filter]. rewrite IH. clear IH.
  destruct (gameStatus g); simpl; lia.
Qed.

Lemma removeDashes_noDash s : noDash (removeDashes s).
Proof.
  induction s as [|c s IH]; [done|]. simpl.
  case_bool_decide; [done|]. by split.
Qed.

Lemma removeDashes_id s : noDash s -> removeDashes s = s.
Proof.
  induction s as [|c s IH]; [done|]. simpl. intros [Hc Hs].
  rewrite bool_decide_false by done. by rewrite IH.
Qed.

Lemma substring_noDash n s : noDash s -> noDash (substring 0 n s).
Proof.
  revert n. induction s as [|c s IH]; intros [|n]; simpl; try done.
  intros [Hc Hs]. split; [done|]. by apply IH.
Qed.

Lemma substring_length_le n s : String.length (substring 0 n s) <= n.
Proof.
  revert n. induction s as [|c s IH]; intros [|n]; simpl; try lia.
  specialize (IH n). lia.
Qed.

Lemma substring_short n s : String.length s <= n -> substring 0 n s = s.
Proof.
  revert n. induction s as [|c s IH]; intros [|n]; simpl; try done; try lia.
  intros Hle. rewrite IH; [done|lia].
Qed.

Lemma truncatedGameId_noDash s : noDash (truncatedGameId s).
Proof. apply substring_noDash, removeDashes_noDash. Qed.

Lemma truncatedGameId_fixed s :
  noDash s -> String.length s <= 32 -> truncatedGameId s = s.
Proof.
  intros Hd Hl. unfold truncatedGameId.
  rewrite removeDashes_id by done. by apply substring_short.
Qed.

(** X2. The seed [findGamePDA] derives from an identifier has at most 32
    characters and no dash, and deriving it again changes nothing. *)
Theorem truncatedGameId_idempotent (gid : string) :
  String.length (truncatedGameId gid) <= 32 /\
  noDash (truncatedGameId gid) /\
  truncatedGameId (truncatedGameId gid) = truncatedGameId gid.
Proof.
  split; [apply substring_length_le|].
  split; [apply truncatedGameId_noDash|].
  apply truncatedGameId_fixed; [apply truncatedGameId_noDash|apply substring_length_le].
Qed.

(** The creator of a match takes slot 1 of the fresh state. *)
Lemma addPlayer_fresh gid gtype stake cur now c sock w :
  addPlayer (createGameState gid gtype stake cur now) c sock w
  = (setPlayer1 (createGameState gid gtype stake cur now)
       (setWallet (setSocketId (setId emptyPlayer (Some c)) sock) w), Ok slot1).
Proof. reflexivity. Qed.

(** The checks at the head of [createGame]. *)
Lemma createGame_check db stake cur w :
  (if bool_decide (cur = "points") then
     if negb (Qeq_bool stake (Qmake 100 1)) then Some PointsGamesCost100
     else match w with
          | Some a => if truthy w && negb (db a (Qmake 100 1))
                      then Some InsufficientPoints else None
          | None => None
          end
   else if bool_decide (cur = "sol") then
     if Qle_bool stake (Qmake 0 1) then Some SolStakeMustBePositive else None
   else Some InvalidCurrency) = None
  <-> validRequest db stake cur w.
Proof.
  unfold validRequest. split.
  - case_bool_decide as Hp.
    + destruct (Qeq_bool stake (Qmake 100 1)) eqn:Hs; simpl; [|done].
      intros Hw. left. split; [done|]. split; [done|].
      intros a -> Ha. simpl in Hw.
      rewrite bool_decide_false in Hw by done. simpl in Hw.
      by destruct (db a (Qmake 100 1)).
    + case_bool_decide as Hsol; [|done].
      destruct (Qle_bool stake (Qmake 0 1)) eqn:Hs; [done|].
      intros _. by right.
  - intros [(-> & Hs & Hw) | (-> & Hs)].
    + rewrite bool_decide_true by done. rewrite Hs. simpl.
      destruct w as [a|]; [|done]. simpl.
      case_bool_decide as Ha; [done|]. simpl. by rewrite (Hw a).
    + rewrite bool_decide_false by done. rewrite bool_decide_true by done.
      by rewrite Hs.
Qed.

(** X3. [createGame] succeeds exactly on the requests its checks accept
    (a points stake of 100 from a wallet that can pay, or a positive SOL
    stake); when it rejects, the registry is as before. *)
Theorem createGame_accepts_iff (db : string -> Q -> bool) (gm : GameManager)
    (gtype : string) (stake : Q) (cur : string)
    (creator sock w provided : option string) (uuid : string) (now : Z) :
  let out := createGame db gm gtype stake cur creator sock w provided uuid now in
  ((exists r, snd out = Ok r) <-> validRequest db stake cur w) /\
  (forall e, snd out = Throw e -> fst out = gm).
Proof.
  intros out. subst out. rewrite <- createGame_check. unfold createGame.
  match goal with
  | |- context [match ?c with Some e => (gm, Throw e) | None => _ end] =>
      destruct c as [e|]
  end.
  { split; [|done]. simpl. split; [by intros [r Hr]|done]. }
  match goal with
  | |- context [createGameState ?k gtype stake cur now] => generalize k; intros gid
  end.
  destruct creator as [c|]; [|split; [by split; [|eexists]|done]].
  destruct (truthy (Some c) && truthy sock); [|split; [by split; [|eexists]|done]].
  cbv zeta. rewrite addPlayer_fresh.
  split; [by split; [|eexists]|done].
Qed.

Lemma createGame_accepts_iff_witness :
  fst (createGame noAnswer startedManager "public" (Qmake 5 1) "points"
         (Some "carol") (Some "s3") None None "u1" 0) = startedManager.
Proof.
  pose proof (createGame_accepts_iff noAnswer startedManager "public" (Qmake 5 1) "points"
                (Some "carol") (Some "s3") None None "u1" 0) as H.
  cbv zeta in H. destruct H as [_ H].
  apply (H PointsGamesCost100). vm_compute. reflexivity.
Defined.

(** X4. The identifier of a SOL match has at most 32 characters. When
    the requested identifier is longer than that, the stored one is the
    dash-free seed [findGamePDA] derives, so both name the same account;
    a requested identifier of at most 32 characters is stored as it is. *)
Theorem createGame_sol_id (db : string -> Q -> bool) (gm : GameManager)
    (gtype : string) (stake : Q) (creator sock w provided : option string)
    (uuid : string) (now : Z) (r : GameResult) :
  snd (createGame db gm gtype stake "sol" creator sock w provided uuid now) = Ok r ->
  (32 < String.length (requestedId provided uuid) ->
     resGameId r = truncatedGameId (requestedId provided uuid) /\
     truncatedGameId (resGameId r) = resGameId r) /\
  (String.length (requestedId provided uuid) <= 32 ->
     resGameId r = requestedId provided uuid) /\
  String.length (resGameId r) <= 32.
Proof.
  unfold createGame. fold (requestedId provided uuid).
  set (gid0 := requestedId provided uuid).
  rewrite (bool_decide_false ("sol" = "points")) by done.
  rewrite !(bool_decide_true ("sol" = "sol")) by done.
  destruct (Qle_bool stake (Qmake 0 1)); [done|]. simpl.
  set (gid := if 32 <? String.length gid0 then substring 0 32 (removeDashes gid0) else gid0).
  assert (Hres : resGameId r = gid ->
    (32 < String.length gid0 ->
       resGameId r = truncatedGameId gid0 /\ truncatedGameId (resGameId r) = resGameId r) /\
    (String.length gid0 <= 32 -> resGameId r = gid0) /\
    String.length (resGameId r) <= 32).
  { intros ->. subst gid. destruct (Nat.ltb_spec 32 (String.length gid0)) as [Hlt|Hle].
    - split; [|split; [lia|apply substring_length_le]].
      intros _. split; [done|].
      apply truncatedGameId_fixed; [apply truncatedGameId_noDash|apply substring_length_le].
    - split; [lia|]. split; [done|lia]. }
  destruct creator as [c|]; [|by intros [= <-]; apply Hres].
  destruct (truthy (Some c) && truthy sock); [|by intros [= <-]; apply Hres].
  intros [= <-]. by apply Hres.
Qed.

Lemma createGame_sol_id_witness :
  exists r,
    snd (createGame noAnswer newGameManager "private" (Qmake 1 10) "sol" (Some "alice")
           (Some "s1") (Some "walletA") None "123e4567-e89b-42d3-a456-426614174000" 0)
      = Ok r /\
    resGameId r = "123e4567e89b42d3a456426614174000".
Proof.
  eexists. split; [reflexivity|].
  refine (proj1 (proj1 (createGame_sol_id noAnswer newGameManager "private" (Qmake 1 10)
            (Some "alice") (Some "s1") (Some "walletA") None
            "123e4567-e89b-42d3-a456-426614174000" 0 _ eq_refl) _)).
  vm_compute. lia.
Defined.

(** X5. A match created by a player on a socket is stored under the
    returned identifier in place of whatever was stored there: it waits
    for an opponent at round 1 with the creator alone in slot 1, the
    creator's registry entry is that identifier, and every other stored
    match and every other player's entry is untouched.  [getPlayerGame]
    of the creator then returns the match, except when the returned
    identifier is the empty string (a SOL identifier of more than 32
    characters that are all dashes): the entry is then falsy and
    [getPlayerGame] returns nothing. *)
Theorem createGame_stores (db : string -> Q -> bool) (gm : GameManager)
    (gtype : string) (stake : Q) (cur : string) (c s : string)
    (w provided : option string) (uuid : string) (now : Z) (r : GameResult) :
  c <> "" -> s <> "" ->
  snd (createGame db gm gtype stake cur (Some c) (Some s) w provided uuid now) = Ok r ->
  let gm' := fst (createGame db gm gtype stake cur (Some c) (Some s) w provided uuid now) in
  let g := resGameState r in
  getGame gm' (resGameId r) = Some g /\
  playerGames gm' !! c = Some (resGameId r) /\
  getPlayerGame gm' c = (if bool_decide (resGameId r = "") then None else Some g) /\
  gameStatus g = waiting_for_player /\ currentRound g = 1 /\ moveHistory g = [] /\
  id (player1 g) = Some c /\ socketId (player1 g) = Some s /\ wins (player1 g) = 0 /\
  player2 g = emptyPlayer /\ winner g = None /\
  (forall k, k <> resGameId r -> getGame gm' k = getGame gm k) /\
  (forall p, p <> c -> playerGames gm' !! p = playerGames gm !! p).
Proof.
  intros Hc Hs. unfold createGame.
  match goal with
  | |- context [match ?c with Some e => (gm, Throw e) | None => _ end] =>
      destruct c as [e|]; [done|]
  end.
  match goal with
  | |- context [createGameState ?k gtype stake cur now] => generalize k; intros gid
  end.
  rewrite !truthy_Some_true by done. cbn [andb].
  cbv zeta. rewrite addPlayer_fresh.
  intros [= <-]. cbn [resGameId resGameState fst].
  assert (Hget : forall g0, getGame
      (withPlayerGames
         (setGame (withPlayerGames gm (delete c (playerGames gm))) gid g0)
         (<[c:=gid]> (playerGames
            (setGame (withPlayerGames gm (delete c (playerGames gm))) gid g0)))) gid
      = Some g0).
  { intros g0. rewrite getGame_withPlayerGames. apply getGame_setGame_eq. }
  split; [apply Hget|].
  split; [cbn [playerGames withPlayerGames]; apply lookup_insert_eq|].
  split.
  { unfold getPlayerGame. cbv zeta. cbn [playerGames withPlayerGames].
    rewrite lookup_insert_eq. destruct (decide (gid = "")) as [Hgid|Hgid].
    - rewrite (bool_decide_eq_true_2 _ Hgid). by rewrite Hgid.
    - rewrite (bool_decide_eq_false_2 _ Hgid).
      rewrite truthy_Some_true by done. apply Hget. }
  destruct (bool_decide (cur = "sol")); cbn;
    (do 8 (split; [done|]); split;
     [intros k Hk; by rewrite mapGet_mapSet_ne
     |intros p Hp; rewrite lookup_insert_ne by done; by rewrite lookup_delete_ne]).
Qed.

Lemma createGame_stores_witness :
  getGame
    (fst (createGame noAnswer startedManager "private" (Qmake 100 1) "points"
            (Some "carol") (Some "s3") None (Some "m1") "u1" 7)) "m1"
  = Some (fst (addPlayer (createGameState "m1" "private" (Qmake 100 1) "points" 7)
                 "carol" (Some "s3") None)).
Proof.
  refine (proj1 (createGame_stores noAnswer startedManager "private" (Qmake 100 1) "points"
                   "carol" "s3" None (Some "m1") "u1" 7 _ _ _ eq_refl)); done.
Defined.

(** ** Joining, leaving and deleting *)

Lemma mapGet_mapDelete_eq {V} k (m : list (string * V)) : mapGet k (mapDelete k m) = None.
Proof.
  unfold mapDelete. induction m as [|[k' v] m IH]; [done|].
  destruct (decide (k' = k)) as [->|Hne].
  - by rewrite filter_cons_False by (simpl; auto).
  - rewrite filter_cons_True by done. simpl. by rewrite bool_decide_false.
Qed.

Lemma mapGet_mapDelete_ne {V} k k' (m : list (string * V)) :
  k <> k' -> mapGet k' (mapDelete k m) = mapGet k' m.
Proof.
  intros Hne. unfold mapDelete. induction m as [|[k0 v] m IH]; [done|].
  destruct (decide (k0 = k)) as [->|Hk].
  - rewrite filter_cons_False by (simpl; auto). simpl.
    by rewrite bool_decide_false.
  - rewrite filter_cons_True by done. simpl. by rewrite IH.
Qed.

(** X6. When [joinGame] rejects, the stored matches and the queue are as
    before, and the error tells why: no such match, a finished one, one
    in progress, a wallet short of points for a waiting points match, or
    a waiting match whose two slots are held by others. Only the last
    case touches the registry (the stale map entry of the player is
    dropped before the slots are tried). *)
Theorem joinGame_rejections (db : string -> Q -> bool) (gm : GameManager)
    (gid playerId : string) (sock w : option string) (e : Error) :
  snd (joinGame db gm gid playerId sock w) = Throw e ->
  games (fst (joinGame db gm gid playerId sock w)) = games gm /\
  publicQueue (fst (joinGame db gm gid playerId sock w)) = publicQueue gm /\
  (e <> GameIsFull -> fst (joinGame db gm gid playerId sock w) = gm) /\
  match getGame gm gid with
  | None => e = GameNotFound
  | Some g =>
      (gameStatus g = finished /\ e = GameAlreadyFinished) \/
      (gameStatus g = playing /\ e = GameAlreadyInProgress) \/
      (gameStatus g = waiting_for_player /\ e = InsufficientPointsToJoin /\
       currency g = "points" /\
       exists a, w = Some a /\ a <> "" /\ db a (Qmake 100 1) = false) \/
      (gameStatus g = waiting_for_player /\ e = GameIsFull /\
       id (player1 g) <> Some playerId /\ id (player2 g) <> Some playerId /\
       id (player1 g) <> None /\ id (player2 g) <> None)
  end.
Proof.
  unfold joinGame.
  destruct (getGame gm gid) as [g|] eqn:Hg; [|by intros [= <-]].
  case_bool_decide as Hf; [intros [= <-]; do 3 (split; [done|]); by left|].
  case_bool_decide as Hp; [intros [= <-]; do 3 (split; [done|]); right; by left|].
  assert (Hw : gameStatus g = waiting_for_player) by (by destruct (gameStatus g)).
  match goal with
  | |- context [if ?b then (gm, Throw InsufficientPointsToJoin) else _] =>
      destruct b eqn:Hshort
  end.
  { intros [= <-]. do 3 (split; [done|]). right; right; left.
    destruct w as [a|]; [|done].
    apply andb_true_iff in Hshort as [Hshort Hdb].
    apply andb_true_iff in Hshort as [Hcur Ha].
    apply bool_decide_eq_true in Hcur. apply truthy_Some in Ha.
    apply negb_true_iff in Hdb. do 3 (split; [done|]). by exists a. }
  destruct (addPlayer g playerId sock w) as [g1 [pos|e']] eqn:Hadd; [done|].
  cbn [fst snd]. intros [= <-].
  split; [by repeat case_match|]. split; [by repeat case_match|].
  assert (Hfull : e' = GameIsFull /\
            id (player1 g) <> Some playerId /\ id (player2 g) <> Some playerId /\
            id (player1 g) <> None /\ id (player2 g) <> None).
  { unfold addPlayer in Hadd.
    destruct (decide (id (player1 g) = Some playerId)) as [E1|E1];
      [by rewrite bool_decide_true in Hadd|rewrite bool_decide_false in Hadd by done].
    destruct (decide (id (player2 g) = Some playerId)) as [E2|E2];
      [by rewrite bool_decide_true in Hadd|rewrite bool_decide_false in Hadd by done].
    destruct (decide (id (player1 g) = None)) as [E3|E3];
      [by rewrite bool_decide_true in Hadd|rewrite bool_decide_false in Hadd by done].
    destruct (decide (id (player2 g) = None)) as [E4|E4];
      [by rewrite bool_decide_true in Hadd|rewrite bool_decide_false in Hadd by done].
    by simplify_eq. }
  destruct Hfull as (-> & Hfull).
  split; [done|]. do 3 right. done.
Qed.

Lemma joinGame_rejections_witness :
  fst (joinGame noAnswer startedManager "m1" "carol" (Some "s3") None) = startedManager.
Proof.
  assert (He : snd (joinGame noAnswer startedManager "m1" "carol" (Some "s3") None)
               = Throw GameAlreadyInProgress) by (vm_compute; reflexivity).
  destruct (joinGame_rejections noAnswer startedManager "m1" "carol"
              (Some "s3") None GameAlreadyInProgress He) as (_ & _ & H & _).
  apply H. discriminate.
Defined.

(** The errors of [joinGame], by the status of the match. *)
Lemma joinGame_error_kinds db gm gid playerId sock w e :
  snd (joinGame db gm gid playerId sock w) = Throw e ->
  match getGame gm gid with
  | None => e = GameNotFound
  | Some g =>
      (gameStatus g = finished /\ e = GameAlreadyFinished) \/
      (gameStatus g = playing /\ e = GameAlreadyInProgress) \/
      (gameStatus g = waiting_for_player /\
       (e = InsufficientPointsToJoin \/ e = GameIsFull))
  end.
Proof.
  unfold joinGame.
  destruct (getGame gm gid) as [g|]; [|by intros [= <-]].
  case_bool_decide as Hf; [intros [= <-]; by left|].
  case_bool_decide as Hp; [intros [= <-]; right; by left|].
  assert (Hw : gameStatus g = waiting_for_player) by (by destruct (gameStatus g)).
  match goal with
  | |- context [if ?b then (gm, Throw InsufficientPointsToJoin) else _] => destruct b
  end.
  { intros [= <-]. right; right. split; [done|by left]. }
  destruct (addPlayer g playerId sock w) as [g1 [pos|e']] eqn:Hadd; [done|].
  cbn [snd]. intros [= <-]. right; right. split; [done|]. right.
  unfold addPlayer in Hadd. repeat case_match; by simplify_eq.
Qed.

(** X7. The invite check and [joinGame] look at a match in the same way:
    an invite is refused as unknown, finished or in progress exactly when
    joining that match is refused with the matching error. *)
Theorem validateInvite_agrees (db : string -> Q -> bool) (gm : GameManager)
    (code playerId : string) (sock w : option string) :
  code <> "" ->
  (validateInvite gm (Some code) = InviteInvalid
     <-> snd (joinGame db gm code playerId sock w) = Throw GameNotFound) /\
  (validateInvite gm (Some code) = InviteFinished
     <-> snd (joinGame db gm code playerId sock w) = Throw GameAlreadyFinished) /\
  (validateInvite gm (Some code) = InviteInProgress
     <-> snd (joinGame db gm code playerId sock w) = Throw GameAlreadyInProgress).
Proof.
  intros Hcode.
  pose proof (fun e => joinGame_error_kinds db gm code playerId sock w e) as Hother.
  assert (Hhead :
    match getGame gm code with
    | None => snd (joinGame db gm code playerId sock w) = Throw GameNotFound
    | Some g =>
        (gameStatus g = finished ->
         snd (joinGame db gm code playerId sock w) = Throw GameAlreadyFinished) /\
        (gameStatus g = playing ->
         snd (joinGame db gm code playerId sock w) = Throw GameAlreadyInProgress)
    end).
  { unfold joinGame. destruct (getGame gm code) as [g|]; [|done].
    split; intros ->; [done|]. by rewrite bool_decide_false. }
  unfold validateInvite. rewrite truthy_Some_true by done. cbn [negb].
  destruct (getGame gm code) as [g|].
  - destruct Hhead as [Hfin Hplay].
    destruct (gameStatus g) eqn:Hs; simpl.
    + split; [|split]; (split; [done|]); intros He; apply Hother in He;
        destruct He as [[? ?]|[[? ?]|[_ [?|?]]]]; done.
    + split; [|split]; [| |by split; auto];
        (split; [done|]); intros He; apply Hother in He;
        destruct He as [[? ?]|[[? ?]|[? _]]]; done.
    + split; [|split]; [|by split; auto|];
        (split; [done|]); intros He; apply Hother in He;
        destruct He as [[? ?]|[[? ?]|[? _]]]; done.
  - split; [by split|].
    split; (split; [done|]); intros He; apply Hother in He; done.
Qed.

Lemma validateInvite_agrees_witness :
  validateInvite startedManager (Some "m1") = InviteInProgress.
Proof.
  refine (proj2 (proj2 (proj2 (validateInvite_agrees noAnswer startedManager "m1" "carol"
                   (Some "s3") None _))) eq_refl).
  done.
Defined.

(** X8. A player who joins a waiting match whose creator holds slot 1
    takes slot 2 and starts it: the match is playing at round 1, the
    creator's slot is as it was, both players are mapped to the match,
    and no other stored match changes. *)
Theorem joinGame_starts_match (db : string -> Q -> bool) (gm : GameManager)
    (gid a b : string) (sock w : option string) (g : GameState) (r : GameResult) :
  getGame gm gid = Some g -> gameStatus g = waiting_for_player ->
  id (player1 g) = Some a -> a <> "" -> id (player2 g) = None -> b <> a ->
  snd (joinGame db gm gid b sock w) = Ok r ->
  let gm' := fst (joinGame db gm gid b sock w) in
  let g' := resGameState r in
  resGameId r = gid /\ getGame gm' gid = Some g' /\
  gameStatus g' = playing /\ currentRound g' = 1 /\
  player1 g' = player1 g /\
  id (player2 g') = Some b /\ socketId (player2 g') = sock /\ wallet (player2 g') = w /\
  wins (player2 g') = wins (player2 g) /\ moveHistory g' = moveHistory g /\
  resPlayerPosition r = Some slot2 /\ resGameStarted r = Some true /\
  playerGames gm' !! a = Some gid /\ playerGames gm' !! b = Some gid /\
  (forall k, k <> gid -> getGame gm' k = getGame gm k).
Proof.
  intros Hg Hw Ha Hane Hb Hba. unfold joinGame. rewrite Hg, Hw.
  rewrite !bool_decide_false by done.
  match goal with
  | |- context [if ?c then (gm, Throw InsufficientPointsToJoin) else _] => destruct c
  end; [done|].
  assert (Hadd : addPlayer g b sock w
    = (setCurrentRound (setGameStatus
         (setPlayer2 g (setWallet (setSocketId (setId (player2 g) (Some b)) sock) w))
         playing) 1, Ok slot2)).
  { unfold addPlayer. rewrite Ha, Hb.
    rewrite (bool_decide_false (Some a = Some b)) by congruence.
    rewrite (bool_decide_false (None = Some b)) by done.
    rewrite (bool_decide_false (Some a = None)) by done.
    by rewrite bool_decide_true. }
  rewrite Hadd. clear Hadd.
  set (gm1 := match playerGames gm !! b with
              | Some oldGameId =>
                  if bool_decide (oldGameId <> gid)
                  then withPlayerGames gm (delete b (playerGames gm)) else gm
              | None => gm
              end).
  assert (Hgames : games gm1 = games gm) by (subst gm1; by repeat case_match).
  set (g1 := setCurrentRound _ 1).
  set (g2 := if bool_decide (currency g = "sol")
             then setPlayer2 g1 (setStakeDeposited (player2 g1) true) else g1).
  assert (Hp1 : player1 g2 = player1 g)
    by (subst g2 g1; by destruct (bool_decide (currency g = "sol"))).
  assert (Hid1 : id (player1 g2) = Some a) by (by rewrite Hp1).
  rewrite Hid1. rewrite truthy_Some_true by done.
  intros [= <-]. cbn [resGameId resGameState resPlayerPosition resGameStarted fst].
  split; [done|].
  split; [rewrite !getGame_withPlayerGames; apply getGame_setGame_eq|].
  assert (Hst : gameStatus g2 = playing)
    by (subst g2 g1; by destruct (bool_decide (currency g = "sol"))).
  do 2 (split; [subst g2 g1; by destruct (bool_decide (currency g = "sol"))|]).
  split; [done|].
  do 5 (split; [subst g2 g1; by destruct (bool_decide (currency g = "sol"))|]).
  split; [done|]. split; [by rewrite Hst|].
  split; [cbn [playerGames withPlayerGames]; apply lookup_insert_eq|].
  split.
  { cbn [playerGames withPlayerGames]. rewrite lookup_insert_ne by done.
    apply lookup_insert_eq. }
  intros k Hk. rewrite !getGame_withPlayerGames.
  rewrite getGame_setGame_ne by done. unfold getGame. by rewrite Hgames.
Qed.

Lemma joinGame_starts_match_witness :
  playerGames startedManager !! "bob" = Some "m1".
Proof.
  pose (gm := fst (createGame noAnswer newGameManager "public" (Qmake 100 1) "points"
                     (Some "alice") (Some "s1") (Some "walletA") None "m1" 0)).
  pose (g := fst (addPlayer (createGameState "m1" "public" (Qmake 100 1) "points" 0)
                    "alice" (Some "s1") (Some "walletA"))).
  assert (Hg : getGame gm "m1" = Some g) by (vm_compute; reflexivity).
  let o := eval vm_compute in (snd (joinGame noAnswer gm "m1" "bob" (Some "s2")
                                      (Some "walletB"))) in
  match o with
  | Ok ?r =>
      assert (Hr : snd (joinGame noAnswer gm "m1" "bob" (Some "s2") (Some "walletB")) = Ok r)
        by (vm_compute; reflexivity);
      pose proof (joinGame_starts_match noAnswer gm "m1" "alice" "bob" (Some "s2")
                    (Some "walletB") g r Hg eq_refl eq_refl ltac:(done) eq_refl
                    ltac:(done) Hr) as H
  end.
  exact (proj1 (proj2 (proj2 (proj2 (proj2 (proj2 (proj2 (proj2 (proj2 (proj2 (proj2
           (proj2 (proj2 (proj2 H)))))))))))))).
Defined.

Lemma removeFirstTicket_absent (p : string) (q : list Ticket) (t : Ticket) :
  NoDup (ticketPlayerId <$> q) -> t ∈ removeFirstTicket p q -> ticketPlayerId t <> p.
Proof.
  induction q as [|t0 q IH]; simpl; [by intros _ ?%elem_of_nil|].
  rewrite NoDup_cons. intros [Hnotin Hnd].
  case_bool_decide as Ht0.
  - intros Hin Heq. apply Hnotin. rewrite Ht0, <- Heq.
    apply list_elem_of_fmap. by exists t.
  - intros [->|Hin]%elem_of_cons; [done|]. by apply IH.
Qed.

(** X9. [removePlayer] takes the player out of the matchmaking queue
    whether or not it then finds a match to remove them from: when it
    reports a failure, the registry differs from the one before only by
    the first ticket of the player, and with one ticket per player no
    ticket of theirs is left. *)
Theorem removePlayer_failure (gm : GameManager) (playerId : string) (e : Error) :
  snd (removePlayer gm playerId) = Throw e ->
  (e = PlayerNotInAnyGame \/ e = GameNotFound) /\
  fst (removePlayer gm playerId)
    = withPublicQueue gm (removeFirstTicket playerId (publicQueue gm)) /\
  (oneTicketEach gm ->
   forall t, t ∈ publicQueue (fst (removePlayer gm playerId)) -> ticketPlayerId t <> playerId).
Proof.
  unfold removePlayer. cbv zeta. cbn [playerGames withPublicQueue].
  set (gm1 := withPublicQueue gm (removeFirstTicket playerId (publicQueue gm))).
  assert (Hq : oneTicketEach gm ->
            forall t, t ∈ publicQueue gm1 -> ticketPlayerId t <> playerId).
  { intros Hone t. by apply removeFirstTicket_absent. }
  destruct (playerGames gm !! playerId) as [gid|];
    [|intros [= <-]; split; [by left|by split]].
  destruct (truthy (Some gid)); cbn [negb];
    [|intros [= <-]; split; [by left|by split]].
  destruct (getGame gm1 gid); [done|].
  intros [= <-]. split; [by right|by split].
Qed.

Lemma removePlayer_failure_witness :
  publicQueue (fst (removePlayer
     (withPlayerGames queuedManager (delete "carol" (playerGames queuedManager))) "carol"))
  = [].
Proof.
  pose proof (proj1 (proj2 (removePlayer_failure
     (withPlayerGames queuedManager (delete "carol" (playerGames queuedManager))) "carol"
     PlayerNotInAnyGame eq_refl))) as H.
  rewrite H. reflexivity.
Defined.

(** Under the empty identifier the registry entry of a player is falsy:
    [removePlayer] takes the player's queue ticket and stops there. *)
Lemma removePlayer_empty_id (gm : GameManager) (p : string) :
  playerGames gm !! p = Some "" ->
  removePlayer gm p
  = (withPublicQueue gm (removeFirstTicket p (publicQueue gm)), Throw PlayerNotInAnyGame).
Proof.
  intros Hp. unfold removePlayer. cbv zeta. cbn [playerGames withPublicQueue].
  by rewrite Hp.
Qed.

(** X10. A player who is removed from the match they are playing, the
    match being stored under a non-empty identifier, forfeits it: the
    match is finished with the opponent as winner, the slot of the leaver
    is emptied and the opponent's is as it was, the leaver is no longer
    mapped, and neither the history nor the settlement marks change; no
    other match and no other player's entry changes.  Under the empty
    identifier (which [createGame] can store a match under) the entry of
    the player is falsy: [removePlayer] then only takes the player's
    queue ticket and answers that the player is in no game. *)
Theorem removePlayer_forfeits (gm : GameManager) (p o gid : string) (g : GameState) :
  playerGames gm !! p = Some gid ->
  getGame gm gid = Some g -> gameStatus g = playing -> o <> "" -> o <> p ->
  (id (player1 g) = Some p /\ id (player2 g) = Some o) \/
  (id (player2 g) = Some p /\ id (player1 g) = Some o) ->
  (gid = "" ->
   removePlayer gm p
   = (withPublicQueue gm (removeFirstTicket p (publicQueue gm)), Throw PlayerNotInAnyGame)) /\
  (gid <> "" ->
   exists g',
    snd (removePlayer gm p) = Ok (gid, g') /\
    getGame (fst (removePlayer gm p)) gid = Some g' /\
    playerGames (fst (removePlayer gm p)) !! p = None /\
    gameStatus g' = finished /\ winner g' = Some o /\
    ((id (player1 g) = Some p /\ player1 g' = emptyPlayer /\ player2 g' = player2 g) \/
     (id (player2 g) = Some p /\ player2 g' = emptyPlayer /\ player1 g' = player1 g)) /\
    moveHistory g' = moveHistory g /\ marksKept g g' /\
    (forall k, k <> gid -> getGame (fst (removePlayer gm p)) k = getGame gm k) /\
    (forall q, q <> p -> playerGames (fst (removePlayer gm p)) !! q = playerGames gm !! q)).
Proof.
  intros Hp Hg Hst Ho Hop Hslots.
  split; [intros ->; by apply removePlayer_empty_id|]. intros Hgid.
  unfold removePlayer. cbv zeta. cbn [playerGames withPublicQueue].
  rewrite Hp. rewrite truthy_Some_true by done. cbn [negb].
  rewrite getGame_withPublicQueue, Hg.
  exists (removePlayerFromGame g p). cbn [fst snd].
  split; [done|].
  split; [rewrite getGame_withPlayerGames; apply getGame_setGame_eq|].
  split; [cbn [playerGames withPlayerGames]; apply lookup_delete_eq|].
  assert (Hrest :
    gameStatus (removePlayerFromGame g p) = finished /\
    winner (removePlayerFromGame g p) = Some o /\
    ((id (player1 g) = Some p /\ player1 (removePlayerFromGame g p) = emptyPlayer /\
      player2 (removePlayerFromGame g p) = player2 g) \/
     (id (player2 g) = Some p /\ player2 (removePlayerFromGame g p) = emptyPlayer /\
      player1 (removePlayerFromGame g p) = player1 g)) /\
    moveHistory (removePlayerFromGame g p) = moveHistory g /\
    marksKept g (removePlayerFromGame g p)).
  { unfold removePlayerFromGame, marksKept, jsOr.
    destruct Hslots as [[H1 H2]|[H2 H1]].
    - rewrite H1. rewrite bool_decide_true by done. cbn. rewrite H2.
      rewrite truthy_Some_true by done. cbn. rewrite Hst. cbn.
      split; [done|]. split; [done|]. split; [|done]. left. done.
    - rewrite H1, H2. rewrite bool_decide_false by congruence.
      rewrite bool_decide_true by done. cbn. rewrite H1.
      rewrite truthy_Some_true by done. cbn. rewrite Hst. cbn.
      rewrite ?H1. rewrite ?truthy_Some_true by done.
      split; [done|]. split; [done|]. split; [|done]. right. done. }
  destruct Hrest as (? & ? & ? & ? & ?). do 5 (split; [done|]).
  split.
  - intros k Hk. rewrite getGame_withPlayerGames. by rewrite getGame_setGame_ne.
  - intros q Hq. cbn [playerGames withPlayerGames setGame withGames].
    by rewrite lookup_delete_ne.
Qed.

Lemma removePlayer_forfeits_witness :
  exists g',
    getGame (fst (removePlayer startedManager "alice")) "m1" = Some g' /\
    gameStatus g' = finished /\ winner g' = Some "bob".
Proof.
  assert (Hmap : playerGames startedManager !! "alice" = Some "m1")
    by (vm_compute; reflexivity).
  assert (Hg : getGame startedManager "m1" = Some aliceBob) by (vm_compute; reflexivity).
  assert (Hgid : "m1" <> "") by done.
  destruct (proj2 (removePlayer_forfeits startedManager "alice" "bob" "m1" aliceBob
              Hmap Hg eq_refl ltac:(done) ltac:(done)
              (or_introl (conj eq_refl eq_refl))) Hgid)
    as (g' & _ & Hget & _ & Hfin & Hwin & _).
  exists g'. split; [exact Hget|]. split; [exact Hfin|exact Hwin].
Defined.

(** X11. The creator who leaves a match nobody has joined, the match
    being stored under a non-empty identifier, leaves it finished with
    its winner field as it was (no winner is declared), slot 1 emptied,
    slot 2 as it was, and is no longer mapped.  Under the empty
    identifier [removePlayer] only takes the creator's queue ticket and
    answers that the player is in no game. *)
Theorem removePlayer_last_one_out (gm : GameManager) (p gid : string) (g : GameState) :
  playerGames gm !! p = Some gid ->
  getGame gm gid = Some g -> id (player1 g) = Some p -> id (player2 g) = None ->
  (gid = "" ->
   removePlayer gm p
   = (withPublicQueue gm (removeFirstTicket p (publicQueue gm)), Throw PlayerNotInAnyGame)) /\
  (gid <> "" ->
   exists g',
    snd (removePlayer gm p) = Ok (gid, g') /\
    getGame (fst (removePlayer gm p)) gid = Some g' /\
    playerGames (fst (removePlayer gm p)) !! p = None /\
    gameStatus g' = finished /\ winner g' = winner g /\
    player1 g' = emptyPlayer /\ player2 g' = player2 g).
Proof.
  intros Hp Hg H1 H2.
  split; [intros ->; by apply removePlayer_empty_id|]. intros Hgid.
  unfold removePlayer. cbv zeta. cbn [playerGames withPublicQueue].
  rewrite Hp. rewrite truthy_Some_true by done. cbn [negb].
  rewrite getGame_withPublicQueue, Hg.
  exists (removePlayerFromGame g p). cbn [fst snd].
  split; [done|].
  split; [rewrite getGame_withPlayerGames; apply getGame_setGame_eq|].
  split; [cbn [playerGames withPlayerGames]; apply lookup_delete_eq|].
  unfold removePlayerFromGame. rewrite H1. rewrite bool_decide_true by done.
  cbn. rewrite H2. cbn. done.
Qed.

Lemma removePlayer_last_one_out_witness :
  exists g',
    getGame (fst (removePlayer queuedManager "carol")) "w1" = Some g' /\
    gameStatus g' = finished /\ winner g' = None.
Proof.
  assert (Hgid : "w1" <> "") by done.
  destruct (removePlayer_last_one_out queuedManager "carol" "w1"
              (fst (addPlayer (createGameState "w1" "public" (Qmake 100 1) "points" 0)
                      "carol" (Some "s3") (Some "walletC"))))
    as [_ Hok]; [reflexivity|reflexivity|reflexivity|reflexivity|].
  destruct (Hok Hgid) as (g' & _ & Hget & _ & Hfin & Hwin & _).
  exists g'. done.
Defined.

(** X12. [DELETE /api/games/:gameId] deletes a match exactly when it is
    stored, the requester names the identity in slot 1, and the match is
    not in progress. A refused request changes nothing; an accepted one
    removes the match and the map entries of its occupants, and leaves
    every other match and the queue as they were. *)
Theorem deleteGame_spec (gm : GameManager) (gid : string) (playerId : BodyId) :
  let out := deleteGame gm gid playerId in
  (snd out = Deleted <->
     exists g, getGame gm gid = Some g /\ strictEq (id (player1 g)) playerId = true /\
               gameStatus g <> playing) /\
  (snd out <> Deleted -> fst out = gm) /\
  (snd out = Deleted ->
     getGame (fst out) gid = None /\
     (forall k, k <> gid -> getGame (fst out) k = getGame gm k) /\
     publicQueue (fst out) = publicQueue gm /\
     forall g p, getGame gm gid = Some g ->
       (holdsSlot g p -> playerGames (fst out) !! p = None) /\
       (~ holdsSlot g p -> playerGames (fst out) !! p = playerGames gm !! p)).
Proof.
  cbv zeta. unfold deleteGame.
  destruct (getGame gm gid) as [g|] eqn:Hg.
  2:{ split; [split; [done|by intros (g & ? & _)]|]. by split. }
  destruct (strictEq (id (player1 g)) playerId) eqn:Heq; cbn [negb].
  2:{ split; [split; [done|]|by split].
      intros (g0 & [= <-] & Hs & _). congruence. }
  case_bool_decide as Hplay.
  { split; [split; [done|]|by split]. intros (g0 & [= <-] & _ & Hn). done. }
  cbn [fst snd]. split; [split; [intros _; by exists g|done]|].
  split; [done|]. intros _.
  split; [apply mapGet_mapDelete_eq|].
  split; [intros k Hk; by apply mapGet_mapDelete_ne|].
  split; [done|].
  intros g0 p [= <-]. cbn [playerGames].
  split; [apply forgetOccupants_holds|apply forgetOccupants_other].
Qed.

Lemma deleteGame_spec_witness :
  getGame (fst (deleteGame queuedManager "w1" (IdString "carol"))) "w1" = None.
Proof.
  pose proof (deleteGame_spec queuedManager "w1" (IdString "carol")) as H.
  cbv zeta in H. destruct H as (_ & _ & H).
  apply H. vm_compute. reflexivity.
Defined.

(** X13. A match created the way [POST /api/games/create] does it, with
    no socket, is stored with both slots empty and maps nobody; so no
    request that names a player can delete it, its creator's included. *)
Theorem deleteGame_after_http_create (db : string -> Q -> bool) (gm : GameManager)
    (gtype : string) (stake : Q) (cur : string) (creator : option string)
    (uuid p : string) (now : Z) (r : GameResult) :
  snd (createGame db gm gtype stake cur creator None None None uuid now) = Ok r ->
  let gm' := fst (createGame db gm gtype stake cur creator None None None uuid now) in
  player1 (resGameState r) = emptyPlayer /\ player2 (resGameState r) = emptyPlayer /\
  playerGames gm' = playerGames gm /\
  getGame gm' (resGameId r) = Some (resGameState r) /\
  deleteGame gm' (resGameId r) (IdString p) = (gm', DeleteOnlyCreator).
Proof.
  unfold createGame.
  match goal with
  | |- context [match ?c with Some e => (gm, Throw e) | None => _ end] =>
      destruct c as [e|]; [done|]
  end.
  match goal with
  | |- context [createGameState ?k gtype stake cur now] => generalize k; intros gid
  end.
  cbv zeta.
  assert (Hplain : forall out,
    out = (setGame gm gid (createGameState gid gtype stake cur now),
           Ok (mkGameResult gid (createGameState gid gtype stake cur now) None None false)) ->
    snd out = Ok r ->
    player1 (resGameState r) = emptyPlayer /\ player2 (resGameState r) = emptyPlayer /\
    playerGames (fst out) = playerGames gm /\
    getGame (fst out) (resGameId r) = Some (resGameState r) /\
    deleteGame (fst out) (resGameId r) (IdString p) = (fst out, DeleteOnlyCreator)).
  { intros out -> [= <-]. cbn [fst resGameId resGameState].
    do 3 (split; [done|]).
    split; [apply getGame_setGame_eq|].
    unfold deleteGame. by rewrite getGame_setGame_eq. }
  destruct creator as [c|]; [|by apply Hplain].
  rewrite andb_false_r. by apply Hplain.
Qed.

Lemma deleteGame_after_http_create_witness :
  snd (deleteGame
         (fst (createGame noAnswer newGameManager "public" (Qmake 100 1) "points"
                 (Some "alice") None None None "h1" 0)) "h1" (IdString "alice"))
  = DeleteOnlyCreator.
Proof.
  pose proof (deleteGame_after_http_create noAnswer newGameManager "public" (Qmake 100 1)
                "points" (Some "alice") "h1" "alice" 0 _ eq_refl) as (_ & _ & _ & _ & H).
  exact (f_equal snd H).
Defined.

(** * Further properties of the socket handlers *)

Lemma mapSet_mapSet {V} k (v v' : V) m : mapSet k v (mapSet k v' m) = mapSet k v m.
Proof.
  induction m as [|[k0 v0] m IH]; simpl.
  - by rewrite bool_decide_true.
  - case_bool_decide as Hk; simpl.
    + by rewrite bool_decide_true.
    + rewrite bool_decide_false by done. by rewrite IH.
Qed.

(** What a successful [processMove] returns. *)
Lemma processMove_ok g p m now r :
  snd (processMove g p m now) = Ok r ->
  gameStatus g = playing /\
  ((roundComplete r = false /\ roundResult r = None /\
    gameStatus (fst (processMove g p m now)) = playing) \/
   (roundComplete r = true /\
    exists rr, roundResult r = Some rr /\
      gameFinished rr = bool_decide (gameStatus (fst (processMove g p m now)) = finished) /\
      (gameStatus (fst (processMove g p m now)) = finished \/
       gameStatus (fst (processMove g p m now)) = playing))).
Proof.
  intros Hr.
  destruct (recordMove_moves g p m) as (_ & _ & _ & _ & _ & _ & Hrs & _).
  destruct (processMove_cases g p m now)
    as [[_ E] | [[_ E] | [[_ E] | (_ & Hs & _ & [[_ E] | [_ E]])]]];
    rewrite E in Hr |- *; try done.
  - split; [done|]. right.
    pose proof (processRound_run (recordMove g p m) now) as Hrun.
    pose proof (processRound_status (recordMove g p m) now) as Hst.
    destruct (determineWinner _ _) as [rw|e].
    + destruct Hrun as (r0 & Hr0 & Hc & (rr & Hrr & Hfin) & _).
      rewrite Hr in Hr0. simplify_eq. split; [done|]. exists rr.
      split; [done|]. split; [done|].
      destruct Hst as [?|Hst]; [by left|right]. by rewrite Hst, Hrs.
    + by rewrite Hrun in Hr.
  - simpl in Hr. simplify_eq. split; [done|]. left. simpl. by rewrite Hrs.
Qed.

(** What a successful [submitMove] returns and stores. *)
Lemma submitMove_ok gm p m hint now r :
  snd (submitMove gm p m hint now) = Ok r ->
  getGame (fst (submitMove gm p m hint now)) (subGameId r) = Some (subGameState r) /\
  ((subRoundComplete r = false /\ subRoundResult r = None) \/
   (subRoundComplete r = true /\
    exists rr, subRoundResult r = Some rr /\
      gameFinished rr = bool_decide (gameStatus (subGameState r) = finished) /\
      (gameStatus (subGameState r) = finished \/ gameStatus (subGameState r) = playing))).
Proof.
  unfold submitMove.
  destruct (submitMoveLookup gm p hint) as [gm1 gameId].
  destruct gameId as [gid|]; [|done].
  case_match; [done|].
  destruct (getGame gm1 gid) as [g0|] eqn:Hg; [|done].
  case_match; [done|].
  pose proof (processMove_ok g0 p m now) as Hok.
  destruct (processMove g0 p m now) as [g1 [r0|e]]; [|done].
  cbn [fst snd] in *. intros [= <-]. cbn [subGameId subGameState subRoundComplete subRoundResult].
  split; [apply getGame_setGame_eq|].
  destruct (Hok r0 eq_refl) as [_ [(Hc & Hn & _) | (Hc & rr & Hrr & Hfin & Hst)]].
  - left. done.
  - right. split; [done|]. exists rr. split; [done|]. rewrite Hrr.
    destruct (gameFinished rr); done.
Qed.

(** X14. After a move that completes a round, the [submit_move] handler
    leaves no round timer for a match that has finished, and a fresh
    timer of 15 for a match that goes on; a move that completes no round
    leaves the timers alone. *)
Theorem onSubmitMove_timer (srv : Server) (sock : string) (cur : option string)
    (move pid : string) (hint : option string) (now : Z) (result : SubmitResult) :
  pid <> "" ->
  snd (submitMove (gameManager srv) pid move hint now) = Ok result ->
  let srv' := fst (onSubmitMove srv sock cur move (Some pid) hint now) in
  if subRoundComplete result then
    gameTimers srv' !! subGameId result
    = if bool_decide (gameStatus (subGameState result) = finished)
      then None else Some 15%Z
  else gameTimers srv' = gameTimers srv.
Proof.
  intros Hpid Hres. cbv zeta. unfold onSubmitMove, jsOr.
  rewrite truthy_Some_true by done.
  destruct (submitMove_ok _ _ _ _ _ _ Hres) as [Hget Hcases].
  destruct (submitMove (gameManager srv) pid move hint now) as [gm1 out].
  cbn [fst snd] in *. subst out.
  destruct Hcases as [(-> & _) | (-> & rr & -> & -> & Hst)]; [done|].
  case_bool_decide as Hfin.
  - unfold handleGameFinished. cbn [gameManager gameTimers withTimers withManager].
    rewrite Hget.
    destruct (handleGameFinishedOn (subGameState result)) as [g' effs].
    cbn [fst gameTimers withManager]. rewrite delete_delete_eq. apply lookup_delete_eq.
  - destruct Hst as [?|Hplay]; [done|].
    unfold startNextRound. cbn [gameManager gameTimers withTimers withManager].
    rewrite Hget, Hplay. rewrite bool_decide_true by done. cbn [negb].
    cbn. apply lookup_insert_eq.
Qed.

Lemma onSubmitMove_timer_witness :
  gameTimers (playRound startedServer) !! "m1" = Some 15%Z.
Proof.
  pose (srv := fst (onSubmitMove startedServer "s1" None "rock" (Some "alice") None 0)).
  let o := eval vm_compute in (snd (submitMove (gameManager srv) "bob" "scissors" None 0)) in
  match o with
  | Ok ?res =>
      assert (Hres : snd (submitMove (gameManager srv) "bob" "scissors" None 0) = Ok res)
        by (vm_compute; reflexivity);
      pose proof (onSubmitMove_timer srv "s2" None "scissors" "bob" None 0 res
                    ltac:(done) Hres) as H
  end.
  exact H.
Defined.

(** X15. [handleGameFinished] releases a match: its round timer is
    gone, no occupant of the match is mapped to any match any more, the
    stored match keeps its status, winner, slots and history, and no
    other match, nor the queue, changes. The room is told the winner and
    a sweep is scheduled 30 seconds later. *)
Theorem handleGameFinished_releases (srv : Server) (gid : string) (g : GameState) :
  getGame (gameManager srv) gid = Some g ->
  let srv' := fst (handleGameFinished srv gid) in
  gameTimers srv' !! gid = None /\
  (forall k, k <> gid -> gameTimers srv' !! k = gameTimers srv !! k) /\
  (forall p, holdsSlot g p -> playerGames (gameManager srv') !! p = None) /\
  (forall p, ~ holdsSlot g p ->
     playerGames (gameManager srv') !! p = playerGames (gameManager srv) !! p) /\
  (exists g', getGame (gameManager srv') gid = Some g' /\
     gameStatus g' = gameStatus g /\ winner g' = winner g /\
     player1 g' = player1 g /\ player2 g' = player2 g /\
     moveHistory g' = moveHistory g) /\
  (forall k, k <> gid -> getGame (gameManager srv') k = getGame (gameManager srv) k) /\
  publicQueue (gameManager srv') = publicQueue (gameManager srv) /\
  EmitGameFinished gid (winner g) ∈ snd (handleGameFinished srv gid) /\
  SetTimeout CleanupFinished 30000 ∈ snd (handleGameFinished srv gid).
Proof.
  intros Hg. cbv zeta. unfold handleGameFinished.
  cbn [gameManager withTimers]. rewrite Hg.
  assert (Hon : gameStatus (fst (handleGameFinishedOn g)) = gameStatus g /\
                winner (fst (handleGameFinishedOn g)) = winner g /\
                player1 (fst (handleGameFinishedOn g)) = player1 g /\
                player2 (fst (handleGameFinishedOn g)) = player2 g /\
                moveHistory (fst (handleGameFinishedOn g)) = moveHistory g).
  { unfold handleGameFinishedOn, processGameCompletion. repeat case_match; done. }
  destruct (handleGameFinishedOn g) as [g' effs]. cbn [fst snd] in *.
  destruct Hon as (Hs & Hw & H1 & H2 & Hh).
  assert (Hholds : forall p, holdsSlot g' p <-> holdsSlot g p).
  { intros p. unfold holdsSlot. by rewrite H1, H2. }
  cbn [gameTimers gameManager withManager playerGames withPlayerGames].
  split; [apply lookup_delete_eq|].
  split; [intros k Hk; by apply lookup_delete_ne|].
  split; [intros p Hp; by apply forgetOccupants_holds, Hholds|].
  split.
  { intros p Hp. rewrite forgetOccupants_other; [done|]. by rewrite Hholds. }
  split.
  { exists g'. split; [|done]. rewrite getGame_withPlayerGames. apply getGame_setGame_eq. }
  split.
  { intros k Hk. rewrite getGame_withPlayerGames. by apply getGame_setGame_ne. }
  split; [done|].
  rewrite Hw. split; apply elem_of_app; right; [left|right; left].
Qed.

Lemma handleGameFinished_releases_witness :
  playerGames (gameManager (fst (handleGameFinished startedServer "m1"))) !! "bob" = None.
Proof.
  assert (Hg : getGame (gameManager startedServer) "m1" = Some aliceBob)
    by (vm_compute; reflexivity).
  assert (Hb : holdsSlot aliceBob "bob") by (split; [done|by right]).
  exact (proj1 (proj2 (proj2 (handleGameFinished_releases startedServer "m1" aliceBob Hg)))
           "bob" Hb).
Defined.

(** X16. A round timer armed with [c] seconds on a match that is not
    finished only counts down for its first [c - 1] ticks: nothing but
    the countdown it holds changes. On tick [c] the timer is cleared and
    the expiry handler runs. *)
Theorem roundTimer_counts_down (srv : Server) (gid : string) (d : Draws) (now c : Z)
    (g : GameState) :
  gameTimers srv !! gid = Some c ->
  getGame (gameManager srv) gid = Some g -> gameStatus g <> finished ->
  (forall n, (Z.of_nat n < c)%Z ->
     ticks n srv gid d now
     = withTimers srv (<[gid := (c - Z.of_nat n)%Z]> (gameTimers srv))) /\
  (forall n, (Z.of_nat n + 1 = c)%Z ->
     roundTimerTick (ticks n srv gid d now) gid d now
     = (fst (handleTimeUp (withTimers srv (delete gid (gameTimers srv))) gid d now),
        EmitCountdown gid 0 ::
          snd (handleTimeUp (withTimers srv (delete gid (gameTimers srv))) gid d now))).
Proof.
  intros Ht Hg Hnf.
  assert (Hticks : forall n, (Z.of_nat n < c)%Z ->
     ticks n srv gid d now
     = withTimers srv (<[gid := (c - Z.of_nat n)%Z]> (gameTimers srv))).
  { induction n as [|n IH]; intros Hn.
    - simpl. rewrite Z.sub_0_r. rewrite insert_id by done. by destruct srv.
    - cbn [ticks]. rewrite IH by lia. unfold roundTimerTick.
      cbn [gameTimers gameManager withTimers]. rewrite lookup_insert_eq, Hg.
      rewrite bool_decide_false by done.
      destruct (Z.leb_spec (c - Z.of_nat n - 1) 0) as [Hle|Hgt]; [lia|].
      cbn [fst]. unfold withTimers. cbn [gameManager gameTimers playerSockets socketPlayers].
      rewrite insert_insert_eq. do 2 f_equal. lia. }
  split; [done|].
  intros n Hn. rewrite Hticks by lia. unfold roundTimerTick.
  cbn [gameTimers gameManager withTimers]. rewrite lookup_insert_eq, Hg.
  rewrite bool_decide_false by done.
  destruct (Z.leb_spec (c - Z.of_nat n - 1) 0) as [Hle|Hgt]; [|lia].
  unfold withTimers. cbn [gameManager gameTimers playerSockets socketPlayers].
  rewrite delete_insert_eq.
  replace (c - Z.of_nat n - 1)%Z with 0%Z by lia.
  by destruct (handleTimeUp _ gid d now).
Qed.

Lemma roundTimer_counts_down_witness :
  ticks 14 (fst (startRoundTimer startedServer "m1" 15)) "m1" (mkDraws moves 0 0) 0
  = withTimers (fst (startRoundTimer startedServer "m1" 15))
      (<["m1" := (15 - Z.of_nat 14)%Z]>
         (gameTimers (fst (startRoundTimer startedServer "m1" 15)))).
Proof.
  assert (Ht : gameTimers (fst (startRoundTimer startedServer "m1" 15)) !! "m1"
               = Some 15%Z) by (vm_compute; reflexivity).
  assert (Hg : getGame (gameManager (fst (startRoundTimer startedServer "m1" 15))) "m1"
               = Some aliceBob) by (vm_compute; reflexivity).
  exact (proj1 (roundTimer_counts_down (fst (startRoundTimer startedServer "m1" 15))
                  "m1" (mkDraws moves 0 0) 0 15 aliceBob Ht Hg ltac:(done))
           14 ltac:(done)).
Defined.

(** X17. When the timer of a match expires and no occupied slot lacks a
    move, the expiry handler does nothing: the server is as before and
    nothing is sent. In particular it does not resolve a round whose two
    moves are already there. *)
Theorem handleTimeUp_idle (srv : Server) (gid : string) (d : Draws) (now : Z) :
  (forall g, getGame (gameManager srv) gid = Some g ->
     needsMove (player1 g) = false /\ needsMove (player2 g) = false) ->
  handleTimeUp srv gid d now = (srv, []).
Proof.
  intros Hidle. unfold handleTimeUp.
  destruct (getGame (gameManager srv) gid) as [g|] eqn:Hg; [|done].
  destruct (Hidle g eq_refl) as [H1 H2].
  unfold autoAssign. rewrite H1, H2. cbn.
  rewrite setGame_same by done. by destruct srv.
Qed.

Lemma handleTimeUp_idle_witness :
  handleTimeUp finishedServer "m1" (mkDraws moves 0 0) 0 = (finishedServer, []).
Proof.
  apply handleTimeUp_idle. intros g Hg.
  let o := eval vm_compute in (getGame (gameManager finishedServer) "m1") in
  assert (Hv : getGame (gameManager finishedServer) "m1" = o) by (vm_compute; reflexivity).
  rewrite Hv in Hg. injection Hg as <-. split; reflexivity.
Defined.

(** ** The [leave_game] handler *)

Lemma removePlayer_mapped gm p gid g :
  playerGames gm !! p = Some gid -> gid <> "" -> getGame gm gid = Some g ->
  removePlayer gm p
  = (withPlayerGames
       (setGame (withPublicQueue gm (removeFirstTicket p (publicQueue gm))) gid
          (removePlayerFromGame g p))
       (delete p (playerGames gm)),
     Ok (gid, removePlayerFromGame g p)).
Proof.
  intros Hp Hgid Hg. unfold removePlayer. cbv zeta. cbn [playerGames withPublicQueue].
  rewrite Hp. rewrite truthy_Some_true by done. cbn [negb].
  by rewrite getGame_withPublicQueue, Hg.
Qed.

(** Marking the opponent as winner and then removing the leaver gives
    the match that removing the leaver alone gives. *)
Lemma removePlayerFromGame_after_mark g p o :
  o <> "" -> o <> p -> gameStatus g = playing ->
  (id (player1 g) = Some p /\ id (player2 g) = Some o) \/
  (id (player2 g) = Some p /\ id (player1 g) = Some o) ->
  removePlayerFromGame (setGameStatus (setWinner g (Some o)) finished) p
  = removePlayerFromGame g p /\
  gameStatus (removePlayerFromGame g p) = finished /\
  winner (removePlayerFromGame g p) = Some o.
Proof.
  intros Ho Hop Hst Hslots. unfold removePlayerFromGame, jsOr.
  destruct g as [gi gt cu sa p1 p2 cr gs wn mh ca pr cp rc].
  destruct p1 as [i1 s1 w1 n1 m1 r1 d1], p2 as [i2 s2 w2 n2 m2 r2 d2].
  cbn in *. subst gs.
  destruct Hslots as [[-> ->]|[-> ->]].
  - rewrite bool_decide_true by done. cbn.
    rewrite (proj2 (negb_true_iff _) (bool_decide_eq_false_2 _ Ho)). cbn. done.
  - rewrite (bool_decide_false (Some o = Some p)) by congruence.
    rewrite bool_decide_true by done. cbn.
    rewrite (proj2 (negb_true_iff _) (bool_decide_eq_false_2 _ Ho)). cbn. done.
Qed.

(** X18. A player who leaves the match they are playing, the match being
    stored under a non-empty identifier, ends it the same way whether or
    not the message names the match: the server is left in the same
    state, with the match finished, the opponent as winner, no round
    timer, and the leaver unmapped. What differs is what is sent: only
    when the match is named is the abandonment handed to the settlement
    collaborator and the room told the game has finished; otherwise the
    leaver alone gets [game_left].  Under the empty identifier (which
    [createGame] can store a match under) both forms of the message do
    the same and forfeit nothing: the player's queue ticket is taken,
    the match stays as it was and the leaver gets the error that the
    player is in no game. *)
Theorem onLeaveGame_forfeit (srv : Server) (sock : string) (cur : option string)
    (p o gid : string) (g : GameState) :
  p <> "" -> o <> "" -> o <> p ->
  playerGames (gameManager srv) !! p = Some gid ->
  getGame (gameManager srv) gid = Some g -> gameStatus g = playing ->
  (id (player1 g) = Some p /\ id (player2 g) = Some o) \/
  (id (player2 g) = Some p /\ id (player1 g) = Some o) ->
  let named := onLeaveGame srv sock cur (Some gid) (Some p) in
  let unnamed := onLeaveGame srv sock cur None (Some p) in
  let quitting := if bool_decide (id (player1 g) = Some p) then slot1 else slot2 in
  let winning := if bool_decide (id (player1 g) = Some p) then slot2 else slot1 in
  (gid = "" ->
   named = unnamed /\
   named = (withManager srv
              (withPublicQueue (gameManager srv)
                 (removeFirstTicket p (publicQueue (gameManager srv)))),
            [LeaveError PlayerNotInAnyGame])) /\
  (gid <> "" ->
   fst named = fst unnamed /\
   gameTimers (fst named) !! gid = None /\
   playerGames (gameManager (fst named)) !! p = None /\
   (exists g', getGame (gameManager (fst named)) gid = Some g' /\
               gameStatus g' = finished /\ winner g' = Some o) /\
   snd named = [AbandonmentCompletion gid winning quitting; LeaveGameFinished gid (Some o);
                LeaveStateUpdated gid; GameLeft gid] /\
   snd unnamed = [GameLeft gid]).
Proof.
  intros Hp Ho Hop Hmap Hg Hst Hslots. cbv zeta.
  split.
  { intros ->. unfold onLeaveGame, jsOr. rewrite !(truthy_Some_true p) by done.
    cbn [truthy]. rewrite bool_decide_true by done. cbn [negb].
    by rewrite (removePlayer_empty_id (gameManager srv) p Hmap). }
  intros Hgid.
  destruct (removePlayerFromGame_after_mark g p o Ho Hop Hst Hslots) as (Hsame & Hfin & Hwin).
  unfold onLeaveGame, jsOr. rewrite !truthy_Some_true by done.
  (* the message without the match id *)
  rewrite (removePlayer_mapped (gameManager srv) p gid g Hmap Hgid Hg).
  rewrite Hfin. rewrite (bool_decide_false (finished <> finished)) by (intros H; by apply H).
  (* the message with the match id *)
  assert (Hforfeit : leaveForfeit srv gid p
    = (mkServer (setGame (gameManager srv) gid (setGameStatus (setWinner g (Some o)) finished))
         (delete gid (gameTimers srv)) (playerSockets srv) (socketPlayers srv),
       [AbandonmentCompletion gid
          (if bool_decide (id (player1 g) = Some p) then slot2 else slot1)
          (if bool_decide (id (player1 g) = Some p) then slot1 else slot2);
        LeaveGameFinished gid (Some o); LeaveStateUpdated gid])).
  { unfold leaveForfeit. rewrite Hg, Hst. rewrite bool_decide_true by done.
    destruct Hslots as [[H1 H2]|[H2 H1]].
    - rewrite H1. rewrite bool_decide_true by done. cbv beta iota zeta. rewrite H2.
      rewrite truthy_Some_true by done. cbn. rewrite H1.
      by rewrite bool_decide_true.
    - rewrite H1, H2. rewrite (bool_decide_false (Some o = Some p)) by congruence.
      rewrite bool_decide_true by done. cbv beta iota zeta. rewrite H1.
      rewrite truthy_Some_true by done. cbn.
      rewrite H1. by rewrite bool_decide_false by congruence. }
  rewrite Hforfeit. cbn [gameManager gameTimers playerSockets socketPlayers].
  rewrite (removePlayer_mapped _ p gid (setGameStatus (setWinner g (Some o)) finished));
    [|done|done|apply getGame_setGame_eq].
  rewrite Hsame, Hfin.
  rewrite (bool_decide_false (finished <> finished)) by (intros H; by apply H).
  cbn [fst snd app gameManager gameTimers playerGames withPlayerGames].
  split.
  { unfold setGame, withGames, withPublicQueue, withPlayerGames.
    cbn [games playerGames publicQueue]. rewrite mapSet_mapSet.
    by rewrite delete_delete_eq. }
  split; [apply lookup_delete_eq|].
  split; [apply lookup_delete_eq|].
  split; [|done].
  exists (removePlayerFromGame g p). split; [|done].
  rewrite getGame_withPlayerGames. apply getGame_setGame_eq.
Qed.

Lemma onLeaveGame_forfeit_witness :
  fst (onLeaveGame startedServer "s1" None (Some "m1") (Some "alice"))
  = fst (onLeaveGame startedServer "s1" None None (Some "alice")).
Proof.
  assert (Hmap : playerGames (gameManager startedServer) !! "alice" = Some "m1")
    by (vm_compute; reflexivity).
  assert (Hg : getGame (gameManager startedServer) "m1" = Some aliceBob)
    by (vm_compute; reflexivity).
  assert (Hgid : "m1" <> "") by done.
  destruct (onLeaveGame_forfeit startedServer "s1" None "alice" "bob" "m1" aliceBob
              ltac:(done) ltac:(done) ltac:(done) Hmap Hg eq_refl
              (or_introl (conj eq_refl eq_refl))) as [_ Hok].
  exact (proj1 (Hok Hgid)).
Defined.

(** X19. A leave message from a player who is mapped to no match only
    reports the error: no match changes, no timer changes, and the one
    thing that can change is the queue, which loses the player's first
    ticket. *)
Theorem onLeaveGame_not_in_game (srv : Server) (sock : string)
    (cur dataGameId : option string) (p : string) :
  p <> "" -> playerGames (gameManager srv) !! p = None ->
  (forall gid g, dataGameId = Some gid -> getGame (gameManager srv) gid = Some g ->
     ~ (gameStatus g = playing /\ occupies g p = true)) ->
  onLeaveGame srv sock cur dataGameId (Some p)
  = (withManager srv
       (withPublicQueue (gameManager srv)
          (removeFirstTicket p (publicQueue (gameManager srv)))),
     [LeaveError PlayerNotInAnyGame]).
Proof.
  intros Hp Hmap Hnot. unfold onLeaveGame, jsOr. rewrite truthy_Some_true by done.
  assert (Hforfeit : forall gid, dataGameId = Some gid -> leaveForfeit srv gid p = (srv, [])).
  { intros gid Hd. unfold leaveForfeit.
    destruct (getGame (gameManager srv) gid) as [g|] eqn:Hg; [|done].
    case_bool_decide as Hst; [|done].
    specialize (Hnot gid g Hd Hg). unfold occupies in Hnot.
    destruct (bool_decide (id (player1 g) = Some p)) eqn:E1;
      [exfalso; apply Hnot; by split|].
    destruct (bool_decide (id (player2 g) = Some p)) eqn:E2;
      [exfalso; apply Hnot; by split|].
    done. }
  assert (Hrm : removePlayer (gameManager srv) p
    = (withPublicQueue (gameManager srv)
         (removeFirstTicket p (publicQueue (gameManager srv))), Throw PlayerNotInAnyGame)).
  { unfold removePlayer. cbv zeta. cbn [playerGames withPublicQueue]. by rewrite Hmap. }
  destruct dataGameId as [gid|].
  - rewrite (Hforfeit gid eq_refl). destruct (truthy (Some gid)); by rewrite Hrm.
  - by rewrite Hrm.
Qed.

Lemma onLeaveGame_not_in_game_witness :
  snd (onLeaveGame startedServer "s3" None (Some "m1") (Some "carol"))
  = [LeaveError PlayerNotInAnyGame].
Proof.
  rewrite (onLeaveGame_not_in_game startedServer "s3" None (Some "m1") "carol");
    [reflexivity|done|reflexivity|].
  intros gid g [= <-] Hg.
  let o := eval vm_compute in (getGame (gameManager startedServer) "m1") in
  assert (Hv : getGame (gameManager startedServer) "m1" = o) by (vm_compute; reflexivity).
  rewrite Hv in Hg. injection Hg as <-. by intros [_ ?].
Defined.

(** * The hash of a match identifier *)

Lemma toInt32_range z : (- 2 ^ 31 <= toInt32 z < 2 ^ 31)%Z.
Proof.
  unfold toInt32. pose proof (Z.mod_pos_bound (z + 2 ^ 31) (2 ^ 32)). lia.
Qed.

Lemma toInt32_small z : (- 2 ^ 31 <= z < 2 ^ 31)%Z -> toInt32 z = z.
Proof.
  intros Hz. unfold toInt32. rewrite Z.mod_small by lia. lia.
Qed.

Lemma toInt32_plus z k : toInt32 (z + k * 2 ^ 32) = toInt32 z.
Proof.
  unfold toInt32. replace (z + k * 2 ^ 32 + 2 ^ 31)%Z with (z + 2 ^ 31 + k * 2 ^ 32)%Z by lia.
  by rewrite Z_mod_plus_full.
Qed.

Lemma toInt32_wraps z : exists k, toInt32 z = (z + k * 2 ^ 32)%Z.
Proof.
  exists (- ((z + 2 ^ 31) / 2 ^ 32))%Z. unfold toInt32.
  pose proof (Z.div_mod (z + 2 ^ 31) (2 ^ 32)). lia.
Qed.

Lemma toInt32_idemp z : toInt32 (toInt32 z) = toInt32 z.
Proof. apply toInt32_small, toInt32_range. Qed.

(** One turn of the loop multiplies by 31 and adds the code unit, within
    32 bits. *)
Lemma hashChar_31 h c : hashChar h c = toInt32 (31 * h + c).
Proof.
  unfold hashChar. rewrite Z.land_diag, toInt32_idemp.
  rewrite Z.shiftl_mul_pow2 by lia.
  destruct (toInt32_wraps h) as [k1 ->].
  destruct (toInt32_wraps ((h + k1 * 2 ^ 32) * 2 ^ 5)) as [k2 ->].
  replace ((h + k1 * 2 ^ 32) * 2 ^ 5 + k2 * 2 ^ 32 - h + c)%Z
    with (31 * h + c + (32 * k1 + k2) * 2 ^ 32)%Z by lia.
  apply toInt32_plus.
Qed.

Lemma hashChar_wrapped a c : hashChar (toInt32 a) c = toInt32 (31 * a + c).
Proof.
  rewrite hashChar_31. destruct (toInt32_wraps a) as [k Hk]. rewrite Hk.
  replace (31 * (a + k * 2 ^ 32) + c)%Z with (31 * a + c + 31 * k * 2 ^ 32)%Z by lia.
  apply toInt32_plus.
Qed.

Lemma fold_left_cons {A B} (f : A -> B -> A) x l a :
  fold_left f (x :: l) a = fold_left f l (f a x).
Proof. reflexivity. Qed.

Lemma fold_left_nil {A B} (f : A -> B -> A) a : fold_left f [] a = a.
Proof. reflexivity. Qed.

Lemma hashLoop_from str a :
  fold_left hashChar str (toInt32 a)
  = toInt32 (fold_left (fun h c => (31 * h + c)%Z) str a).
Proof.
  revert a. induction str as [|c str IH]; intros a.
  - by rewrite !fold_left_nil.
  - rewrite !fold_left_cons, hashChar_wrapped. apply IH.
Qed.

Lemma hashLoop_poly31 str : hashLoop str = toInt32 (poly31 str).
Proof.
  unfold hashLoop, poly31. rewrite <- hashLoop_from.
  by rewrite (toInt32_small 0) by lia.
Qed.

Lemma hashLoop_range str : (- 2 ^ 31 <= hashLoop str < 2 ^ 31)%Z.
Proof. rewrite hashLoop_poly31. apply toInt32_range. Qed.

(** X20. The loop of [simpleHash] computes the polynomial hash with
    multiplier 31 of the code units, wrapped to a signed 32-bit integer. *)
Theorem simpleHash_loop_is_poly31 (str : list Z) :
  hashLoop str = toInt32 (poly31 str) /\
  (- 2 ^ 31 <= hashLoop str < 2 ^ 31)%Z /\
  forall c, hashLoop (str ++ [c]) = toInt32 (31 * hashLoop str + c).
Proof.
  split; [apply hashLoop_poly31|]. split; [apply hashLoop_range|].
  intros c. unfold hashLoop. rewrite fold_left_app, fold_left_cons, fold_left_nil.
  apply hashChar_31.
Qed.

(** ** The sixteen bytes *)

Lemma hexDigitValue_hexDigit d : (0 <= d < 16)%Z -> hexDigitValue (hexDigit d) = d.
Proof.
  intros Hd. unfold hexDigitValue, hexDigit.
  destruct (Z.ltb_spec d 10).
  - destruct (Z.ltb_spec (48 + d) 58); lia.
  - destruct (Z.ltb_spec (87 + d) 58); lia.
Qed.

Lemma hexDigit_range d : (0 <= d < 16)%Z -> (48 <= hexDigit d < 103)%Z.
Proof. intros Hd. unfold hexDigit. destruct (Z.ltb_spec d 10); lia. Qed.

Lemma hexValue_snoc ds c : hexValue (ds ++ [c]) = (16 * hexValue ds + hexDigitValue c)%Z.
Proof. unfold hexValue. by rewrite fold_left_app. Qed.

(** The digits [hexDigits] puts in front of [acc]: enough fuel gives all
    of them, most significant first. *)
Lemma hexDigits_spec fuel n acc k :
  (0 <= n < 16 ^ Z.of_nat fuel)%Z -> (n < 16 ^ Z.of_nat k)%Z ->
  exists ds, hexDigits fuel n acc = (ds ++ acc)%list /\
             length ds <= k /\ hexValue ds = n /\
             Forall (fun c => 48 <= c < 103)%Z ds /\
             (n <> 0%Z -> ds <> []).
Proof.
  revert n acc k. induction fuel as [|fuel IH]; intros n acc k Hn Hk.
  - exists []. simpl in *.
    split; [done|]. split; [lia|]. split; [unfold hexValue; simpl; lia|].
    split; [constructor|lia].
  - cbn [hexDigits]. destruct (Z.eqb_spec n 0) as [->|Hnz].
    { exists []. split; [done|]. split; [simpl; lia|]. split; [done|].
      split; [constructor|done]. }
    destruct k as [|k]; [simpl in Hk; lia|].
    rewrite Nat2Z.inj_succ, Z.pow_succ_r in Hn, Hk by lia.
    destruct (IH (n / 16)%Z (hexDigit (n mod 16) :: acc) k)
      as (ds & Hds & Hlen & Hval & Hall & _).
    { split; [apply Z.div_pos; lia|apply Z.div_lt_upper_bound; lia]. }
    { apply Z.div_lt_upper_bound; lia. }
    pose proof (Z.mod_pos_bound n 16 ltac:(lia)) as Hmod.
    exists (ds ++ [hexDigit (n mod 16)])%list.
    split; [by rewrite Hds, <- app_assoc|].
    split; [rewrite length_app; simpl; lia|].
    split.
    { rewrite hexValue_snoc, Hval, hexDigitValue_hexDigit by done.
      pose proof (Z.div_mod n 16). lia. }
    split.
    { apply Forall_app. split; [done|]. constructor; [|constructor].
      by apply hexDigit_range. }
    intros _. by destruct ds.
Qed.

Lemma toString16_spec n :
  (0 <= n < 2 ^ 32)%Z ->
  length (toString16 n) <= 8 /\ hexValue (toString16 n) = n /\
  Forall (fun c => 48 <= c < 103)%Z (toString16 n) /\ toString16 n <> [].
Proof.
  intros Hn. unfold toString16. destruct (Z.eqb_spec n 0) as [->|Hnz].
  { split; [simpl; lia|]. split; [done|]. split; [|done].
    constructor; [lia|constructor]. }
  destruct (hexDigits_spec (S (Z.to_nat (Z.log2 n))) n [] 8)
    as (ds & Hds & Hlen & Hval & Hall & Hne).
  - split; [lia|].
    pose proof (Z.log2_nonneg n).
    rewrite Nat2Z.inj_succ, Z2Nat.id by done.
    pose proof (Z.log2_spec n ltac:(lia)) as [_ Hlt].
    eapply Z.lt_le_trans; [exact Hlt|].
    apply Z.pow_le_mono_l. lia.
  - change (16 ^ Z.of_nat 8)%Z with (2 ^ 32)%Z. lia.
  - rewrite app_nil_r in Hds. rewrite Hds. auto.
Qed.

Lemma hexValue_padStart k s : hexValue (padStart k 48%Z s) = hexValue s.
Proof.
  unfold padStart, hexValue. rewrite fold_left_app.
  induction (k - length s) as [|m IH]; [done|]. exact IH.
Qed.

(** Reading a list position by position gives the list back. *)
Lemma map_lookup_seq (f : Z -> Z) (d : Z) (pre l : list Z) :
  map (fun i => match (pre ++ l)%list !! i with
                | Some c => f c
                | None => d
                end) (seq (length pre) (length l))
  = map f l.
Proof.
  revert pre. induction l as [|x l IH]; intros pre; [done|].
  cbn [length seq map]. rewrite list_lookup_middle by done. f_equal.
  specialize (IH (pre ++ [x])%list).
  rewrite <- app_assoc, length_app in IH. cbn [length app] in IH.
  by rewrite Nat.add_1_r in IH.
Qed.

Lemma map_mod_small (l : list Z) :
  Forall (fun c => 0 <= c < 256)%Z l -> map (fun c => (c mod 256)%Z) l = l.
Proof.
  induction 1 as [|c l Hc _ IH]; [done|].
  cbn [map]. rewrite IH. by rewrite Z.mod_small.
Qed.

(** X21. The result of [simpleHash] has sixteen bytes: the first eight
    are the absolute value of the hash in hexadecimal, padded with
    zeros on the left, so that reading them back gives that value; the
    last eight are the first eight code units of the string, each
    reduced modulo 256, padded with the character 0 on the right. *)
Theorem simpleHash_format (str : list Z) :
  let hashStr := padStart 8 48%Z (toString16 (Z.abs (hashLoop str))) in
  simpleHash str
  = (hashStr ++ map (fun c => (c mod 256)%Z) (padEnd 8 48%Z (take 8 str)))%list /\
  length hashStr = 8 /\
  length (simpleHash str) = 16 /\
  hexValue (take 8 (simpleHash str)) = Z.abs (hashLoop str).
Proof.
  cbv zeta.
  pose proof (hashLoop_range str) as Hrange.
  destruct (toString16_spec (Z.abs (hashLoop str))) as (Hlen & Hval & Hall & Hne); [lia|].
  set (hs := toString16 (Z.abs (hashLoop str))) in *.
  assert (Hpad : length (padStart 8 48%Z hs) = 8).
  { unfold padStart. rewrite length_app, length_replicate. lia. }
  assert (Hid : length (padEnd 8 48%Z (take 8 str)) = 8).
  { unfold padEnd. rewrite length_app, length_replicate, length_take. lia. }
  assert (Hbytes : Forall (fun c => 0 <= c < 256)%Z (padStart 8 48%Z hs)).
  { unfold padStart. apply Forall_app. split.
    - apply Forall_replicate. lia.
    - eapply Forall_impl; [exact Hall|]. simpl. intros c Hc. lia. }
  assert (Hfmt : simpleHash str
    = (padStart 8 48%Z hs
         ++ map (fun c => (c mod 256)%Z) (padEnd 8 48%Z (take 8 str)))%list).
  { unfold simpleHash. fold hs.
    rewrite take_ge by (rewrite length_app; lia).
    pose proof (map_lookup_seq (fun c => (c mod 256)%Z) 0%Z []
                  (padStart 8 48%Z hs ++ padEnd 8 48%Z (take 8 str))) as Hmap.
    rewrite length_app, Hpad, Hid in Hmap. cbn [length app Nat.add] in Hmap.
    rewrite Hmap, map_app. by rewrite (map_mod_small _ Hbytes). }
  split; [exact Hfmt|]. split; [exact Hpad|].
  split; [rewrite Hfmt, length_app, length_map; lia|].
  rewrite Hfmt. rewrite take_app_length' by done.
  by rewrite hexValue_padStart.
Qed.

(** * History, scores and sweeps *)

Lemma processRound_history g now :
  moveHistory (fst (processRound g now)) = moveHistory g \/
  exists h, moveHistory (fst (processRound g now)) = moveHistory g ++ [h].
Proof.
  pose proof (processRound_run g now) as Hrun.
  destruct (determineWinner _ _) as [rw|e].
  - destruct Hrun as (r & _ & _ & _ & Heff). destruct Heff as (Hh & _).
    right. eauto.
  - left. by rewrite Hrun.
Qed.

Lemma matchStep_history g e g' :
  matchStep g e g' ->
  moveHistory g' = moveHistory g \/ exists h, moveHistory g' = moveHistory g ++ [h].
Proof.
  destruct 1.
  - left. unfold addPlayer. repeat case_match; done.
  - by left.
  - by left.
  - destruct (processMove_cases g playerId move now)
      as [[_ ->] | [[_ ->] | [[_ ->] | (_ & _ & _ & [[_ ->] | [_ ->]])]]];
      try (by left).
    + destruct (recordMove_moves g playerId move) as (_ & <- & _).
      apply processRound_history.
    + left. cbn [fst]. by destruct (recordMove_moves g playerId move) as (_ & -> & _).
  - by left.
  - apply processRound_history.
  - left. apply startNextRoundOn_history.
  - left. unfold autoAssign. repeat case_match; simplify_eq; done.
  - left. unfold removePlayerFromGame. repeat case_match; done.
  - left. unfold leaveForfeitOn. repeat case_match; done.
  - left. apply handleGameFinishedOn_history.
Qed.

(** X22. Nothing the engine does to a match rewrites its history: along
    any run of steps, the history at the end is the history at the start
    with entries appended. *)
Theorem history_append_only (g g' : GameState) (e : list Effect) :
  matchRun g e g' -> exists suffix, moveHistory g' = moveHistory g ++ suffix.
Proof.
  induction 1 as [g|g1 e1 g2 e2 g3 Hstep Hrun [s2 IH]].
  - exists []. by rewrite app_nil_r.
  - destruct (matchStep_history _ _ _ Hstep) as [H1|[h H1]]; rewrite IH, H1.
    + by exists s2.
    + exists (h :: s2). by rewrite <- app_assoc.
Qed.

Lemma history_append_only_witness :
  exists suffix, moveHistory (rockRounds 1 aliceBob) = moveHistory aliceBob ++ suffix.
Proof.
  apply (history_append_only aliceBob (rockRounds 1 aliceBob) (([] ++ []) ++ [] ++ [])).
  eapply matchRun_trans.
  - eapply matchRun_trans; apply matchRun_one.
    + apply (stepProcessMove aliceBob "alice" "rock" 0).
    + apply (stepProcessMove _ "bob" "scissors" 0).
  - apply matchRun_one. apply stepStartNextRound.
Defined.

Lemma roundsWonBy_push w g h :
  roundsWonBy w (pushHistory g h)
  = roundsWonBy w g + (if bool_decide (roundWinnerOf h = w) then 1 else 0).
Proof.
  unfold roundsWonBy, pushHistory. cbn [moveHistory].
  rewrite List.filter_app, length_app. cbn [List.filter].
  by destruct (bool_decide (roundWinnerOf h = w)).
Qed.

Lemma scoresMatchHistory_same g g' :
  moveHistory g' = moveHistory g -> wins (player1 g') = wins (player1 g) ->
  wins (player2 g') = wins (player2 g) ->
  scoresMatchHistory g -> scoresMatchHistory g'.
Proof.
  unfold scoresMatchHistory, roundsWonBy. intros -> -> ->. done.
Qed.

Lemma processRound_scores g now :
  scoresMatchHistory g -> scoresMatchHistory (fst (processRound g now)).
Proof.
  intros [H1 H2].
  pose proof (processRound_run g now) as Hrun.
  destruct (determineWinner _ _) as [rw|e]; [|by rewrite Hrun].
  destruct Hrun as (r & _ & _ & _ & Heff).
  destruct Heff as (Hh & _ & Hw1 & Hw2 & _).
  unfold scoresMatchHistory, roundsWonBy. rewrite Hh, Hw1, Hw2.
  rewrite !List.filter_app, !length_app. cbn [List.filter roundWinnerOf].
  unfold roundsWonBy in H1, H2. rewrite H1, H2.
  destruct rw; repeat (case_bool_decide; try done); cbn [length]; lia.
Qed.

(** X23. The scoreboard is the history, counted: once the win count of
    each slot is the number of recorded rounds that slot won, it stays so
    through every operation that plays the match (a move, a resolved
    round, the advance to the next round, the moves assigned on expiry, a
    player joining or rejoining, the end-of-match handling, a forfeit
    marked by the leave handler). *)
Theorem scores_match_history (g : GameState) :
  scoresMatchHistory g ->
  (forall playerId move now, scoresMatchHistory (fst (processMove g playerId move now))) /\
  (forall now, scoresMatchHistory (fst (processRound g now))) /\
  scoresMatchHistory (startNextRoundOn g) /\
  (forall d, scoresMatchHistory (fst (autoAssign g d))) /\
  (forall playerId sock w, scoresMatchHistory (fst (addPlayer g playerId sock w))) /\
  scoresMatchHistory (fst (handleGameFinishedOn g)) /\
  (forall playerId, scoresMatchHistory (leaveForfeitOn g playerId)).
Proof.
  intros Hs.
  split.
  { intros playerId move now.
    destruct (processMove_cases g playerId move now)
      as [[_ ->] | [[_ ->] | [[_ ->] | (_ & _ & _ & [[_ ->] | [_ ->]])]]];
      try done;
      destruct (recordMove_moves g playerId move) as (_ & Hh & Hw1 & Hw2 & _).
    - apply processRound_scores. by eapply scoresMatchHistory_same.
    - by eapply scoresMatchHistory_same. }
  split; [intros now; by apply processRound_scores|].
  split.
  { eapply scoresMatchHistory_same; [apply startNextRoundOn_history| | |done];
      unfold startNextRoundOn; by case_match. }
  split.
  { intros d. eapply scoresMatchHistory_same; [| | |done];
      unfold autoAssign; repeat case_match; simplify_eq; done. }
  split.
  { intros playerId sock w. eapply scoresMatchHistory_same; [| | |done];
      unfold addPlayer; repeat case_match; done. }
  split.
  { eapply scoresMatchHistory_same; [apply handleGameFinishedOn_history| | |done];
      unfold handleGameFinishedOn, processGameCompletion; repeat case_match; done. }
  intros playerId. eapply scoresMatchHistory_same; [| | |done];
    unfold leaveForfeitOn; repeat case_match; done.
Qed.

Lemma scores_match_history_witness :
  scoresMatchHistory (fst (processRound
    (fst (processMove (fst (processMove aliceBob "alice" "rock" 0)) "bob" "scissors" 0)) 1)).
Proof.
  assert (H : scoresMatchHistory
                (fst (processMove (fst (processMove aliceBob "alice" "rock" 0))
                        "bob" "scissors" 0)))
    by (split; vm_compute; reflexivity).
  exact (proj1 (proj2 (scores_match_history _ H)) 1%Z).
Defined.

(** X24. For a points request [findRandomMatch] ignores the stake it is
    given: any two stakes lead to the same registry and the same
    result. *)
Theorem findRandomMatch_points_stake (db : string -> Q -> bool) (gm : GameManager)
    (playerId : string) (sock : option string) (stake1 stake2 : Q)
    (w : option string) (uuid1 uuid2 : string) (now : Z) :
  findRandomMatch db gm playerId sock stake1 "points" w uuid1 uuid2 now
  = findRandomMatch db gm playerId sock stake2 "points" w uuid1 uuid2 now.
Proof.
  unfold findRandomMatch. rewrite bool_decide_true by done.
  destruct w as [a|]; [|done].
  by destruct (truthy (Some a) && negb (db a (Qmake 100 1))).
Qed.

(** X25. A points request from a wallet that cannot pay 100 points is
    served as a SOL request with stake 0.01: the player may be matched
    into, or left waiting in, a SOL match. *)
Theorem findRandomMatch_switches_to_sol (db : string -> Q -> bool) (gm : GameManager)
    (playerId : string) (sock : option string) (stake : Q)
    (a : string) (uuid1 uuid2 : string) (now : Z) :
  a <> "" -> db a (Qmake 100 1) = false ->
  findRandomMatch db gm playerId sock stake "points" (Some a) uuid1 uuid2 now
  = findRandomMatch db gm playerId sock (Qmake 1 100) "sol" (Some a) uuid1 uuid2 now.
Proof.
  intros Ha Hdb. unfold findRandomMatch.
  rewrite (bool_decide_true ("points" = "points")) by done.
  rewrite (bool_decide_false ("sol" = "points")) by done.
  rewrite truthy_Some_true by done. rewrite Hdb. done.
Qed.

Lemma findRandomMatch_switches_to_sol_witness :
  exists r,
    snd (findRandomMatch (fun _ _ => false) newGameManager "dave" (Some "s4") (Qmake 100 1)
           "points" (Some "walletD") "q1" "w1" 0) = Ok r /\
    currency (resGameState r) = "sol".
Proof.
  rewrite (findRandomMatch_switches_to_sol (fun _ _ => false) newGameManager "dave"
             (Some "s4") (Qmake 100 1) "walletD" "q1" "w1" 0) by done.
  eexists. split; reflexivity.
Defined.

Lemma filter_none {A} (f : A -> bool) (l : list A) :
  (forall x, x ∈ l -> f x = false) -> List.filter f l = [].
Proof.
  induction l as [|x l IH]; intros Hnone; [done|]. simpl.
  rewrite (Hnone x) by left. apply IH. intros y Hin. apply Hnone. by right.
Qed.

Lemma forgetAll_none now maxAge (l : list (string * GameState)) pg :
  (forall kv, kv ∈ l -> isOldFinished now maxAge (snd kv) = false) ->
  forgetAll now maxAge l pg = pg.
Proof.
  unfold forgetAll. revert pg. induction l as [|kv l IH]; intros pg Hnone; [done|].
  simpl. rewrite (Hnone kv) by left. apply IH. intros y Hin. apply Hnone. by right.
Qed.

(** A sweep that meets no finished match older than [maxAge] changes
    nothing. *)
Lemma cleanupOldGames_nothing gm maxAge now :
  (forall kv, kv ∈ games gm -> isOldFinished now maxAge (snd kv) = false) ->
  cleanupOldGames gm maxAge now = (gm, 0).
Proof.
  intros Hnone. unfold cleanupOldGames. rewrite cleanup_loop.
  rewrite (filter_none (fun kv => isOldFinished now maxAge (snd kv))) by done.
  cbn [fmap list_fmap app length foldl].
  rewrite forgetAll_none by done. by destruct gm.
Qed.

(** X26. Sweeping twice is sweeping once: right after a sweep, a second
    one with the same age limit removes nothing and leaves the registry
    as the first left it. *)
Theorem cleanupOldGames_idempotent (gm : GameManager) (maxAge now : Z) :
  cleanupOldGames (fst (cleanupOldGames gm maxAge now)) maxAge now
  = (fst (cleanupOldGames gm maxAge now), 0).
Proof.
  apply cleanupOldGames_nothing. intros kv.
  unfold cleanupOldGames. rewrite cleanup_loop. cbn [fst games app].
  rewrite mapDelete_all. intros [Hkey Hin]%list_elem_of_filter.
  destruct (isOldFinished now maxAge (snd kv)) eqn:Hold; [|done].
  exfalso. apply Hkey. apply list_elem_of_fmap. exists kv. split; [done|].
  apply list_elem_of_In, List.filter_In. split; [by apply list_elem_of_In|done].
Qed.

(** X27. At the end of a match with two distinct players whose wallets
    are known, the settlement names the wallet of the slot that holds the
    winner: a points match is settled once with both wallets and the
    winner's, a SOL match once with the winner's wallet and the other
    one, and both completion marks are set. *)
Theorem handleGameFinishedOn_pays_winner (g : GameState) (x w1 w2 : string) :
  winner g = Some x -> x <> "" ->
  processed g = false -> completionProcessed g = false ->
  wallet (player1 g) = Some w1 -> w1 <> "" ->
  wallet (player2 g) = Some w2 -> w2 <> "" ->
  id (player1 g) <> id (player2 g) ->
  id (player1 g) = Some x \/ id (player2 g) = Some x ->
  let winnerWallet := if bool_decide (id (player1 g) = Some x) then w1 else w2 in
  let loserWallet := if bool_decide (id (player1 g) = Some x) then w2 else w1 in
  processed (fst (handleGameFinishedOn g)) = true /\
  completionProcessed (fst (handleGameFinishedOn g)) = true /\
  (currency g = "points" ->
     snd (handleGameFinishedOn g)
     = [PointsSettlement (gameId g) (Some w1) (Some w2) (Some winnerWallet)]) /\
  (currency g = "sol" ->
     snd (handleGameFinishedOn g)
     = [SolSettlement (gameId g) (Some winnerWallet) (Some loserWallet) (stakeAmount g)]).
Proof.
  intros Hw Hx Hp Hc Hw1 Hn1 Hw2 Hn2 Hids Hslot. cbv zeta.
  unfold handleGameFinishedOn. rewrite Hw, Hp. rewrite truthy_Some_true by done.
  cbn [negb andb]. unfold processGameCompletion.
  cbn [completionProcessed setProcessed]. rewrite Hc.
  cbn [wallet player1 player2 setCompletionProcessed setProcessed currency gameId stakeAmount].
  rewrite Hw1, Hw2. rewrite !truthy_Some_true by done. cbn [negb orb].
  destruct Hslot as [H1|H2].
  - rewrite H1. rewrite !bool_decide_true by done.
    rewrite truthy_Some_true by done. cbn [negb].
    split; [by repeat case_match|]. split; [by repeat case_match|].
    split; intros ->; [done|].
    rewrite (bool_decide_false ("sol" = "points")) by done.
    by rewrite !bool_decide_true.
  - assert (H1 : id (player1 g) <> Some x) by congruence.
    rewrite (bool_decide_false (Some x = id (player1 g))) by congruence.
    rewrite (bool_decide_false (id (player1 g) = Some x)) by done.
    rewrite truthy_Some_true by done. cbn [negb].
    split; [by repeat case_match|]. split; [by repeat case_match|].
    split; intros ->; [done|].
    rewrite (bool_decide_false ("sol" = "points")) by done.
    rewrite bool_decide_true by done.
    destruct (decide (w2 = w1)) as [->|Hne].
    + by rewrite bool_decide_true.
    + by rewrite bool_decide_false by congruence.
Qed.

Lemma handleGameFinishedOn_pays_winner_witness :
  snd (handleGameFinishedOn (setWinner aliceBob (Some "bob")))
  = [PointsSettlement "m1" (Some "walletA") (Some "walletB") (Some "walletB")].
Proof.
  refine (proj1 (proj2 (proj2 (handleGameFinishedOn_pays_winner
            (setWinner aliceBob (Some "bob")) "bob" "walletA" "walletB"
            eq_refl _ eq_refl eq_refl eq_refl _ eq_refl _ _ _))) eq_refl); try done.
  by right.
Defined.

(** * Matchmaking through a waiting match, and moves on a match that is
      not being played *)

(** X28. When the caller is in no match and a public match with the
    requested stake and currency waits for an opponent, [findRandomMatch]
    joins such a match and does not touch the queue: every ticket, that
    of the creator of the joined match included, is still queued
    afterwards. *)
Theorem findRandomMatch_joins_waiting (db : string -> Q -> bool) (gm : GameManager)
    (playerId : string) (sock : option string) (stake : Q) (cur : string)
    (w : option string) (uuid1 uuid2 : string) (now : Z) (k : string) (g : GameState) :
  playerGames gm !! playerId = None ->
  (k, g) ∈ games gm ->
  waitingMatchFor playerId (fst (effectiveRequest db stake cur w))
    (snd (effectiveRequest db stake cur w)) g = true ->
  (exists k' g',
     (k', g') ∈ games gm /\
     waitingMatchFor playerId (fst (effectiveRequest db stake cur w))
       (snd (effectiveRequest db stake cur w)) g' = true /\
     findRandomMatch db gm playerId sock stake cur w uuid1 uuid2 now
     = joinGame db gm k' playerId sock w) /\
  publicQueue (fst (findRandomMatch db gm playerId sock stake cur w uuid1 uuid2 now))
  = publicQueue gm.
Proof.
  intros Hmap Hin Hwait.
  assert (Hfind : exists k' g',
     (k', g') ∈ games gm /\
     waitingMatchFor playerId (fst (effectiveRequest db stake cur w))
       (snd (effectiveRequest db stake cur w)) g' = true /\
     findRandomMatch db gm playerId sock stake cur w uuid1 uuid2 now
     = joinGame db gm k' playerId sock w).
  { unfold findRandomMatch. rewrite Hmap.
    change (if bool_decide (cur = "points") then _ else (stake, cur))
      with (effectiveRequest db stake cur w).
    destruct (effectiveRequest db stake cur w) as [stake' cur']. cbn [fst snd] in *.
    destruct (List.find (fun kv => waitingMatchFor playerId stake' cur' (snd kv)) (games gm))
      as [[k' g']|] eqn:Hf.
    - apply List.find_some in Hf as [Hin' Hw']. exists k', g'.
      split; [by apply list_elem_of_In|]. split; [exact Hw'|done].
    - exfalso. pose proof (List.find_none _ _ Hf (k, g)) as Hnone.
      cbn [snd] in Hnone. rewrite Hwait in Hnone.
      specialize (Hnone (proj1 (list_elem_of_In _ _) Hin)). done. }
  split; [exact Hfind|].
  destruct Hfind as (k' & g' & _ & _ & ->).
  apply (joinGame_effect db gm k' playerId sock w).
Qed.

Lemma findRandomMatch_joins_waiting_witness :
  ticketPlayerId <$> publicQueue
    (fst (findRandomMatch noAnswer queuedManager "dave" (Some "s4") (Qmake 100 1) "points"
            (Some "walletD") "q2" "w2" 5))
  = ["carol"].
Proof.
  rewrite (proj2 (findRandomMatch_joins_waiting noAnswer queuedManager "dave" (Some "s4")
                    (Qmake 100 1) "points" (Some "walletD") "q2" "w2" 5 "w1"
                    (fst (addPlayer (createGameState "w1" "public" (Qmake 100 1) "points" 0)
                            "carol" (Some "s3") (Some "walletC")))
                    eq_refl ltac:(vm_compute; left) eq_refl)).
  reflexivity.
Defined.

(** X29. A valid move sent by a player whose registry entry is a
    non-empty identifier, for the match stored under it, which holds the
    player and is not being played (still waiting, or finished), is
    refused with [GameNotInPlayingState], and the registry is exactly as
    before. *)
Theorem submitMove_not_playing (gm : GameManager) (playerId move gid : string)
    (hint : option string) (now : Z) (g : GameState) :
  playerGames gm !! playerId = Some gid -> gid <> "" ->
  getGame gm gid = Some g -> occupies g playerId = true ->
  gameStatus g <> playing -> validMove (Some move) ->
  submitMove gm playerId move hint now = (gm, Throw GameNotInPlayingState).
Proof.
  intros Hmap Hgid Hg Hocc Hst Hmove.
  unfold submitMove, submitMoveLookup. cbv zeta. rewrite Hmap.
  rewrite truthy_Some_true by done. cbn [negb]. rewrite Hg, Hocc. cbn [negb].
  destruct (processMove_cases g playerId move now)
    as [[Hinv _] | [[_ ->] | [[Hno _] | (_ & Hs & _)]]].
  - destruct Hmove as [[= ->] | [[= ->] | [= ->]]]; vm_compute in Hinv; done.
  - rewrite truthy_Some_true by done. cbn [negb]. by rewrite setGame_same.
  - congruence.
  - done.
Qed.

Lemma submitMove_not_playing_witness :
  submitMove queuedManager "carol" "rock" None 0 = (queuedManager, Throw GameNotInPlayingState).
Proof.
  apply (submitMove_not_playing queuedManager "carol" "rock" "w1" None 0
           (fst (addPlayer (createGameState "w1" "public" (Qmake 100 1) "points" 0)
                   "carol" (Some "s3") (Some "walletC"))));
    try reflexivity; try done.
  by left.
Defined.

(** * The on-chain confirmations *)

Lemma checkAndStartGame_cases (st : gmap string (bool * bool)) gm gid :
  (st !! gid = Some (true, true) /\ fst (checkAndStartGame st gm gid) = delete gid st /\
   (forall g, getGame gm gid = Some g ->
      exists x, snd (checkAndStartGame st gm gid)
                = [GameStarted x; StartRoundTimerLater x 15 2000]) /\
   (getGame gm gid = None -> snd (checkAndStartGame st gm gid) = [])) \/
  (st !! gid <> Some (true, true) /\ checkAndStartGame st gm gid = (st, [])).
Proof.
  unfold checkAndStartGame.
  destruct (st !! gid) as [[[] []]|] eqn:Hst; try (right; split; [congruence|done]).
  left. split; [done|].
  destruct (getGame gm gid) as [g|]; cbn [fst snd].
  - split; [done|]. split; [|done]. intros g0 _. eauto.
  - split; [done|]. split; [done|done].
Qed.

(** X30. Each on-chain confirmation acts once: delivering the same
    confirmation again, right after, changes nothing and sends nothing.
    The match is announced as started only by the confirmation that
    completes the pair, that is when the other mark was already set and
    this one was not, and the entry is then dropped, so a match is
    announced at most once per entry; with the match stored, that
    confirmation does announce it. *)
Theorem onchain_confirmation_acts_once (st : gmap string (bool * bool)) (gm : GameManager)
    (dataGameId : option string) :
  let created := handleOnchainGameCreated st gm dataGameId in
  let joined := handleOnchainGameJoined st gm dataGameId in
  handleOnchainGameCreated (fst created) gm dataGameId = (fst created, []) /\
  handleOnchainGameJoined (fst joined) gm dataGameId = (fst joined, []) /\
  (forall x, GameStarted x ∈ snd created ->
     exists k, dataGameId = Some k /\ st !! k = Some (false, true) /\
               fst created !! k = None) /\
  (forall x, GameStarted x ∈ snd joined ->
     exists k, dataGameId = Some k /\ st !! k = Some (true, false) /\
               fst joined !! k = None) /\
  (forall k g, dataGameId = Some k -> k <> "" -> getGame gm k = Some g ->
     (st !! k = Some (false, true) -> exists x, GameStarted x ∈ snd created) /\
     (st !! k = Some (true, false) -> exists x, GameStarted x ∈ snd joined)).
Proof.
  cbv zeta. unfold handleOnchainGameCreated, handleOnchainGameJoined.
  destruct dataGameId as [gid|].
  2:{ split; [done|]. split; [done|].
      split; [by intros x ?%elem_of_nil|]. split; [by intros x ?%elem_of_nil|]. done. }
  destruct (truthy (Some gid)) eqn:Ht.
  2:{ split; [done|]. split; [done|].
      split; [by intros x ?%elem_of_nil|]. split; [by intros x ?%elem_of_nil|].
      intros k g [= <-] Hk. apply truthy_Some_true in Hk. congruence. }
  destruct (st !! gid) as [[p1 p2]|] eqn:Hst.
  2:{ cbn [fst snd]. rewrite Hst. split; [done|]. split; [done|].
      split; [by intros x ?%elem_of_nil|]. split; [by intros x ?%elem_of_nil|].
      intros k g [= <-] _ _. split; congruence. }
  assert (Hcreated :
    let out := (if negb p1
                then let '(st2, effs) := checkAndStartGame (<[gid:=(true, p2)]> st) gm gid in
                     (st2, (match getGame gm gid with
                            | Some gameState =>
                                if truthy (socketId (player2 gameState)) then
                                  [TriggerPlayer2
                                     (if bool_decide (gameType gameState = "private")
                                      then "game_started_pre_tx" else "join_onchain_game")
                                     (socketId (player2 gameState)) gid]
                                else []
                            | None => []
                            end ++ effs)%list)
                else (st, [])) in
    (fst out !! gid = None \/ exists q, fst out !! gid = Some (true, q)) /\
    (forall x, GameStarted x ∈ snd out ->
       (p1, p2) = (false, true) /\ fst out !! gid = None) /\
    (forall g, getGame gm gid = Some g -> (p1, p2) = (false, true) ->
       exists x, GameStarted x ∈ snd out)).
  { cbv zeta. destruct p1; cbn [negb].
    { split; [right; by exists p2|]. split; [by intros x ?%elem_of_nil|]. by intros. }
    destruct (checkAndStartGame_cases (<[gid:=(true, p2)]> st) gm gid)
      as [(Hboth & Hfst & Hsome & Hnone)|[Hnot Heq]].
    - rewrite lookup_insert_eq in Hboth. injection Hboth as ->.
      destruct (checkAndStartGame (<[gid:=(true, true)]> st) gm gid) as [st2 effs].
      cbn [fst snd] in *. subst st2.
      split; [left; apply lookup_delete_eq|].
      split; [intros x _; split; [done|apply lookup_delete_eq]|].
      intros g Hg _. destruct (Hsome g Hg) as [x ->]. exists x.
      apply elem_of_app. right. left.
    - rewrite Heq. cbn [fst snd]. rewrite app_nil_r.
      split; [right; exists p2; apply lookup_insert_eq|].
      split.
      + intros x Hx. exfalso.
        destruct (getGame gm gid) as [g|]; [|by apply elem_of_nil in Hx].
        destruct (truthy (socketId (player2 g))); [|by apply elem_of_nil in Hx].
        apply list_elem_of_singleton in Hx. done.
      + intros g _ [= ->]. exfalso. apply Hnot. apply lookup_insert_eq. }
  assert (Hjoined :
    let out := (if negb p2 then checkAndStartGame (<[gid:=(p1, true)]> st) gm gid
                else (st, [])) in
    (fst out !! gid = None \/ exists q, fst out !! gid = Some (q, true)) /\
    (forall x, GameStarted x ∈ snd out ->
       (p1, p2) = (true, false) /\ fst out !! gid = None) /\
    (forall g, getGame gm gid = Some g -> (p1, p2) = (true, false) ->
       exists x, GameStarted x ∈ snd out)).
  { cbv zeta. destruct p2; cbn [negb].
    { split; [right; by exists p1|]. split; [by intros x ?%elem_of_nil|]. by intros. }
    destruct (checkAndStartGame_cases (<[gid:=(p1, true)]> st) gm gid)
      as [(Hboth & Hfst & Hsome & Hnone)|[Hnot Heq]].
    - rewrite lookup_insert_eq in Hboth. injection Hboth as ->.
      split; [left; rewrite Hfst; apply lookup_delete_eq|].
      split; [intros x _; split; [done|rewrite Hfst; apply lookup_delete_eq]|].
      intros g Hg _. destruct (Hsome g Hg) as [x ->]. exists x. left.
    - rewrite Heq. cbn [fst snd].
      split; [right; exists p1; apply lookup_insert_eq|].
      split; [by intros x ?%elem_of_nil|].
      intros g _ [= -> ]. exfalso. apply Hnot. apply lookup_insert_eq. }
  cbv zeta in Hcreated, Hjoined.
  destruct Hcreated as (Hc1 & Hc2 & Hc3). destruct Hjoined as (Hj1 & Hj2 & Hj3).
  split.
  { destruct Hc1 as [-> | [q ->]]; done. }
  split.
  { destruct Hj1 as [-> | [q ->]]; done. }
  split.
  { intros x Hx. destruct (Hc2 x Hx) as [[= -> ->] Hnone]. by exists gid. }
  split.
  { intros x Hx. destruct (Hj2 x Hx) as [[= -> ->] Hnone]. by exists gid. }
  intros k g [= <-] _ Hg.
  split; intros H; rewrite Hst in H; injection H as -> ->;
    [by apply (Hc3 g)|by apply (Hj3 g)].
Qed.

Lemma onchain_confirmation_acts_once_witness :
  handleOnchainGameCreated
    (fst (handleOnchainGameCreated (<["m1" := (false, true)]> ∅) startedManager (Some "m1")))
    startedManager (Some "m1")
  = (fst (handleOnchainGameCreated (<["m1" := (false, true)]> ∅) startedManager (Some "m1")),
     []).
Proof.
  pose proof (onchain_confirmation_acts_once (<["m1" := (false, true)]> ∅) startedManager
                (Some "m1")) as H.
  cbv zeta in H. destruct H as [H _]. exact H.
Defined.
